(** * ChannelAnalysis: occupancy percentages, histograms and dihedral series

    A shallow embedding of [CoordAnalysis/Regex_Grouping.py] and
    [ChannelAnalysis/RotamerAnalysis/Histograms.py].

    Conventions of the embedding.
    - A Python [float] is an exact rational ([Qc], canonical fractions, so
      that Python's [==] on floats is Leibniz equality and floats can be
      dictionary keys).  Rounding is not modelled.
    - A Python [int] is a [Z].
    - A [dict] is a [gmap]; a [defaultdict] is a [gmap] whose read of a
      missing key inserts the default value, as [__missing__] does.
    - An exception is a value of [exn]; an effectful function is a state
      and error monad over the objects it mutates.
    - The order in which a Python 2 [dict] is iterated is not specified;
      here it is the order of [map_to_list], and no statement depends on
      it: the trajectory rows of a table are spoken of by membership,
      never by position.
    - [min], [max], [sum], [abs], [range], [zip] and [enumerate] are
      Python's builtins: the star imports of the preprocessor modules
      are taken not to rebind them.
    - The functions are modelled as called with [prefix=None]: no file is
      written.  The two histogram functions also have a model with the
      argument [prefix] ([..._prefix]), which adds the file written.
    - Library functions: [numpy.histogram] and [numpy.histogram2d] are
      modelled (module [Numpy]) as numpy documents them for the
      arguments the source passes; [numpy.log] is a parameter;
      [scipy.stats.sem] is left unevaluated. *)

From Stdlib Require Import ZArith QArith Qcanon.
From stdpp Require Import gmap strings list fin_maps.

Local Open Scope Z_scope.

(** ** Python values and exceptions *)

Module Py.

Inductive exn : Set :=
  | ValueError
  | AssertionError
  | ZeroDivisionError
  | IndexError
  | KeyError.

Global Instance exn_eq_dec : EqDecision exn.
Proof. solve_decision. Defined.

Definition of_int (z : Z) : Qc := Q2Qc (inject_Z z).

(** [l[i]] for a list: negative indices count from the end, an index out
    of range raises [IndexError]. *)
Definition getitem {A} (l : list A) (i : Z) : exn + A :=
  let n := Z.of_nat (length l) in
  let j := if i <? 0 then i + n else i in
  if (0 <=? j) && (j <? n) then
    match l !! Z.to_nat j with
    | Some x => inr x
    | None => inl IndexError
    end
  else inl IndexError.

(** [range(n)] *)
Definition range (n : Z) : list Z := Z.of_nat <$> seq 0 (Z.to_nat n).

(** [max(l)] and [min(l)]: [ValueError] on an empty sequence. *)
Definition max (l : list Z) : exn + Z :=
  match l with
  | [] => inl ValueError
  | x :: l' => inr (foldl Z.max x l')
  end.

Definition Qcmin (a b : Qc) : Qc := if Qclt_le_dec b a then b else a.

Definition min (l : list Qc) : exn + Qc :=
  match l with
  | [] => inl ValueError
  | x :: l' => inr (foldl Qcmin x l')
  end.

Definition abs (q : Qc) : Qc := if Qclt_le_dec q 0 then (- q)%Qc else q.

(** [sum] over integers and over floats. *)
Definition sum (l : list Z) : Z := foldl Z.add 0 l.
Definition fsum (l : list Qc) : Qc := foldl Qcplus 0%Qc l.

(** Sequencing of calls that may raise and touch no shared object. *)
Definition try {A B} (r : exn + A) (k : A → exn + B) : exn + B :=
  match r with inl e => inl e | inr a => k a end.

(** [[f(x) for x in l]] *)
Fixpoint comprehension {A B} (f : A → exn + B) (l : list A) : exn + list B :=
  match l with
  | [] => inr []
  | x :: l' =>
      try (f x) (λ y, try (comprehension f l') (λ ys, inr (y :: ys)))
  end.

(** [enumerate(l)] *)
Definition enumerate {A} (l : list A) : list (nat * A) := imap pair l.

(** ** A state and error monad

    [Return a s]: the call returned [a] and left the objects in state [s];
    [Raise e s]: it raised [e] when the objects were in state [s]. *)
Inductive outcome (S A : Type) : Type :=
  | Return (a : A) (s : S)
  | Raise (e : exn) (s : S).
Arguments Return {S A} a s.
Arguments Raise {S A} e s.

Definition M (S A : Type) : Type := S → outcome S A.

Definition ret {S A} (a : A) : M S A := λ s, Return a s.
Definition bind {S A B} (m : M S A) (k : A → M S B) : M S B :=
  λ s, match m s with
       | Return a s' => k a s'
       | Raise e s' => Raise e s'
       end.
Definition raise {S A} (e : exn) : M S A := λ s, Raise e s.
Definition get {S} : M S S := λ s, Return s s.
Definition modify {S} (f : S → S) : M S unit := λ s, Return tt (f s).
Definition lift {S A} (r : exn + A) : M S A :=
  match r with inl e => raise e | inr a => ret a end.

(** [for x in l: acc = body(acc, x)] *)
Fixpoint for_each {S A B} (l : list A) (body : B → A → M S B) (acc : B) : M S B :=
  match l with
  | [] => ret acc
  | x :: l' => bind (body acc x) (for_each l' body)
  end.

End Py.

Notation "'let!' x ':=' m 'in' k" := (Py.bind m (λ x, k))
  (at level 10, x pattern, m at level 100, k at level 200, only parsing).
Notation "'try!' x ':=' r 'in' k" := (Py.try r (λ x, k))
  (at level 10, x pattern, r at level 100, k at level 200, only parsing).
Notation "'do!' m 'in' k" := (Py.bind m (λ _, k))
  (at level 10, m at level 100, k at level 200, only parsing).

(** ** CoordAnalysis/Regex_Grouping.py *)

Module RegexGrouping.
Import Py.

(** A row of the returned table.  Its first column is [traj_id] or the
    literal ["MEAN"] or ["STDERR"]; the other columns are floats.
    [scipy.stats.sem] is not evaluated (it takes a square root): each
    column of the ["STDERR"] row is given by the sample it is the
    standard error of. *)
Inductive row : Type :=
  | TrajRow (traj_id : Qc) (cols : list Qc)
  | MeanRow (cols : list Qc)
  | StderrRow (samples : list (list Qc)).

(** The objects the two functions build and mutate.  [count_totals] is
    the [defaultdict(lambda: defaultdict(int))]: trajectory number, then
    occupancy id, then count; the inner dictionaries are reached through
    it, so a write to an inner dictionary is a write to this store. *)
Record objects : Type := Objects {
  count_totals : gmap Qc (gmap Z Z);
  traj_total_percent : list row;
  traj_occ_averages : gmap Z (list Qc)
}.

Definition new_objects (cts : gmap Qc (gmap Z Z)) : objects :=
  Objects cts [] ∅.

Definition set_count_totals (f : gmap Qc (gmap Z Z) → gmap Qc (gmap Z Z))
    (s : objects) : objects :=
  Objects (f (count_totals s)) (traj_total_percent s) (traj_occ_averages s).

(** [count_totals[traj_id][regex_state] += 1]: both levels are
    defaultdicts, a missing trajectory gets a new inner dictionary and a
    missing state starts from [int() = 0]. *)
Definition increment (traj_id : Qc) (regex_state : Z)
    (cts : gmap Qc (gmap Z Z)) : gmap Qc (gmap Z Z) :=
  let count_dict := default ∅ (cts !! traj_id) in
  let n := default 0 (count_dict !! regex_state) in
  <[traj_id := <[regex_state := n + 1]> count_dict]> cts.

(** [count_dict[traj_index]] where [count_dict] is the inner defaultdict
    of [traj_id]: a missing key is inserted with value 0 and 0 is
    returned. *)
Definition count_dict_getitem (traj_id : Qc) (traj_index : Z) : M objects Z :=
  λ s,
    let count_dict := default ∅ (count_totals s !! traj_id) in
    match count_dict !! traj_index with
    | Some v => Return v s
    | None =>
        Return 0 (set_count_totals (insert traj_id (<[traj_index := 0]> count_dict)) s)
    end.

(** [traj_occ_averages[i].append(x)] on a [defaultdict(list)]. *)
Definition averages_append (i : Z) (x : Qc) (s : objects) : objects :=
  Objects (count_totals s) (traj_total_percent s)
    (<[i := default [] (traj_occ_averages s !! i) ++ [x]]> (traj_occ_averages s)).

(** [traj_total_percent.append(r)] *)
Definition rows_append (r : row) (s : objects) : objects :=
  Objects (count_totals s) (traj_total_percent s ++ [r]) (traj_occ_averages s).

(** [c / traj_total_lines] with a float divisor. *)
Definition truediv (c : Z) (d : Qc) : exn + Qc :=
  if bool_decide (d = 0%Qc) then inl ZeroDivisionError
  else inr (of_int c / d)%Qc.

(** The keys of all inner dictionaries:
    [[traj for count_dict in count_totals.values() for traj in count_dict]] *)
Definition all_state_ids (cts : gmap Qc (gmap Z Z)) : list Z :=
  count_dict ← (map_to_list cts).*2; (map_to_list count_dict).*1.

(** [numpy.mean] of a list of floats. *)
Definition mean (l : list Qc) : Qc := (fsum l / of_int (Z.of_nat (length l)))%Qc.

(** Lines 77-78: [if not num_ions_map: num_ions_map = range(max_ions+1)].
    The empty list is the default value of the argument. *)
Definition default_num_ions_map (max_ions : Z) (num_ions_map : list Z) : list Z :=
  match num_ions_map with
  | [] => range (max_ions + 1)
  | _ => num_ions_map
  end.

(** Lines 97-99: one pass of the loop over the occupancy ids.  The
    numeric columns of [temp_line] are kept apart from its first entry
    [traj_id], so [temp_line] here is the source's [temp_line[1:]]. *)
Definition percent_step (traj_id : Qc) (traj_total_lines : Qc)
    (temp_line : list Qc) (traj_index : Z) : M objects (list Qc) :=
  let! c := count_dict_getitem traj_id traj_index in
  let! temp_percent := lift (truediv c traj_total_lines) in
  do! modify (averages_append traj_index temp_percent) in
  ret (temp_line ++ [temp_percent]).

(** Lines 103-105: the weighted average of a row. *)
Definition weighted_average (temp_line : list Qc) (num_ions_map : list Z) : Qc :=
  foldl (λ temp_average '(occupancy, ion_count),
           temp_average + occupancy * of_int ion_count)%Qc
        0%Qc (zip temp_line num_ions_map).

(** Lines 92-112: the body of the loop over the trajectories. *)
Definition traj_row (max_ions : Z) (num_ions_map : list Z) (traj_id : Qc)
    : M objects unit :=
  let! s := get in
  let count_dict := default ∅ (count_totals s !! traj_id) in
  let traj_total_lines := of_int (sum (map_to_list count_dict).*2) in
  let! temp_line :=
    for_each (range (max_ions + 1)) (percent_step traj_id traj_total_lines) [] in
  let temp_average := weighted_average temp_line num_ions_map in
  do! modify (rows_append (TrajRow traj_id (temp_line ++ [temp_average]))) in
  modify (averages_append (max_ions + 1) temp_average).

Definition count_totals_to_percents_body (num_ions_map : list Z)
    : M objects (list row) :=
  let! s0 := get in
  let! max_ions := lift (max (all_state_ids (count_totals s0))) in
  let num_ions_map := default_num_ions_map max_ions num_ions_map in
  if negb (Z.of_nat (length num_ions_map) =? max_ions + 1)
  then raise AssertionError
  else
    do! for_each (map_to_list (count_totals s0))
          (λ _ '(traj_id, _), traj_row max_ions num_ions_map traj_id) tt in
    let! s1 := get in
    let column i := default [] (traj_occ_averages s1 !! i) in
    let mean_occupancy := (λ i, mean (column i)) <$> range (max_ions + 2) in
    let stderr_occupancy := column <$> range (max_ions + 2) in
    do! modify (rows_append (MeanRow mean_occupancy)) in
    do! modify (rows_append (StderrRow stderr_occupancy)) in
    let! s2 := get in
    ret (traj_total_percent s2).

Definition count_totals_to_percents (cts : gmap Qc (gmap Z Z))
    (num_ions_map : list Z) : outcome objects (list row) :=
  count_totals_to_percents_body num_ions_map (new_objects cts).

(** Lines 56-57: one pass of the counting loop. *)
Definition count_step (traj_col : Z) (_ : unit) (pair : list Qc * Z)
    : M objects unit :=
  let '(line, regex_state) := pair in
  let! traj_id := lift (getitem line traj_col) in
  modify (set_count_totals (increment traj_id regex_state)).

(** Lines 50-57 of [regex_counter]: the counting loop. *)
Definition count_loop (data_floats : list (list Qc))
    (data_regex : list (string * Z)) (traj_col : Z) : M objects unit :=
  let data_regex_ids := snd <$> data_regex in
  for_each (zip data_floats data_regex_ids) (count_step traj_col) tt.

Definition regex_counter (data_floats : list (list Qc))
    (data_regex : list (string * Z)) (traj_col : Z) (num_ions_map : list Z)
    : outcome objects (list row) :=
  (do! count_loop data_floats data_regex traj_col in
   count_totals_to_percents_body num_ions_map) (new_objects ∅).

(** *** Quantities the statements about the aggregation are phrased in *)

(** The count of [traj_index] in a count dictionary, an absent id
    counting as zero. *)
Definition count_of (count_dict : gmap Z Z) (traj_index : Z) : Z :=
  default 0 (count_dict !! traj_index).

(** [sum(count_dict.values())] *)
Definition total (count_dict : gmap Z Z) : Z :=
  sum (map_to_list count_dict).*2.

(** The sum of all counts of a count table. *)
Definition grand_total (cts : gmap Qc (gmap Z Z)) : Z :=
  sum (total <$> (map_to_list cts).*2).

(** The weight of state [i]: the entry of the supplied map or, when the
    map is the default [[]], the state id itself. *)
Definition weight_at (num_ions_map : list Z) (i : Z) : Z :=
  match num_ions_map with
  | [] => i
  | _ => default 0 (num_ions_map !! Z.to_nat i)
  end.

(** Count tables used as examples: trajectory 1 with two observations of
    state 0 and one of state 1, and trajectory 2 with one of state 1; a
    table with the state id -1; a table whose only state id is 1. *)
Definition table_two_runs : gmap Qc (gmap Z Z) :=
  {[ of_int 1 := {[ 0 := 2; 1 := 1 ]}; of_int 2 := {[ 1 := 1 ]} ]}.

Definition table_negative_id : gmap Qc (gmap Z Z) :=
  {[ of_int 1 := {[ -1 := 1; 0 := 1 ]} ]}.

Definition table_state_one : gmap Qc (gmap Z Z) :=
  {[ of_int 1 := {[ 1 := 1 ]} ]}.

(** Observation rows used as examples, with the trajectory number in
    column 2, and classification pairs for the first three of them. *)
Definition rows_four : list (list Qc) :=
  [ of_int <$> [0; 5; 1]; of_int <$> [1; 5; 1];
    of_int <$> [2; 9; 1]; of_int <$> [3; 9; 2] ].

Definition pairs_three : list (string * Z) :=
  [ ("++0100", 0); ("++0100", 0); ("101010", 1) ]%string.

(** Classification pairs for all four rows: trajectories 1 and 2. *)
Definition pairs_four : list (string * Z) :=
  [ ("++0100", 0); ("++0100", 0); ("101010", 1); ("101010", 1) ]%string.

(** Every dictionary of the table has an entry, and every count is at
    least 1. *)
Definition counted (cts : gmap Qc (gmap Z Z)) : Prop :=
  ∀ t d, cts !! t = Some d → d ≠ ∅ ∧ ∀ k v, d !! k = Some v → 1 ≤ v.

(** The inner dictionary after the reads [count_dict[i]], [i] in [idxs]:
    every id read and absent before is present with count 0. *)
Definition zero_filled (idxs : list Z) (count_dict : gmap Z Z) : gmap Z Z :=
  foldl (λ d i, match d !! i with Some _ => d | None => <[i := 0]> d end)
        count_dict idxs.

(** The percentages of a trajectory and its row. *)
Definition percents_of (max_ions : Z) (count_dict : gmap Z Z) : list Qc :=
  (λ i, of_int (count_of count_dict i) / of_int (total count_dict))%Qc
    <$> range (max_ions + 1).

Definition row_of (max_ions : Z) (num_ions_map : list Z)
    (item : Qc * gmap Z Z) : row :=
  TrajRow item.1
    (percents_of max_ions item.2
       ++ [weighted_average (percents_of max_ions item.2) num_ions_map]).

(** A trajectory whose percentages can be computed: its total is not
    zero, or there is no occupancy id to compute a percentage for. *)
Definition divisible (max_ions : Z) (item : Qc * gmap Z Z) : Prop :=
  total item.2 ≠ 0 ∨ max_ions + 1 ≤ 0.

Global Instance divisible_dec (max_ions : Z) (item : Qc * gmap Z Z) :
  Decision (divisible max_ions item).
Proof. unfold divisible. apply _. Defined.

(** *** Quantities the statements about the counting are phrased in *)

(** The entry of trajectory [t] and state [k] of a count table. *)
Definition count_at (cts : gmap Qc (gmap Z Z)) (t : Qc) (k : Z) : option Z :=
  cts !! t ≫= (.!! k).

(** The total count of trajectory [t], 0 for a trajectory not in the
    table. *)
Definition total_at (cts : gmap Qc (gmap Z Z)) (t : Qc) : Z :=
  total (default ∅ (cts !! t)).

(** The pairs (row, state id) that the loop of line 55 iterates over. *)
Definition paired (data_floats : list (list Qc)) (data_regex : list (string * Z))
    : list (list Qc * Z) :=
  zip data_floats data_regex.*2.

(** The number of pairs of trajectory [t], and of trajectory [t] and
    state [k]. *)
Definition observations_of (traj_col : Z) (t : Qc) (pairs : list (list Qc * Z)) : Z :=
  Z.of_nat (length (filter (λ p : list Qc * Z, getitem p.1 traj_col = inr t) pairs)).

Definition observations (traj_col : Z) (t : Qc) (k : Z)
    (pairs : list (list Qc * Z)) : Z :=
  Z.of_nat (length (filter (λ p : list Qc * Z,
                              getitem p.1 traj_col = inr t ∧ p.2 = k) pairs)).

(** Column [i] of the trajectory rows of a table (the first column, the
    trajectory number, not counted). *)
Definition column_of (i : nat) (rows : list row) : list Qc :=
  rows ≫= (λ r, match r with
                | TrajRow _ cols => [default 0%Qc (cols !! i)]
                | _ => []
                end).

Definition is_traj_row (r : row) : bool :=
  match r with TrajRow _ _ => true | _ => false end.

Definition traj_rows_of (rows : list row) : list row :=
  filter (λ r, is_traj_row r = true) rows.

(** [traj_occ_averages] after the appends [traj_occ_averages[i].append(x)]
    for the pairs [(i, x)] of [entries], in order. *)
Definition appended (averages : gmap Z (list Qc)) (entries : list (Z * Qc))
    : gmap Z (list Qc) :=
  foldl (λ av '(i, x), <[i := default [] (av !! i) ++ [x]]> av) averages entries.

End RegexGrouping.

(** ** numpy: [linspace], [histogram], [histogram2d]

    The two histogram functions of numpy that the source calls, in the
    form the source calls them: a scalar number of bins and an explicit
    range, so the bins have equal width.  As numpy documents, every bin
    is half-open except the last one, which also contains its right
    edge.  The counts are computed as numpy does, from the cumulative
    counts at the edges. *)

Module Numpy.
Import Py.

(** [linspace(mn, mx, bins + 1)]: the [bins + 1] edges. *)
Definition linspace (mn mx : Qc) (bins : Z) : list Qc :=
  (λ i, mn + of_int i * ((mx - mn) / of_int bins))%Qc <$> range (bins + 1).

Definition count_lt (e : Qc) (a : list Qc) : Z :=
  Z.of_nat (length (filter (λ x, x < e)%Qc a)).

Definition count_le (e : Qc) (a : list Qc) : Z :=
  Z.of_nat (length (filter (λ x, x ≤ e)%Qc a)).

(** [diff(c)]: [c[i+1] - c[i]] *)
Definition diff (c : list Z) : list Z := zip_with Z.sub (tail c) c.

(** The range actually binned: an inverted range is refused and an empty
    one is widened by one half on each side. *)
Definition bin_range (mn mx : Qc) : exn + (Qc * Qc) :=
  if bool_decide (mx < mn)%Qc then inl ValueError
  else if bool_decide (mn = mx) then inr (mn - Q2Qc (1 # 2), mx + Q2Qc (1 # 2))%Qc
  else inr (mn, mx).

(** [histogram(a, range=[mn, mx], bins=bins, normed=False)] *)
Definition histogram (a : list Qc) (mn mx : Qc) (bins : Z)
    : exn + (list Z * list Qc) :=
  if bins <? 1 then inl ValueError
  else
    try! r := bin_range mn mx in
    let '(mn, mx) := r in
    let edges := linspace mn mx bins in
    let cum :=
      ((λ e, count_lt e a) <$> take (Z.to_nat bins) edges)
        ++ [count_le mx a] in
    inr (diff cum, edges).

(** Whether [v] falls in bin [i] of [bins] bins with the given edges. *)
Definition in_bin (edges : list Qc) (bins : Z) (i : nat) (v : Qc) : bool :=
  match edges !! i, edges !! S i with
  | Some lo, Some hi =>
      bool_decide (lo ≤ v)%Qc &&
      (bool_decide (v < hi)%Qc ||
       (bool_decide (Z.of_nat (S i) = bins) && bool_decide (v = hi)))
  | _, _ => false
  end.

Definition width (edges : list Qc) (i : nat) : Qc :=
  (default 0 (edges !! S i) - default 0 (edges !! i))%Qc.

(** The result of a normed [histogram2d]: a grid of densities, or a grid
    of [nan] (0/0 in every cell) when no sample falls in the range. *)
Inductive density : Type :=
  | Grid (histo : list (list Qc))
  | AllNan.

(** [histogram2d(x, y, range=[[mn, mx], [mn, mx]], bins=[bins, bins],
    normed=True)]: the count of each cell divided by the cell's area and
    by the number of samples in the range. *)
Definition histogram2d (x y : list Qc) (mn mx : Qc) (bins : Z)
    : exn + (density * list Qc * list Qc) :=
  if negb (length x =? length y)%nat then inl ValueError
  else if bins <? 1 then inl ValueError
  else
    try! r := bin_range mn mx in
    let '(mn, mx) := r in
    let edges := linspace mn mx bins in
    let idx := seq 0 (Z.to_nat bins) in
    let count i j :=
      Z.of_nat (length (filter (λ '(u, v),
        in_bin edges bins i u && in_bin edges bins j v) (zip x y))) in
    let counts := (λ i, (λ j, count i j) <$> idx) <$> idx in
    let s := sum (concat counts) in
    if s =? 0 then inr (AllNan, edges, edges)
    else
      let histo :=
        (λ i, (λ j, of_int (count i j) / width edges i / width edges j
                    / of_int s)%Qc <$> idx) <$> idx in
      inr (Grid histo, edges, edges).

End Numpy.

(** ** ChannelAnalysis/RotamerAnalysis/Histograms.py *)

Module Histograms.
Import Py Numpy.

(** *** compute_dihedral_timeseries *)

(** The two [defaultdict(dict)] objects: trajectory number, then the
    index of the column in [dihedral_cols], then the list of values. *)
Record series : Type := Series {
  dihedral_per_traj : gmap Qc (gmap nat (list Qc));
  time_per_traj : gmap Qc (gmap nat (list Qc))
}.

(** [d[traj_id]] on a [defaultdict(dict)]: a missing key is inserted
    with a new empty dictionary. *)
Definition dd_read (traj_id : Qc) (d : gmap Qc (gmap nat (list Qc)))
    : gmap Qc (gmap nat (list Qc)) :=
  match d !! traj_id with
  | Some _ => d
  | None => <[traj_id := ∅]> d
  end.

(** [d[traj_id][res_id] = l] *)
Definition dd_store (traj_id : Qc) (res_id : nat) (l : list Qc)
    (d : gmap Qc (gmap nat (list Qc))) : gmap Qc (gmap nat (list Qc)) :=
  <[traj_id := <[res_id := l]> (default ∅ (d !! traj_id))]> d.

Definition on_dihedral (f : gmap Qc (gmap nat (list Qc)) → gmap Qc (gmap nat (list Qc)))
    (s : series) : series :=
  Series (f (dihedral_per_traj s)) (time_per_traj s).

Definition on_time (f : gmap Qc (gmap nat (list Qc)) → gmap Qc (gmap nat (list Qc)))
    (s : series) : series :=
  Series (dihedral_per_traj s) (f (time_per_traj s)).

(** Lines 44-49, for one row and one column. *)
Definition record_value (line : list Qc) (traj_id : Qc) (res_id : nat) (col : Z)
    : M series unit :=
  do! modify (on_dihedral (dd_read traj_id)) in
  let! s := get in
  match default ∅ (dihedral_per_traj s !! traj_id) !! res_id with
  | None =>
      let! v := lift (getitem line col) in
      do! modify (on_dihedral (dd_store traj_id res_id [v])) in
      let! t := lift (getitem line 0) in
      modify (on_time (dd_store traj_id res_id [t]))
  | Some vals =>
      let! v := lift (getitem line col) in
      do! modify (on_dihedral (dd_store traj_id res_id (vals ++ [v]))) in
      do! modify (on_time (dd_read traj_id)) in
      let! s' := get in
      match default ∅ (time_per_traj s' !! traj_id) !! res_id with
      | None => raise KeyError
      | Some times =>
          let! t := lift (getitem line 0) in
          modify (on_time (dd_store traj_id res_id (times ++ [t])))
      end
  end.

Definition compute_dihedral_timeseries (data_lines : list (list Qc))
    (dihedral_cols : list Z) (traj_col : Z)
    : outcome series (gmap Qc (gmap nat (list Qc)) * gmap Qc (gmap nat (list Qc))) :=
  (do! for_each data_lines (λ _ line,
         let! traj_id := lift (getitem line traj_col) in
         for_each (enumerate dihedral_cols) (λ _ '(res_id, col),
           record_value line traj_id res_id col) tt) tt in
   let! s := get in
   ret (dihedral_per_traj s, time_per_traj s)) (Series ∅ ∅).

(** The rows of trajectory [t], in the order of the input, and the
    entry of a series in a returned map. *)
Definition rows_of_traj (traj_col : Z) (t : Qc) (data_lines : list (list Qc))
    : list (list Qc) :=
  filter (λ line, getitem line traj_col = inr t) data_lines.

Definition series_at (m : gmap Qc (gmap nat (list Qc))) (t : Qc) (res_id : nat)
    : option (list Qc) :=
  m !! t ≫= (.!! res_id).

(** [line[col]] where the index is known to be in range. *)
Definition item (col : Z) (line : list Qc) : Qc :=
  match getitem line col with inr x => x | inl _ => 0%Qc end.

(** What the maps hold for trajectory [t] and series [res_id] once the
    rows [rows] are read: nothing when the series or the trajectory has
    not occurred, else the values of column [pick col] of the rows of
    the trajectory ([pick] is the identity for the dihedral map and the
    constant 0 for the time map). *)
Definition expected_at (pick : Z → Z) (dihedral_cols : list Z) (traj_col : Z)
    (rows : list (list Qc)) (t : Qc) (res_id : nat) : option (list Qc) :=
  match dihedral_cols !! res_id with
  | Some col =>
      match rows_of_traj traj_col t rows with
      | [] => None
      | rs => Some (item (pick col) <$> rs)
      end
  | None => None
  end.

(** The state of the two maps once the rows [rows] are read. *)
Definition series_read (dihedral_cols : list Z) (traj_col : Z)
    (rows : list (list Qc)) (st : series) : Prop :=
  (∀ t j, series_at (dihedral_per_traj st) t j
          = expected_at id dihedral_cols traj_col rows t j)
  ∧ (∀ t j, series_at (time_per_traj st) t j
            = expected_at (λ _, 0) dihedral_cols traj_col rows t j)
  ∧ (∀ t, rows_of_traj traj_col t rows = [] →
          dihedral_per_traj st !! t = None ∧ time_per_traj st !! t = None).

(** The state once the rows [rows] are read and the first [n] columns of
    the next row [line], of trajectory [t], as well. *)
Definition series_read_partly (dihedral_cols : list Z) (traj_col : Z)
    (rows : list (list Qc)) (line : list Qc) (t : Qc) (n : nat) (st : series)
    : Prop :=
  (∀ t' j, series_at (dihedral_per_traj st) t' j
           = if decide (t' = t ∧ (j < n)%nat)
             then expected_at id dihedral_cols traj_col (rows ++ [line]) t j
             else expected_at id dihedral_cols traj_col rows t' j)
  ∧ (∀ t' j, series_at (time_per_traj st) t' j
             = if decide (t' = t ∧ (j < n)%nat)
               then expected_at (λ _, 0) dihedral_cols traj_col (rows ++ [line]) t j
               else expected_at (λ _, 0) dihedral_cols traj_col rows t' j)
  ∧ (∀ t', t' ≠ t → rows_of_traj traj_col t' rows = [] →
           dihedral_per_traj st !! t' = None ∧ time_per_traj st !! t' = None).

(** The two maps hold the same series: every list of dihedral values
    has its list of times. *)
Definition in_step (st : series) : Prop :=
  ∀ t j, is_Some (series_at (dihedral_per_traj st) t j)
         ↔ is_Some (series_at (time_per_traj st) t j).

(** A row that [compute_dihedral_timeseries] can read. *)
Definition readable (dihedral_cols : list Z) (traj_col : Z) (line : list Qc) : Prop :=
  (∃ t, getitem line traj_col = inr t)
  ∧ Forall (λ col, ∃ x, getitem line col = inr x) dihedral_cols.

(** A row that has every column of [cols]. *)
Definition has_columns (cols : list Z) (line : list Qc) : Prop :=
  Forall (λ col, ∃ x, getitem line col = inr x) cols.

(** *** compute_rotamer_histogram *)

(** Lines 59-61: the values of the requested columns of every row, in
    one list. *)
Definition pooled (data_lines : list (list Qc)) (cols : list Z) : exn + list Qc :=
  try! chunks := comprehension (λ line, comprehension (getitem line) cols) data_lines in
  inr (concat chunks).

Definition compute_rotamer_histogram (data_lines : list (list Qc))
    (dihedral_cols : list Z) (histmin histmax : Qc) (histbins : Z)
    : exn + (list Z * list Qc) :=
  try! dihedral_vals := pooled data_lines dihedral_cols in
  histogram dihedral_vals histmin histmax histbins.

(** *** compute_rotamer_rotamer_histogram *)

(** A boolean index array of the shape of the histogram. *)
Definition low_val_indices (histo : list (list Qc)) : list (list bool) :=
  (λ r : list Qc, (λ p, bool_decide (p ≤ 0)%Qc) <$> r) <$> histo.

Definition high_val_indices (histo : list (list Qc)) : list (list bool) :=
  (λ r : list Qc, (λ p, bool_decide (0 < p)%Qc) <$> r) <$> histo.

(** [histo[mask] = f(histo[mask])], element by element. *)
Definition mask_update (mask : list (list bool)) (f : Qc → Qc)
    (histo : list (list Qc)) : list (list Qc) :=
  zip_with (zip_with (λ (b : bool) v, if b then f v else v)) mask histo.

(** [histo[mask]]: the selected cells, in row-major order. *)
Definition mask_select (mask : list (list bool)) (histo : list (list Qc))
    : list Qc :=
  concat (zip_with (λ bs vs, (zip bs vs) ≫= (λ '(b, v), if b : bool then [v] else []))
                   mask histo).

(** The cell [histo[i][j]] of a grid. *)
Definition cell {A} (histo : list (list A)) (i j : nat) : option A :=
  histo !! i ≫= (.!! j).

(** A function applied to every cell of a grid. *)
Definition map2 {A B} (f : A → B) (histo : list (list A)) : list (list B) :=
  (λ r : list A, f <$> r) <$> histo.

(** The cells of a grid that are not zero, in row-major order. *)
Definition nonzero_cells (histo : list (list Qc)) : list Qc :=
  filter (λ p, p ≠ 0%Qc) (concat histo).

Section FreeEnergy.

(** [numpy.log] *)
Variable log : Qc → Qc.

(** Lines 93-101. *)
Definition energy_surface (kBT max_eng : Qc) (histo : list (list Qc))
    : exn + list (list Qc) :=
  let low := low_val_indices histo in
  let high := high_val_indices histo in
  let histo := mask_update low (λ _, max_eng) histo in
  let histo := mask_update high (λ p, - kBT * log p)%Qc histo in
  try! min_val := min (mask_select high histo) in
  let histo := mask_update high (λ e, e - abs min_val)%Qc histo in
  inr histo.

(** On a grid of [nan] neither mask selects a cell ([nan <= 0] and
    [nan > 0] are both false), so [min] of line 100 is taken of an empty
    selection and raises [ValueError]. *)
Definition compute_rotamer_rotamer_histogram (data_lines : list (list Qc))
    (chi1_cols chi2_cols : list Z) (kBT max_eng histmin histmax : Qc)
    (histbins : Z) : exn + (list (list Qc) * list Qc * list Qc) :=
  try! vals := comprehension (λ line,
      try! xs := comprehension (getitem line) chi1_cols in
      try! ys := comprehension (getitem line) chi2_cols in
      inr (xs, ys)) data_lines in
  let dihedral_vals_x := concat vals.*1 in
  let dihedral_vals_y := concat vals.*2 in
  try! h :=
    histogram2d dihedral_vals_x dihedral_vals_y histmin histmax histbins in
  let '(d, xedges, yedges) := h in
  match d with
  | AllNan => inl ValueError
  | Grid histo =>
      try! histo := energy_surface kBT max_eng histo in
      inr (histo, xedges, yedges)
  end.

End FreeEnergy.

(** *** The files written when a prefix is given

    A file is the name it is opened under and the strings written to it,
    in order, one per call of [write].  The conversions [str] of a numpy
    float, of a numpy integer and of a row of an array are parameters
    (the text of a row may itself hold newlines); opening the file is
    taken to succeed. *)
Record file : Type := File {
  file_name : string;
  file_writes : list string
}.

Definition newline : string := String (Ascii.ascii_of_nat 10) EmptyString.

Section Output.

Variable log : Qc → Qc.
Variable str_float : Qc → string.
Variable str_int : Z → string.
Variable str_row : list Qc → string.

(** Lines 66-69. *)
Definition write_dihedrals (prefix : string) (histo : list Z) (edges : list Qc)
    : file :=
  File (prefix +:+ "_dihedrals")
       ((λ '(xval, yval), str_float xval +:+ " " +:+ str_int yval +:+ newline)
          <$> zip edges histo).

(** [compute_rotamer_histogram] with its argument [prefix]: the result
    and the file written, if any. *)
Definition compute_rotamer_histogram_prefix (prefix : option string)
    (data_lines : list (list Qc)) (dihedral_cols : list Z)
    (histmin histmax : Qc) (histbins : Z)
    : exn + (list Z * list Qc * option file) :=
  try! r := compute_rotamer_histogram data_lines dihedral_cols
              histmin histmax histbins in
  let '(histo, edges) := r in
  inr (histo, edges,
       match prefix with
       | Some p => Some (write_dihedrals p histo edges)
       | None => None
       end).

(** Lines 103-107. *)
Definition write_rotamer (prefix : string) (histo : list (list Qc))
    (xedges yedges : list Qc) : file :=
  File (prefix +:+ "_rotamer")
       ((λ '(xval, yval, zval),
           str_float xval +:+ " " +:+ str_float yval +:+ " "
             +:+ str_row zval +:+ newline)
          <$> zip (zip xedges yedges) histo).

(** [compute_rotamer_rotamer_histogram] with its argument [prefix]. *)
Definition compute_rotamer_rotamer_histogram_prefix (prefix : option string)
    (data_lines : list (list Qc)) (chi1_cols chi2_cols : list Z)
    (kBT max_eng histmin histmax : Qc) (histbins : Z)
    : exn + (list (list Qc) * list Qc * list Qc * option file) :=
  try! r := compute_rotamer_rotamer_histogram log data_lines chi1_cols chi2_cols
              kBT max_eng histmin histmax histbins in
  let '(histo, xedges, yedges) := r in
  inr (histo, xedges, yedges,
       match prefix with
       | Some p => Some (write_rotamer p histo xedges yedges)
       | None => None
       end).

End Output.

(** Rows of angles used as examples, and a rational stand-in for
    [numpy.log] where a closed example needs one: [2(p-1)/(p+1)], the
    first term of the series of the logarithm. *)
Definition rows_angles : list (list Qc) :=
  [ of_int <$> [1; 1; 7]; of_int <$> [1; 3; 7]; of_int <$> [3; 4; 7];
    of_int <$> [3; 3; 8]; of_int <$> [7; 9; 8] ].

Definition log_approx (p : Qc) : Qc := (2 * (p - 1) / (p + 1))%Qc.

End Histograms.

(** * Properties *)

(** ** Sums, ranges and the conversion of integers *)

Module PyFacts.
Import Py.

Lemma foldl_add_acc (a : Z) (l : list Z) :
  foldl Z.add a l = a + foldl Z.add 0 l.
Proof.
  revert a. induction l as [|x l IH]; intros a; simpl; [lia|].
  rewrite (IH (a + x)), (IH (0 + x)). lia.
Qed.

Lemma sum_nil : sum [] = 0.
Proof. reflexivity. Qed.

Lemma sum_cons (x : Z) (l : list Z) : sum (x :: l) = x + sum l.
Proof. unfold sum. simpl. rewrite foldl_add_acc. lia. Qed.

Lemma sum_app (l1 l2 : list Z) : sum (l1 ++ l2) = sum l1 + sum l2.
Proof.
  induction l1 as [|x l1 IH]; simpl; [rewrite sum_nil; lia|].
  rewrite !sum_cons, IH. lia.
Qed.

Global Instance sum_Permutation : Proper ((≡ₚ) ==> (=)) sum.
Proof.
  intros l1 l2 HP. induction HP; rewrite ?sum_cons; try lia; congruence.
Qed.

Lemma foldl_plus_acc (a : Qc) (l : list Qc) :
  foldl Qcplus a l = (a + foldl Qcplus 0 l)%Qc.
Proof.
  revert a. induction l as [|x l IH]; intros a; simpl; [ring|].
  rewrite (IH (a + x)%Qc), (IH (0 + x)%Qc). ring.
Qed.

Lemma fsum_cons (x : Qc) (l : list Qc) : fsum (x :: l) = (x + fsum l)%Qc.
Proof. unfold fsum. simpl. rewrite foldl_plus_acc. ring. Qed.

Lemma fsum_app (l1 l2 : list Qc) : fsum (l1 ++ l2) = (fsum l1 + fsum l2)%Qc.
Proof.
  induction l1 as [|x l1 IH]; simpl; [unfold fsum at 2; simpl; ring|].
  rewrite !fsum_cons, IH. ring.
Qed.

Lemma of_int_add (a b : Z) : of_int (a + b) = (of_int a + of_int b)%Qc.
Proof.
  unfold of_int. apply Qc_is_canon. simpl.
  rewrite !Qred_correct, inject_Z_plus. reflexivity.
Qed.

Lemma of_int_0 : of_int 0 = 0%Qc.
Proof. reflexivity. Qed.

Lemma of_int_inj (a b : Z) : of_int a = of_int b → a = b.
Proof.
  unfold of_int. intros H. apply (f_equal this) in H. simpl in H.
  assert (Hq : (inject_Z a == inject_Z b)%Q).
  { rewrite <- (Qred_correct (inject_Z a)), <- (Qred_correct (inject_Z b)), H.
    reflexivity. }
  unfold Qeq in Hq. simpl in Hq. lia.
Qed.

Lemma of_int_sum (l : list Z) : of_int (sum l) = fsum (of_int <$> l).
Proof.
  induction l as [|x l IH]; [reflexivity|].
  rewrite fmap_cons, sum_cons, fsum_cons, of_int_add, IH. reflexivity.
Qed.

Lemma range_nonpos (n : Z) : n ≤ 0 → range n = [].
Proof. intros H. unfold range. replace (Z.to_nat n) with 0%nat by lia. done. Qed.

Lemma length_range (n : Z) : length (range n) = Z.to_nat n.
Proof. unfold range. by rewrite length_fmap, length_seq. Qed.

Lemma elem_of_range (n i : Z) : i ∈ range n ↔ 0 ≤ i < n.
Proof.
  unfold range. rewrite list_elem_of_fmap. split.
  - intros (k & -> & Hk). apply elem_of_seq in Hk. lia.
  - intros Hi. exists (Z.to_nat i). split; [lia|]. apply elem_of_seq. lia.
Qed.

Lemma NoDup_range (n : Z) : NoDup (range n).
Proof.
  unfold range. apply NoDup_fmap_2; [|apply NoDup_seq].
  intros a b. lia.
Qed.

Lemma lookup_range (n : Z) (i : nat) :
  (i < Z.to_nat n)%nat → range n !! i = Some (Z.of_nat i).
Proof.
  intros H. unfold range. rewrite list_lookup_fmap, lookup_seq_lt by done. done.
Qed.

Lemma foldl_max_acc (l : list Z) (a : Z) : a ≤ foldl Z.max a l.
Proof.
  revert a. induction l as [|y l IH]; intros a; simpl; [lia|].
  specialize (IH (a `max` y)). lia.
Qed.

Lemma foldl_max_ge (l : list Z) (a k : Z) :
  k = a ∨ k ∈ l → k ≤ foldl Z.max a l.
Proof.
  revert a. induction l as [|y l IH]; intros a [Hk|Hk]; simpl.
  - lia.
  - by apply elem_of_nil in Hk.
  - pose proof (foldl_max_acc l (a `max` y)). lia.
  - apply elem_of_cons in Hk as [Hk|Hk].
    + pose proof (foldl_max_acc l (a `max` y)). lia.
    + apply IH. by right.
Qed.

Lemma max_ge (l : list Z) (m k : Z) : max l = inr m → k ∈ l → k ≤ m.
Proof.
  destruct l as [|x l]; [done|]. simpl. intros [= <-] Hk.
  apply foldl_max_ge. apply elem_of_cons in Hk. tauto.
Qed.

Lemma elem_of_concat {A} (x : A) (ls : list (list A)) :
  x ∈ concat ls ↔ ∃ l, x ∈ l ∧ l ∈ ls.
Proof.
  induction ls as [|l0 ls IH]; simpl.
  - split; [by intros ?%elem_of_nil|]. by intros (l & _ & ?%elem_of_nil).
  - rewrite elem_of_app, IH. split.
    + intros [Hx|(l & Hx & Hl)]; [exists l0|exists l]; split; try done;
        [by left|by right].
    + intros (l & Hx & [->|Hl]%elem_of_cons); [by left|right; by exists l].
Qed.

End PyFacts.

(** ** The aggregation of a count table *)

Module RegexFacts.
Import Py PyFacts RegexGrouping.

Lemma decide_elem_of_cons_ne {A} (k i : Z) (idxs : list Z) (x y : A) :
  k ≠ i →
  (if decide (k ∈ idxs) then x else y) = (if decide (k ∈ i :: idxs) then x else y).
Proof.
  intros Hne. destruct (decide (k ∈ idxs)) as [Hin|Hin].
  - rewrite decide_True; [done|]. by right.
  - rewrite decide_False; [done|]. rewrite elem_of_cons. by intros [?|?].
Qed.

Lemma lookup_zero_filled (idxs : list Z) (d : gmap Z Z) (k : Z) :
  zero_filled idxs d !! k =
  match d !! k with
  | Some v => Some v
  | None => if decide (k ∈ idxs) then Some 0 else None
  end.
Proof.
  unfold zero_filled. revert d.
  induction idxs as [|i idxs IH]; intros d.
  - simpl. by destruct (d !! k).
  - cbn [foldl]. rewrite IH. destruct (d !! i) as [v|] eqn:Hi.
    + destruct (d !! k) as [w|] eqn:Hk; [done|].
      assert (k ≠ i) by congruence. by apply decide_elem_of_cons_ne.
    + destruct (decide (k = i)) as [->|Hne].
      * rewrite lookup_insert_eq, Hi. rewrite decide_True; [done|]. by left.
      * rewrite lookup_insert_ne by done. destruct (d !! k); [done|].
        by apply decide_elem_of_cons_ne.
Qed.

Lemma zero_filled_cons (i : Z) (idxs : list Z) (d : gmap Z Z) :
  zero_filled (i :: idxs) d =
  zero_filled idxs (match d !! i with Some _ => d | None => <[i := 0]> d end).
Proof. reflexivity. Qed.

Lemma count_of_insert_zero (d : gmap Z Z) (i k : Z) :
  d !! i = None → count_of (<[i := 0]> d) k = count_of d k.
Proof.
  intros Hi. unfold count_of. destruct (decide (i = k)) as [->|Hne].
  - by rewrite lookup_insert_eq, Hi.
  - by rewrite lookup_insert_ne.
Qed.

Lemma total_zero_filled (idxs : list Z) (d : gmap Z Z) :
  total (zero_filled idxs d) = total d.
Proof.
  unfold zero_filled. revert d. induction idxs as [|i idxs IH]; intros d; [done|].
  cbn [foldl]. rewrite IH. destruct (d !! i) eqn:Hi; [done|].
  unfold total. rewrite (map_to_list_insert d i 0 Hi).
  by rewrite fmap_cons, PyFacts.sum_cons.
Qed.

Lemma truediv_ok (c : Z) (d : Qc) : d ≠ 0%Qc → truediv c d = inr (of_int c / d)%Qc.
Proof. intros H. unfold truediv. by rewrite bool_decide_eq_false_2. Qed.

(** The loop of lines 96-99 when the total is not zero. *)
Lemma percent_loop_ok (t T : Qc) (idxs : list Z) :
  T ≠ 0%Qc →
  ∀ (acc : list Qc) (s : objects) (d : gmap Z Z),
    count_totals s !! t = Some d →
    ∃ s', for_each idxs (percent_step t T) acc s
            = Return (acc ++ ((λ i, of_int (count_of d i) / T)%Qc <$> idxs)) s'
          ∧ count_totals s' = <[t := zero_filled idxs d]> (count_totals s)
          ∧ traj_total_percent s' = traj_total_percent s.
Proof.
  intros HT. induction idxs as [|i idxs IH]; intros acc s d Hd.
  - exists s. simpl. unfold ret. rewrite app_nil_r.
    split; [done|]. split; [|done]. symmetry. by apply insert_id.
  - rewrite zero_filled_cons. simpl.
    unfold bind at 1. unfold percent_step at 1.
    unfold bind at 1. unfold count_dict_getitem. rewrite Hd. simpl.
    destruct (d !! i) as [v|] eqn:Hi.
    + unfold bind, lift. rewrite truediv_ok by done. unfold ret, modify.
      destruct (IH (acc ++ [(of_int v / T)%Qc]) (averages_append i (of_int v / T)%Qc s) d)
        as (s' & Hrun & Hcts & Hrows); [done|].
      exists s'. rewrite Hrun. split; [|done].
      rewrite <- app_assoc. simpl. unfold count_of at 2. by rewrite Hi.
    + unfold bind, lift. rewrite truediv_ok by done. unfold ret, modify.
      set (s1 := averages_append i (of_int 0 / T)%Qc
                   (set_count_totals (insert t (<[i := 0]> d)) s)).
      destruct (IH (acc ++ [(of_int 0 / T)%Qc]) s1 (<[i := 0]> d))
        as (s' & Hrun & Hcts & Hrows).
      { subst s1. simpl. apply lookup_insert_eq. }
      exists s'. rewrite Hrun. split; [|split].
      * rewrite <- app_assoc. simpl. unfold count_of at 2. rewrite Hi. simpl.
        do 3 f_equal. apply list_fmap_ext. intros _ k _.
        by rewrite count_of_insert_zero.
      * rewrite Hcts. subst s1. simpl. apply insert_insert_eq.
      * rewrite Hrows. by subst s1.
Qed.

(** The same loop when the total is zero: the first division raises. *)
Lemma percent_loop_zero (t : Qc) (idxs : list Z) (acc : list Qc) (s : objects) :
  idxs ≠ [] →
  ∃ s', for_each idxs (percent_step t 0%Qc) acc s = Raise ZeroDivisionError s'.
Proof.
  destruct idxs as [|i idxs]; [done|]. intros _. simpl.
  unfold bind at 1. unfold percent_step at 1. unfold bind at 1.
  unfold count_dict_getitem.
  destruct (default ∅ (count_totals s !! t) !! i); eexists; reflexivity.
Qed.

Lemma of_int_total_ne_0 (d : gmap Z Z) : total d ≠ 0 → of_int (total d) ≠ 0%Qc.
Proof. intros H Heq. apply H. apply of_int_inj. by rewrite Heq. Qed.

(** One trajectory, lines 92-112. *)
Lemma traj_row_ok (mx : Z) (nm : list Z) (t : Qc) (s : objects) (d : gmap Z Z) :
  count_totals s !! t = Some d →
  divisible mx (t, d) →
  ∃ s', traj_row mx nm t s = Return tt s'
        ∧ count_totals s' = <[t := zero_filled (range (mx + 1)) d]> (count_totals s)
        ∧ traj_total_percent s' = traj_total_percent s ++ [row_of mx nm (t, d)].
Proof.
  intros Hd Hdiv. unfold traj_row, bind at 1, get. rewrite Hd. simpl.
  fold (total d). unfold divisible in Hdiv. simpl in Hdiv.
  destruct (decide (total d = 0)) as [Hz|Hnz].
  - destruct Hdiv as [?|Hmx]; [done|].
    unfold bind, row_of, percents_of. rewrite (range_nonpos (mx + 1)) by done.
    simpl. unfold modify, ret. eexists. split; [reflexivity|]. simpl.
    split; [|done]. symmetry. by apply insert_id.
  - destruct (percent_loop_ok t (of_int (total d)) (range (mx + 1))
                (of_int_total_ne_0 d Hnz) [] s d Hd) as (s' & Hrun & Hcts & Hrows).
    unfold bind at 1. rewrite Hrun. simpl. unfold bind, modify.
    eexists. split; [reflexivity|]. simpl. rewrite Hcts, Hrows. done.
Qed.

Lemma traj_row_zero (mx : Z) (nm : list Z) (t : Qc) (s : objects) (d : gmap Z Z) :
  count_totals s !! t = Some d →
  ¬ divisible mx (t, d) →
  ∃ s', traj_row mx nm t s = Raise ZeroDivisionError s'.
Proof.
  intros Hd Hdiv. unfold divisible in Hdiv. simpl in Hdiv.
  assert (Hz : total d = 0) by lia. assert (Hmx : 0 < mx + 1) by lia.
  unfold traj_row, bind at 1, get. rewrite Hd. simpl. fold (total d). rewrite Hz.
  destruct (percent_loop_zero t (range (mx + 1)) [] s) as (s' & Hrun).
  { intros Hnil. apply (f_equal length) in Hnil. rewrite length_range in Hnil.
    simpl in Hnil. lia. }
  unfold bind at 1. change (of_int 0) with 0%Qc. rewrite Hrun. by eexists.
Qed.

(** The loop over the trajectories, line 91. *)
Lemma rows_loop_ok (mx : Z) (nm : list Z) (its : list (Qc * gmap Z Z)) :
  ∀ s : objects,
    NoDup its.*1 →
    (∀ t d, (t, d) ∈ its → count_totals s !! t = Some d) →
    Forall (divisible mx) its →
    ∃ s', for_each its (λ _ '(traj_id, _), traj_row mx nm traj_id) tt s
            = Return tt s'
          ∧ count_totals s'
            = list_to_map (prod_map id (zero_filled (range (mx + 1))) <$> its)
                ∪ count_totals s
          ∧ traj_total_percent s' = traj_total_percent s ++ (row_of mx nm <$> its).
Proof.
  induction its as [|[t d] its IH]; intros s Hnd Hin Hall.
  - exists s. simpl. rewrite app_nil_r. split; [done|]. split; [|done].
    by rewrite (left_id_L ∅ (∪)).
  - simpl in Hnd. apply NoDup_cons in Hnd as [Ht Hnd].
    apply Forall_cons in Hall as [Hd Hall].
    destruct (traj_row_ok mx nm t s d) as (s1 & Hrun1 & Hcts1 & Hrows1);
      [apply Hin; by left|done|].
    destruct (IH s1) as (s' & Hrun & Hcts & Hrows); [done| |done|].
    { intros t' d' Hin'. rewrite Hcts1, lookup_insert_ne.
      - apply Hin. by right.
      - intros <-. apply Ht. apply list_elem_of_fmap. by exists (t, d'). }
    exists s'. simpl. unfold bind at 1. rewrite Hrun1. split; [done|]. split.
    + rewrite Hcts, Hcts1. simpl. rewrite <- insert_union_l.
      symmetry. apply insert_union_r. apply not_elem_of_list_to_map_1.
      rewrite <- list_fmap_compose. intros Hel. apply Ht.
      apply list_elem_of_fmap in Hel as ([t' d'] & Heq & Hel). simpl in Heq.
      subst t'. apply list_elem_of_fmap. by exists (t, d').
    + rewrite Hrows, Hrows1, <- app_assoc. done.
Qed.

Lemma rows_loop_zero (mx : Z) (nm : list Z) (its : list (Qc * gmap Z Z)) :
  ∀ s : objects,
    NoDup its.*1 →
    (∀ t d, (t, d) ∈ its → count_totals s !! t = Some d) →
    ¬ Forall (divisible mx) its →
    ∃ s', for_each its (λ _ '(traj_id, _), traj_row mx nm traj_id) tt s
            = Raise ZeroDivisionError s'.
Proof.
  induction its as [|[t d] its IH]; intros s Hnd Hin Hall.
  - destruct Hall. constructor.
  - simpl in Hnd. apply NoDup_cons in Hnd as [Ht Hnd]. simpl. unfold bind at 1.
    destruct (decide (divisible mx (t, d))) as [Hd|Hd].
    + destruct (traj_row_ok mx nm t s d) as (s1 & Hrun1 & Hcts1 & Hrows1);
        [apply Hin; by left|done|].
      rewrite Hrun1. apply IH; [done| |].
      * intros t' d' Hin'. rewrite Hcts1, lookup_insert_ne.
        -- apply Hin. by right.
        -- intros <-. apply Ht. apply list_elem_of_fmap. by exists (t, d').
      * intros Hall'. apply Hall. by constructor.
    + destruct (traj_row_zero mx nm t s d) as (s1 & Hrun1);
        [apply Hin; by left|done|].
      rewrite Hrun1. by eexists.
Qed.

Lemma zero_filled_table (idxs : list Z) (cts : gmap Qc (gmap Z Z)) :
  list_to_map (prod_map id (zero_filled idxs) <$> map_to_list cts) ∪ cts
  = zero_filled idxs <$> cts.
Proof.
  rewrite list_to_map_fmap, list_to_map_to_list.
  apply map_eq. intros t. rewrite lookup_union, lookup_fmap.
  by destruct (cts !! t).
Qed.

(** *** The outcomes of [count_totals_to_percents] *)

Lemma count_totals_to_percents_no_max (cts : gmap Qc (gmap Z Z)) (nm : list Z) (e : exn) :
  max (all_state_ids cts) = inl e →
  count_totals_to_percents cts nm = Raise e (new_objects cts).
Proof.
  intros Hmax. unfold count_totals_to_percents, count_totals_to_percents_body.
  unfold bind at 1, get. simpl. unfold bind at 1. rewrite Hmax. done.
Qed.

Lemma count_totals_to_percents_assert (cts : gmap Qc (gmap Z Z)) (nm : list Z) (mx : Z) :
  max (all_state_ids cts) = inr mx →
  Z.of_nat (length (default_num_ions_map mx nm)) ≠ mx + 1 →
  count_totals_to_percents cts nm = Raise AssertionError (new_objects cts).
Proof.
  intros Hmax Hlen. unfold count_totals_to_percents, count_totals_to_percents_body.
  unfold bind at 1, get. simpl. unfold bind at 1. rewrite Hmax. simpl.
  apply Z.eqb_neq in Hlen. rewrite Hlen. done.
Qed.

Lemma count_totals_to_percents_zero (cts : gmap Qc (gmap Z Z)) (nm : list Z) (mx : Z) :
  max (all_state_ids cts) = inr mx →
  Z.of_nat (length (default_num_ions_map mx nm)) = mx + 1 →
  ¬ Forall (divisible mx) (map_to_list cts) →
  ∃ s, count_totals_to_percents cts nm = Raise ZeroDivisionError s.
Proof.
  intros Hmax Hlen Hdiv. unfold count_totals_to_percents, count_totals_to_percents_body.
  unfold bind at 1, get. simpl. unfold bind at 1. rewrite Hmax. simpl.
  apply Z.eqb_eq in Hlen. rewrite Hlen. simpl.
  destruct (rows_loop_zero mx (default_num_ions_map mx nm) (map_to_list cts)
              (new_objects cts)) as (s' & Hrun);
    [apply NoDup_fst_map_to_list|by intros t d ?%elem_of_map_to_list|done|].
  unfold bind at 1. rewrite Hrun. by eexists.
Qed.

Lemma count_totals_to_percents_returns (cts : gmap Qc (gmap Z Z)) (nm : list Z) (mx : Z) :
  max (all_state_ids cts) = inr mx →
  Z.of_nat (length (default_num_ions_map mx nm)) = mx + 1 →
  Forall (divisible mx) (map_to_list cts) →
  ∃ s means samples,
    count_totals_to_percents cts nm
      = Return ((row_of mx (default_num_ions_map mx nm) <$> map_to_list cts)
                  ++ [MeanRow means; StderrRow samples]) s
    ∧ traj_total_percent s
      = (row_of mx (default_num_ions_map mx nm) <$> map_to_list cts)
          ++ [MeanRow means; StderrRow samples]
    ∧ count_totals s = zero_filled (range (mx + 1)) <$> cts.
Proof.
  intros Hmax Hlen Hdiv. unfold count_totals_to_percents, count_totals_to_percents_body.
  unfold bind at 1, get. simpl. unfold bind at 1. rewrite Hmax. simpl.
  apply Z.eqb_eq in Hlen. rewrite Hlen. simpl.
  destruct (rows_loop_ok mx (default_num_ions_map mx nm) (map_to_list cts)
              (new_objects cts)) as (s' & Hrun & Hcts & Hrows);
    [apply NoDup_fst_map_to_list|by intros t d ?%elem_of_map_to_list|done|].
  unfold bind at 1. rewrite Hrun. unfold bind, modify, ret. simpl.
  rewrite Hrows. simpl. rewrite <- !app_assoc. simpl.
  eexists _, _, _. split; [reflexivity|]. simpl. split.
  - rewrite Hrows. simpl. by rewrite <- app_assoc.
  - rewrite Hcts. apply zero_filled_table.
Qed.

(** Every way in which the call can return. *)
Lemma count_totals_to_percents_inv (cts : gmap Qc (gmap Z Z)) (nm : list Z)
    (rows : list row) (s : objects) :
  count_totals_to_percents cts nm = Return rows s →
  ∃ mx means samples,
    max (all_state_ids cts) = inr mx
    ∧ Z.of_nat (length (default_num_ions_map mx nm)) = mx + 1
    ∧ Forall (divisible mx) (map_to_list cts)
    ∧ rows = (row_of mx (default_num_ions_map mx nm) <$> map_to_list cts)
               ++ [MeanRow means; StderrRow samples]
    ∧ traj_total_percent s = rows
    ∧ count_totals s = zero_filled (range (mx + 1)) <$> cts.
Proof.
  intros Hrun. destruct (max (all_state_ids cts)) as [e|mx] eqn:Hmax.
  { by rewrite (count_totals_to_percents_no_max _ _ _ Hmax) in Hrun. }
  destruct (decide (Z.of_nat (length (default_num_ions_map mx nm)) = mx + 1))
    as [Hlen|Hlen].
  2: { by rewrite (count_totals_to_percents_assert _ _ _ Hmax Hlen) in Hrun. }
  destruct (decide (Forall (divisible mx) (map_to_list cts))) as [Hdiv|Hdiv].
  2: { destruct (count_totals_to_percents_zero _ _ _ Hmax Hlen Hdiv) as (s' & Hz).
       by rewrite Hz in Hrun. }
  destruct (count_totals_to_percents_returns _ _ _ Hmax Hlen Hdiv)
    as (s' & means & samples & Hret & Hrows & Hcts).
  rewrite Hret in Hrun. injection Hrun as <- <-.
  exists mx, means, samples. by repeat split.
Qed.

(** The rows of the trajectories of a returned table. *)
Lemma traj_row_inv (cts : gmap Qc (gmap Z Z)) (mx : Z) (nm : list Z)
    (means : list Qc) (samples : list (list Qc)) (t : Qc) (cols : list Qc) :
  TrajRow t cols ∈ (row_of mx nm <$> map_to_list cts)
                     ++ [MeanRow means; StderrRow samples] →
  ∃ d, cts !! t = Some d
       ∧ cols = percents_of mx d ++ [weighted_average (percents_of mx d) nm].
Proof.
  rewrite elem_of_app. intros [Hin|Hin].
  - apply list_elem_of_fmap in Hin as ([t' d] & Heq & Hin).
    unfold row_of in Heq. simpl in Heq. injection Heq as -> ->.
    exists d. split; [|done]. by apply elem_of_map_to_list.
  - apply elem_of_cons in Hin as [Hin|Hin]; [done|].
    apply elem_of_cons in Hin as [Hin|Hin]; [done|].
    by apply elem_of_nil in Hin.
Qed.

(** *** The percentages of one trajectory *)

Lemma sum_fmap_add {A} (f g : A → Z) (l : list A) :
  sum ((λ x, f x + g x) <$> l) = sum (f <$> l) + sum (g <$> l).
Proof.
  induction l as [|x l IH]; [done|].
  rewrite !fmap_cons, !sum_cons, IH. lia.
Qed.

Lemma sum_indicator (k v : Z) (l : list Z) :
  NoDup l →
  sum ((λ i, if decide (i = k) then v else 0) <$> l)
  = if decide (k ∈ l) then v else 0.
Proof.
  induction l as [|x l IH]; intros Hnd; [done|].
  apply NoDup_cons in Hnd as [Hx Hnd].
  rewrite fmap_cons, sum_cons, IH by done.
  destruct (decide (x = k)) as [->|Hne].
  - rewrite (decide_False (P := k ∈ l)) by done.
    rewrite decide_True; [lia|]. by left.
  - destruct (decide (k ∈ l)) as [Hin|Hin].
    + rewrite decide_True; [lia|]. by right.
    + rewrite decide_False; [lia|]. rewrite elem_of_cons. intros [->|?]; done.
Qed.

Lemma total_empty : total ∅ = 0.
Proof. unfold total. by rewrite map_to_list_empty. Qed.

Lemma total_insert (d : gmap Z Z) (k v : Z) :
  d !! k = None → total (<[k := v]> d) = v + total d.
Proof.
  intros Hk. unfold total. rewrite (map_to_list_insert d k v Hk).
  rewrite fmap_cons, sum_cons. done.
Qed.

(** The counts of the ids [0 .. n-1] add up to the total when the
    dictionary has no other id. *)
Lemma sum_counts_range (n : Z) (d : gmap Z Z) :
  (∀ k, is_Some (d !! k) → 0 ≤ k < n) →
  sum (count_of d <$> range n) = total d.
Proof.
  induction d as [|k v d Hk IH] using map_ind; intros Hkeys.
  - rewrite total_empty. induction (range n) as [|x l IHl]; [done|].
    rewrite fmap_cons, sum_cons, IHl. unfold count_of. by rewrite lookup_empty.
  - rewrite total_insert by done. rewrite <- IH.
    2: { intros j Hj. apply Hkeys. destruct (decide (k = j)) as [->|Hne].
         - rewrite lookup_insert_eq. by eexists.
         - by rewrite lookup_insert_ne. }
    rewrite (list_fmap_ext (count_of (<[k := v]> d))
               (λ i, (if decide (i = k) then v else 0) + count_of d i) (range n)).
    2: { intros _ i _. unfold count_of. destruct (decide (i = k)) as [->|Hne].
         - rewrite lookup_insert_eq, Hk. simpl. lia.
         - rewrite lookup_insert_ne by done. lia. }
    rewrite sum_fmap_add, sum_indicator by apply NoDup_range.
    rewrite decide_True; [done|]. apply elem_of_range, Hkeys.
    rewrite lookup_insert_eq. by eexists.
Qed.

Lemma fsum_percents (T : Qc) (d : gmap Z Z) (l : list Z) :
  fsum ((λ i, of_int (count_of d i) / T)%Qc <$> l)
  = (of_int (sum (count_of d <$> l)) / T)%Qc.
Proof.
  induction l as [|x l IH].
  { rewrite !fmap_nil, sum_nil, of_int_0. unfold fsum, Qcdiv. simpl. ring. }
  rewrite !fmap_cons, fsum_cons, sum_cons, of_int_add, IH.
  unfold Qcdiv. ring.
Qed.

Lemma length_percents_of (mx : Z) (d : gmap Z Z) :
  length (percents_of mx d) = Z.to_nat (mx + 1).
Proof. unfold percents_of. by rewrite length_fmap, length_range. Qed.

Lemma fsum_percents_of (mx : Z) (d : gmap Z Z) :
  total d ≠ 0 →
  (∀ k, is_Some (d !! k) → 0 ≤ k ≤ mx) →
  fsum (percents_of mx d) = 1%Qc.
Proof.
  intros Hnz Hkeys. unfold percents_of. rewrite fsum_percents.
  rewrite sum_counts_range.
  - apply Qcmult_inv_r. by apply of_int_total_ne_0.
  - intros k Hk. apply Hkeys in Hk. lia.
Qed.

Lemma state_id_le_max (cts : gmap Qc (gmap Z Z)) (mx : Z) (t : Qc)
    (d : gmap Z Z) (k : Z) :
  max (all_state_ids cts) = inr mx →
  cts !! t = Some d → is_Some (d !! k) → k ≤ mx.
Proof.
  intros Hmax Hd [v Hk]. apply (max_ge _ _ _ Hmax).
  unfold all_state_ids. apply list_elem_of_bind. exists d. split.
  - apply list_elem_of_fmap. exists (k, v). split; [done|].
    by apply elem_of_map_to_list.
  - apply list_elem_of_fmap. exists (t, d). split; [done|].
    by apply elem_of_map_to_list.
Qed.

(** C1 (as amended).  For every count table whose state ids are all
    non-negative and in which every trajectory has a positive total
    count, the table returned by [count_totals_to_percents] has a row for
    every trajectory, and every trajectory row consists of max-id+1
    percentages followed by the weighted average, the percentages adding
    up to exactly 1. *)
Theorem percentages_sum_to_one (cts : gmap Qc (gmap Z Z)) (nm : list Z)
    (rows : list row) (s : objects) :
  (∀ t d, cts !! t = Some d → 0 < total d) →
  (∀ t d k, cts !! t = Some d → is_Some (d !! k) → 0 ≤ k) →
  count_totals_to_percents cts nm = Return rows s →
  ∃ mx, max (all_state_ids cts) = inr mx
    ∧ (∀ t, is_Some (cts !! t) → ∃ cols, TrajRow t cols ∈ rows)
    ∧ (∀ t cols, TrajRow t cols ∈ rows →
         ∃ pcts avg, cols = pcts ++ [avg]
           ∧ Z.of_nat (length pcts) = mx + 1
           ∧ fsum pcts = 1%Qc).
Proof.
  intros Hpos Hnonneg Hrun.
  apply count_totals_to_percents_inv in Hrun
    as (mx & means & samples & Hmax & Hlen & Hdiv & -> & _ & _).
  exists mx. split; [done|]. split.
  - intros t [d Hd]. eexists. apply elem_of_app. left.
    apply list_elem_of_fmap. exists (t, d). split; [reflexivity|].
    by apply elem_of_map_to_list.
  - intros t cols Hin. apply traj_row_inv in Hin as (d & Hd & ->).
    eexists _, _. split; [reflexivity|].
    assert (Hkeys : ∀ k, is_Some (d !! k) → 0 ≤ k ≤ mx).
    { intros k Hk. split; [by eapply Hnonneg|by eapply state_id_le_max]. }
    split.
    + rewrite length_percents_of.
      assert (0 ≤ mx); [|lia].
      assert (Hne : d ≠ ∅).
      { intros ->. specialize (Hpos t ∅ Hd). rewrite total_empty in Hpos. lia. }
      apply map_choose in Hne as (k & v & Hk).
      destruct (Hkeys k); [by eexists|lia].
    + apply fsum_percents_of; [|done]. specialize (Hpos t d Hd). lia.
Qed.

Lemma percentages_sum_to_one_witness :
  (∀ t d, table_two_runs !! t = Some d → 0 < total d)
  ∧ (∀ t d k, table_two_runs !! t = Some d → is_Some (d !! k) → 0 ≤ k)
  ∧ ∃ rows s,
      count_totals_to_percents table_two_runs [10; 20] = Return rows s
      ∧ ∃ mx, max (all_state_ids table_two_runs) = inr mx
          ∧ (∀ t, is_Some (table_two_runs !! t) → ∃ cols, TrajRow t cols ∈ rows)
          ∧ (∀ t cols, TrajRow t cols ∈ rows →
               ∃ pcts avg, cols = pcts ++ [avg]
                 ∧ Z.of_nat (length pcts) = mx + 1
                 ∧ fsum pcts = 1%Qc).
Proof.
  assert (Hpos : ∀ t d, table_two_runs !! t = Some d → 0 < total d).
  { change (map_Forall (λ _ d, 0 < total d) table_two_runs).
    apply (bool_decide_unpack _). vm_compute. exact I. }
  assert (Hnonneg : ∀ t d k, table_two_runs !! t = Some d → is_Some (d !! k) → 0 ≤ k).
  { intros t d k Hd [v Hk]. revert k v Hk. revert t d Hd.
    change (map_Forall (λ _ d, map_Forall (λ k _, 0 ≤ k) (d : gmap Z Z))
              table_two_runs).
    apply (bool_decide_unpack _). vm_compute. exact I. }
  split; [exact Hpos|]. split; [exact Hnonneg|].
  eexists _, _. split; [vm_compute; reflexivity|].
  eapply (percentages_sum_to_one table_two_runs [10; 20] _ _ Hpos Hnonneg).
  vm_compute. reflexivity.
Defined.

(** C1, as stated, fails on a table with a negative state id: the only
    percentage of the row is 1/2. *)
Lemma percentages_sum_negative_state_id :
  (∀ t d, table_negative_id !! t = Some d → 0 < total d)
  ∧ ∃ rows s avg,
      count_totals_to_percents table_negative_id [] = Return rows s
      ∧ max (all_state_ids table_negative_id) = inr 0
      ∧ TrajRow (of_int 1) ([Q2Qc (1 # 2)] ++ [avg]) ∈ rows
      ∧ fsum [Q2Qc (1 # 2)] ≠ 1%Qc.
Proof.
  split.
  { change (map_Forall (λ _ d, 0 < total d) table_negative_id).
    apply (bool_decide_unpack _). vm_compute. exact I. }
  eexists _, _, _. split; [vm_compute; reflexivity|].
  split; [vm_compute; reflexivity|]. split.
  - apply list_elem_of_here.
  - intros H. apply (f_equal this) in H. vm_compute in H. discriminate H.
Qed.

(** *** The weight map *)

(** C2.  For every count table whose largest state id max-id is at least
    0 and every supplied weight map (a non-empty list: the empty list is
    the default value of the argument, that is, no map supplied) whose
    length is not max-id+1, [count_totals_to_percents] raises
    [AssertionError], and it does so with no output row built and the
    count table as it was passed. *)
Theorem weight_map_length_mismatch (cts : gmap Qc (gmap Z Z)) (nm : list Z) (mx : Z) :
  max (all_state_ids cts) = inr mx →
  0 ≤ mx →
  nm ≠ [] →
  Z.of_nat (length nm) ≠ mx + 1 →
  ∃ s, count_totals_to_percents cts nm = Raise AssertionError s
       ∧ traj_total_percent s = []
       ∧ count_totals s = cts.
Proof.
  intros Hmax _ Hnm Hlen. exists (new_objects cts). split; [|done].
  apply (count_totals_to_percents_assert cts nm mx Hmax).
  by destruct nm.
Qed.

Lemma weight_map_length_mismatch_witness :
  ∃ s, count_totals_to_percents table_two_runs [10; 20; 30] = Raise AssertionError s
       ∧ traj_total_percent s = []
       ∧ count_totals s = table_two_runs.
Proof.
  apply (weight_map_length_mismatch table_two_runs [10; 20; 30] 1).
  - vm_compute. reflexivity.
  - lia.
  - discriminate.
  - simpl. lia.
Defined.

(** With the default (empty) map the assertion holds whenever max-id is
    at least -1: the map is replaced by [range(max_ions+1)]. *)
Lemma default_map_length (mx : Z) :
  -1 ≤ mx → Z.of_nat (length (default_num_ions_map mx [])) = mx + 1.
Proof. intros H. simpl. rewrite length_range. lia. Qed.

(** *** The weighted average *)

Lemma foldl_weighted (a : Qc) (l : list (Qc * Z)) :
  foldl (λ temp_average '(occupancy, ion_count),
           temp_average + occupancy * of_int ion_count)%Qc a l
  = (a + fsum ((λ '(occupancy, ion_count), occupancy * of_int ion_count)%Qc <$> l))%Qc.
Proof.
  revert a. induction l as [|[o c] l IH]; intros a.
  - simpl. unfold fsum. simpl. ring.
  - cbn [foldl]. rewrite IH, fmap_cons, fsum_cons. ring.
Qed.

Lemma zip_with_lookups {A B C} (f : A → B → C) (a : A) (b : B)
    (l1 : list A) (l2 : list B) (n : nat) :
  length l1 = n → length l2 = n →
  zip_with f l1 l2
  = (λ i, f (default a (l1 !! i)) (default b (l2 !! i))) <$> seq 0 n.
Proof.
  intros H1 H2. apply list_eq. intros i.
  rewrite lookup_zip_with, list_lookup_fmap.
  destruct (decide (i < n)%nat) as [Hlt|Hge].
  - rewrite lookup_seq_lt by done. simpl.
    destruct (lookup_lt_is_Some_2 l1 i) as [x ->]; [lia|].
    destruct (lookup_lt_is_Some_2 l2 i) as [y ->]; [lia|]. done.
  - rewrite (lookup_seq_ge 0 n i) by lia. simpl.
    rewrite (lookup_ge_None_2 l1 i) by lia. done.
Qed.

Lemma fmap_zip_weighted (l : list Qc) (w : list Z) :
  (λ '(occupancy, ion_count), occupancy * of_int ion_count)%Qc <$> zip l w
  = zip_with (λ occupancy ion_count, occupancy * of_int ion_count)%Qc l w.
Proof.
  revert w. induction l as [|o l IH]; intros [|c w]; simpl; [done..|].
  by rewrite <- IH.
Qed.

Lemma weight_at_default (mx : Z) (nm : list Z) (i : nat) :
  (i < Z.to_nat (mx + 1))%nat →
  default 0 (default_num_ions_map mx nm !! i) = weight_at nm (Z.of_nat i).
Proof.
  intros Hi. unfold weight_at, default_num_ions_map. destruct nm as [|w nm].
  - by rewrite lookup_range.
  - by rewrite Nat2Z.id.
Qed.

Lemma weighted_average_sum (mx : Z) (nm : list Z) (pcts : list Qc) :
  length pcts = Z.to_nat (mx + 1) →
  Z.of_nat (length (default_num_ions_map mx nm)) = mx + 1 →
  weighted_average pcts (default_num_ions_map mx nm)
  = fsum ((λ i, default 0 (pcts !! Z.to_nat i) * of_int (weight_at nm i))%Qc
            <$> range (mx + 1)).
Proof.
  intros Hp Hw. unfold weighted_average. rewrite foldl_weighted.
  rewrite Qcplus_0_l. f_equal. rewrite fmap_zip_weighted.
  rewrite (zip_with_lookups _ 0%Qc 0 pcts _ (Z.to_nat (mx + 1))) by lia.
  unfold range. rewrite <- list_fmap_compose. apply list_fmap_ext.
  intros j i Hi. apply lookup_seq in Hi as [-> Hlt]. simpl. rewrite Nat2Z.id.
  rewrite weight_at_default by lia. done.
Qed.

(** C3.  A returned table has a row for every trajectory of the count
    table, made of the max-id+1 percentages of the trajectory (count of
    the state over the total of the trajectory) followed by one more
    column, the weighted average; and in every trajectory row of the
    table this last column is the sum, over the state ids 0..max-id, of
    the row's percentage for the id times the weight of the id, the
    weight being the entry of the supplied map or, with no map supplied,
    the id itself. *)
Theorem weighted_average_recomputable (cts : gmap Qc (gmap Z Z)) (nm : list Z)
    (rows : list row) (s : objects) :
  count_totals_to_percents cts nm = Return rows s →
  ∃ mx, max (all_state_ids cts) = inr mx
    ∧ (∀ t d, cts !! t = Some d →
         ∃ avg, TrajRow t (percents_of mx d ++ [avg]) ∈ rows)
    ∧ ∀ t cols, TrajRow t cols ∈ rows →
        is_Some (cts !! t)
        ∧ ∃ pcts avg, cols = pcts ++ [avg]
            ∧ length pcts = Z.to_nat (mx + 1)
            ∧ avg = fsum ((λ i, default 0 (pcts !! Z.to_nat i)
                                * of_int (weight_at nm i))%Qc <$> range (mx + 1)).
Proof.
  intros Hrun.
  apply count_totals_to_percents_inv in Hrun
    as (mx & means & samples & Hmax & Hlen & _ & -> & _ & _).
  exists mx. split; [done|]. split.
  - intros t d Hd. eexists. apply elem_of_app. left.
    apply list_elem_of_fmap. exists (t, d). split; [reflexivity|].
    by apply elem_of_map_to_list.
  - intros t cols Hin. apply traj_row_inv in Hin as (d & Hd & ->).
    split; [by eexists|].
    eexists _, _. split; [reflexivity|]. split; [apply length_percents_of|].
    apply weighted_average_sum; [apply length_percents_of|done].
Qed.

Lemma weighted_average_recomputable_witness :
  ∃ rows s,
    count_totals_to_percents table_two_runs [10; 20] = Return rows s
    ∧ ∃ mx, max (all_state_ids table_two_runs) = inr mx
        ∧ (∀ t d, table_two_runs !! t = Some d →
             ∃ avg, TrajRow t (percents_of mx d ++ [avg]) ∈ rows)
        ∧ ∀ t cols, TrajRow t cols ∈ rows →
            is_Some (table_two_runs !! t)
            ∧ ∃ pcts avg, cols = pcts ++ [avg]
                ∧ length pcts = Z.to_nat (mx + 1)
                ∧ avg = fsum ((λ i, default 0 (pcts !! Z.to_nat i)
                                    * of_int (weight_at [10; 20] i))%Qc
                                <$> range (mx + 1)).
Proof.
  eexists _, _. split; [vm_compute; reflexivity|].
  eapply (weighted_average_recomputable table_two_runs [10; 20]).
  vm_compute. reflexivity.
Defined.

(** *** The count table after the aggregation *)

(** C8, as stated, fails: the aggregation of a table whose only state id
    is 1 adds the state id 0, with count 0, to the trajectory. *)
Lemma count_table_gains_zero_entry :
  ∃ rows s,
    count_totals_to_percents table_state_one [] = Return rows s
    ∧ table_state_one !! of_int 1 ≫= (.!! 0) = None
    ∧ count_totals s !! of_int 1 ≫= (.!! 0) = Some 0
    ∧ count_totals s ≠ table_state_one.
Proof.
  eexists _, _. split; [vm_compute; reflexivity|].
  split; [vm_compute; reflexivity|]. split; [vm_compute; reflexivity|].
  intros Heq. apply (f_equal (λ m : gmap Qc (gmap Z Z), m !! of_int 1 ≫= (.!! 0))) in Heq.
  vm_compute in Heq. discriminate Heq.
Qed.

(** C8 (as amended).  The aggregation keeps the trajectories of the
    count table and every count in it, and adds to the dictionary of
    every trajectory the state ids of 0..max-id it did not have, with
    count 0; nothing else changes, so the total of every trajectory is
    the same. *)
Theorem count_table_after_aggregation (cts : gmap Qc (gmap Z Z)) (nm : list Z)
    (rows : list row) (s : objects) :
  count_totals_to_percents cts nm = Return rows s →
  ∃ mx, max (all_state_ids cts) = inr mx
    ∧ dom (count_totals s) = dom cts
    ∧ ∀ t d, cts !! t = Some d →
        ∃ d', count_totals s !! t = Some d'
          ∧ (∀ k, d' !! k = match d !! k with
                            | Some v => Some v
                            | None => if decide (0 ≤ k ≤ mx) then Some 0 else None
                            end)
          ∧ total d' = total d.
Proof.
  intros Hrun.
  apply count_totals_to_percents_inv in Hrun
    as (mx & means & samples & Hmax & _ & _ & _ & _ & Hcts).
  exists mx. split; [done|]. rewrite Hcts. split; [apply dom_fmap_L|].
  intros t d Hd. exists (zero_filled (range (mx + 1)) d).
  rewrite lookup_fmap, Hd. split; [done|]. split.
  - intros k. rewrite lookup_zero_filled. destruct (d !! k); [done|].
    destruct (decide (k ∈ range (mx + 1))) as [Hin|Hin];
      rewrite elem_of_range in Hin.
    + rewrite decide_True; [done|lia].
    + rewrite decide_False; [done|lia].
  - apply total_zero_filled.
Qed.

Lemma count_table_after_aggregation_witness :
  ∃ rows s,
    count_totals_to_percents table_state_one [] = Return rows s
    ∧ ∃ mx, max (all_state_ids table_state_one) = inr mx
        ∧ dom (count_totals s) = dom table_state_one
        ∧ ∀ t d, table_state_one !! t = Some d →
            ∃ d', count_totals s !! t = Some d'
              ∧ (∀ k, d' !! k = match d !! k with
                                | Some v => Some v
                                | None => if decide (0 ≤ k ≤ mx) then Some 0 else None
                                end)
              ∧ total d' = total d.
Proof.
  eexists _, _. split; [vm_compute; reflexivity|].
  eapply (count_table_after_aggregation table_state_one []).
  vm_compute. reflexivity.
Defined.

(** *** The counting loop of [regex_counter] *)

Lemma getitem_raises {A} (l : list A) (i : Z) (e : exn) :
  getitem l i = inl e → e = IndexError.
Proof.
  unfold getitem. destruct (_ && _); [|congruence].
  destruct (l !! _); congruence.
Qed.

Lemma total_insert_over (d : gmap Z Z) (k v w : Z) :
  d !! k = Some v → total (<[k := w]> d) = w - v + total d.
Proof.
  intros Hk. unfold total.
  rewrite <- (map_to_list_delete d k v Hk), <- insert_delete_eq.
  rewrite map_to_list_insert by apply lookup_delete_eq.
  rewrite !fmap_cons, !sum_cons. simpl. lia.
Qed.

Lemma total_count (d : gmap Z Z) (k : Z) :
  total (<[k := default 0 (d !! k) + 1]> d) = total d + 1.
Proof.
  destruct (d !! k) as [v|] eqn:Hk; simpl.
  - rewrite (total_insert_over d k v) by done. lia.
  - rewrite total_insert by done. lia.
Qed.

Lemma grand_total_empty : grand_total ∅ = 0.
Proof. unfold grand_total. by rewrite map_to_list_empty. Qed.

Lemma grand_total_insert (cts : gmap Qc (gmap Z Z)) (t : Qc) (d : gmap Z Z) :
  cts !! t = None → grand_total (<[t := d]> cts) = total d + grand_total cts.
Proof.
  intros Ht. unfold grand_total. rewrite (map_to_list_insert cts t d Ht).
  by rewrite !fmap_cons, sum_cons.
Qed.

Lemma grand_total_insert_over (cts : gmap Qc (gmap Z Z)) (t : Qc) (d d' : gmap Z Z) :
  cts !! t = Some d →
  grand_total (<[t := d']> cts) = total d' - total d + grand_total cts.
Proof.
  intros Ht. unfold grand_total.
  rewrite <- (map_to_list_delete cts t d Ht), <- insert_delete_eq.
  rewrite map_to_list_insert by apply lookup_delete_eq.
  rewrite !fmap_cons, !sum_cons. simpl. lia.
Qed.

(** One observation adds one to the sum of all counts. *)
Lemma grand_total_increment (cts : gmap Qc (gmap Z Z)) (t : Qc) (k : Z) :
  grand_total (increment t k cts) = grand_total cts + 1.
Proof.
  unfold increment. destruct (cts !! t) as [d|] eqn:Ht; simpl.
  - rewrite (grand_total_insert_over cts t d) by done. rewrite total_count. lia.
  - rewrite grand_total_insert by done. rewrite total_count, total_empty. lia.
Qed.

Lemma counted_empty : counted ∅.
Proof. intros t d Hd. by rewrite lookup_empty in Hd. Qed.

Lemma counted_increment (cts : gmap Qc (gmap Z Z)) (t : Qc) (k : Z) :
  counted cts → counted (increment t k cts).
Proof.
  intros Hc t' d'. unfold increment. destruct (decide (t = t')) as [<-|Hne].
  - rewrite lookup_insert_eq. intros [= <-]. split.
    + apply insert_non_empty.
    + intros k' v'. destruct (decide (k = k')) as [<-|Hk].
      * rewrite lookup_insert_eq. intros [= <-].
        destruct (cts !! t) as [d|] eqn:Ht; simpl.
        -- destruct (d !! k) as [v|] eqn:Hv; simpl; [|lia].
           destruct (Hc t d Ht) as [_ Hv']. specialize (Hv' k v Hv). lia.
        -- rewrite lookup_empty. simpl. lia.
      * rewrite lookup_insert_ne by done.
        destruct (cts !! t) as [d|] eqn:Ht; simpl.
        -- intros Hv. by destruct (Hc t d Ht) as [_ Hv']; apply (Hv' k').
        -- by rewrite lookup_empty.
  - rewrite lookup_insert_ne by done. apply Hc.
Qed.

Lemma counted_total (cts : gmap Qc (gmap Z Z)) (t : Qc) (d : gmap Z Z) :
  counted cts → cts !! t = Some d → 1 ≤ total d.
Proof.
  intros Hc Hd. destruct (Hc t d Hd) as [Hne Hpos]. clear Hc Hd.
  assert (Hge : ∀ d : gmap Z Z, (∀ k v, d !! k = Some v → 1 ≤ v) → 0 ≤ total d).
  { clear. intros d. induction d as [|k v d Hk IH] using map_ind; intros Hpos.
    - by rewrite total_empty.
    - rewrite total_insert by done.
      assert (1 ≤ v) by (apply (Hpos k); apply lookup_insert_eq).
      assert (0 ≤ total d); [|lia].
      apply IH. intros k' v' Hv'. apply (Hpos k').
      rewrite lookup_insert_ne; [done|]. intros ->. congruence. }
  revert Hne Hpos. induction d as [|k v d Hk _] using map_ind; intros Hne Hpos.
  - done.
  - rewrite total_insert by done.
    assert (1 ≤ v) by (apply (Hpos k); apply lookup_insert_eq).
    assert (0 ≤ total d); [|lia].
    apply Hge. intros k' v' Hv'. apply (Hpos k').
    rewrite lookup_insert_ne; [done|]. intros ->. congruence.
Qed.

Lemma increment_keys (cts : gmap Qc (gmap Z Z)) (t t' : Qc) (k : Z) :
  is_Some (increment t k cts !! t') → t' = t ∨ is_Some (cts !! t').
Proof.
  unfold increment. destruct (decide (t = t')) as [<-|Hne]; [by left|].
  rewrite lookup_insert_ne by done. by right.
Qed.

(** The outcome of the counting loop from any state. *)
Lemma count_loop_cases (traj_col : Z) (pairs : list (list Qc * Z)) :
  ∀ s : objects,
    match for_each pairs (count_step traj_col) tt s with
    | Return _ s' =>
        grand_total (count_totals s')
          = grand_total (count_totals s) + Z.of_nat (length pairs)
        ∧ (counted (count_totals s) → counted (count_totals s'))
        ∧ traj_total_percent s' = traj_total_percent s
        ∧ traj_occ_averages s' = traj_occ_averages s
        ∧ (∀ t, is_Some (count_totals s' !! t) →
             is_Some (count_totals s !! t)
             ∨ ∃ line st, (line, st) ∈ pairs ∧ getitem line traj_col = inr t)
    | Raise e _ =>
        e = IndexError
        ∧ ∃ line st, (line, st) ∈ pairs ∧ getitem line traj_col = inl IndexError
    end.
Proof.
  induction pairs as [|[line st] pairs IH]; intros s.
  - simpl. split; [lia|]. do 3 (split; [done|]). intros t Ht. by left.
  - cbn [for_each]. unfold bind at 1. unfold count_step at 1.
    unfold bind at 1, lift.
    destruct (getitem line traj_col) as [e|t] eqn:Hget.
    + apply getitem_raises in Hget as Heq. subst e. split; [done|].
      exists line, st. split; [by left|done].
    + unfold ret, modify.
      specialize (IH (set_count_totals (increment t st) s)).
      destruct (for_each pairs (count_step traj_col) ()
                  (set_count_totals (increment t st) s)) as [[] s'|e s'].
      * destruct IH as (Hsum & Hcounted & Hrows & Havg & Hkeys).
        simpl in Hsum, Hcounted, Hrows, Havg, Hkeys.
        rewrite grand_total_increment in Hsum.
        split; [rewrite Hsum, length_cons; lia|].
        split; [intros Hc; by apply Hcounted, counted_increment|].
        split; [done|]. split; [done|].
        intros t' Ht'. destruct (Hkeys t' Ht') as [Hinc|(l' & st' & Hin & Hl')].
        -- apply increment_keys in Hinc as [->|?]; [|by left].
           right. exists line, st. split; [by left|done].
        -- right. exists l', st'. split; [by right|done].
      * destruct IH as (-> & l' & st' & Hin & Hl'). split; [done|].
        exists l', st'. split; [by right|done].
Qed.

Lemma max_raises (l : list Z) (e : exn) : max l = inl e → e = ValueError.
Proof. destruct l; simpl; congruence. Qed.

Lemma count_totals_to_percents_zero_inv (cts : gmap Qc (gmap Z Z)) (nm : list Z)
    (s : objects) :
  count_totals_to_percents cts nm = Raise ZeroDivisionError s →
  ∃ t d, cts !! t = Some d ∧ total d = 0.
Proof.
  intros Hrun. destruct (max (all_state_ids cts)) as [e|mx] eqn:Hmax.
  { rewrite (count_totals_to_percents_no_max _ _ _ Hmax) in Hrun.
    apply max_raises in Hmax. congruence. }
  destruct (decide (Z.of_nat (length (default_num_ions_map mx nm)) = mx + 1))
    as [Hlen|Hlen].
  2: { by rewrite (count_totals_to_percents_assert _ _ _ Hmax Hlen) in Hrun. }
  destruct (decide (Forall (divisible mx) (map_to_list cts))) as [Hdiv|Hdiv].
  { destruct (count_totals_to_percents_returns _ _ _ Hmax Hlen Hdiv)
      as (s' & means & samples & Hret & _). by rewrite Hret in Hrun. }
  apply not_Forall_Exists in Hdiv; [|apply _].
  apply Exists_exists in Hdiv as ([t d] & Hin & Hnd).
  exists t, d. split; [by apply elem_of_map_to_list|].
  unfold divisible in Hnd. simpl in Hnd. lia.
Qed.

Lemma elem_of_zip_lookup {A B} (l : list A) (k : list B) (x : A) (y : B) :
  (x, y) ∈ zip l k → ∃ i, l !! i = Some x ∧ k !! i = Some y.
Proof.
  intros Hin. apply list_elem_of_lookup in Hin as [i Hi]. exists i.
  apply lookup_zip_with_Some in Hi as (x' & y' & [= <- <-] & Hx & Hy). done.
Qed.

Lemma zip_take_min {A B} (l : list A) (k : list B) :
  zip (take (length l `min` length k) l) (take (length l `min` length k) k)
  = zip l k.
Proof.
  revert k. induction l as [|x l IH]; intros [|y k]; simpl; [done..|].
  by rewrite IH.
Qed.

(** C9.  A count table built by the counting loop of [regex_counter] has
    a trajectory key only for a trajectory of a paired observation, and
    the total count of every trajectory is at least 1; hence the
    aggregation that [regex_counter] then runs on the table never raises
    [ZeroDivisionError]. *)
Theorem counted_table_divides (data_floats : list (list Qc))
    (data_regex : list (string * Z)) (traj_col : Z) (s : objects) :
  count_loop data_floats data_regex traj_col (new_objects ∅) = Return tt s →
  (∀ t d, count_totals s !! t = Some d →
     1 ≤ total d
     ∧ ∃ line st, (line, st) ∈ zip data_floats data_regex.*2
                  ∧ getitem line traj_col = inr t)
  ∧ ∀ nm,
      regex_counter data_floats data_regex traj_col nm
        = count_totals_to_percents (count_totals s) nm
      ∧ ∀ e s', count_totals_to_percents (count_totals s) nm = Raise e s' →
                e ≠ ZeroDivisionError.
Proof.
  intros Hrun. unfold count_loop in Hrun.
  pose proof (count_loop_cases traj_col (zip data_floats data_regex.*2)
                (new_objects ∅)) as Hcases.
  rewrite Hrun in Hcases. simpl in Hcases.
  destruct Hcases as (_ & Hcounted & Hrows & Havg & Hkeys).
  specialize (Hcounted counted_empty).
  split.
  - intros t d Hd. split; [by eapply counted_total|].
    destruct (Hkeys t) as [Hold|Hnew]; [by eexists| |done].
    rewrite lookup_empty in Hold. by destruct Hold.
  - intros nm. split.
    + unfold regex_counter, count_loop, bind. rewrite Hrun.
      unfold count_totals_to_percents, new_objects.
      destruct s as [cts rows avgs]. simpl in *. by subst.
    + intros e s' Hraise ->.
      apply count_totals_to_percents_zero_inv in Hraise as (t & d & Hd & Hz).
      pose proof (counted_total _ _ _ Hcounted Hd). lia.
Qed.

Lemma counted_table_divides_witness :
  ∃ s,
    count_loop rows_four pairs_three 2 (new_objects ∅) = Return tt s
    ∧ (∀ t d, count_totals s !! t = Some d →
         1 ≤ total d
         ∧ ∃ line st, (line, st) ∈ zip rows_four pairs_three.*2
                      ∧ getitem line 2 = inr t)
    ∧ ∀ nm,
        regex_counter rows_four pairs_three 2 nm
          = count_totals_to_percents (count_totals s) nm
        ∧ ∀ e s', count_totals_to_percents (count_totals s) nm = Raise e s' →
                  e ≠ ZeroDivisionError.
Proof.
  eexists. split; [vm_compute; reflexivity|].
  eapply (counted_table_divides rows_four pairs_three 2).
  vm_compute. reflexivity.
Defined.

(** C10.  Whatever the lengths n of the row list and m of the pair list,
    the counting loop of [regex_counter] does not fail when every row
    that has a pair has a trajectory column: it counts the first
    min(n, m) rows with the first min(n, m) pairs and ignores the rest,
    and the counts of the table add up to min(n, m). *)
Theorem count_loop_paired_prefix (data_floats : list (list Qc))
    (data_regex : list (string * Z)) (traj_col : Z) :
  Forall (λ line, ∃ t, getitem line traj_col = inr t)
         (take (length data_regex) data_floats) →
  ∃ s,
    count_loop data_floats data_regex traj_col (new_objects ∅) = Return tt s
    ∧ count_loop (take (length data_floats `min` length data_regex) data_floats)
                 (take (length data_floats `min` length data_regex) data_regex)
                 traj_col (new_objects ∅) = Return tt s
    ∧ grand_total (count_totals s)
      = Z.of_nat (length data_floats `min` length data_regex).
Proof.
  intros Hvalid.
  assert (Hzip : zip (take (length data_floats `min` length data_regex) data_floats)
                     (take (length data_floats `min` length data_regex) data_regex).*2
                 = zip data_floats data_regex.*2).
  { rewrite fmap_take.
    rewrite <- (length_fmap snd data_regex). apply zip_take_min. }
  unfold count_loop. rewrite Hzip.
  pose proof (count_loop_cases traj_col (zip data_floats data_regex.*2)
                (new_objects ∅)) as Hcases.
  destruct (for_each (zip data_floats data_regex.*2) (count_step traj_col) ()
              (new_objects ∅)) as [[] s|e s].
  - exists s. split; [done|]. split; [done|].
    destruct Hcases as (Hsum & _). rewrite Hsum. simpl.
    rewrite grand_total_empty, length_zip_with, length_fmap. lia.
  - destruct Hcases as (_ & line & st & Hin & Hget).
    apply elem_of_zip_lookup in Hin as (i & Hline & Hst).
    apply lookup_lt_Some in Hst. rewrite length_fmap in Hst.
    rewrite Forall_lookup in Hvalid.
    destruct (Hvalid i line) as [t Ht]; [|congruence].
    rewrite lookup_take_lt by done. done.
Qed.

Lemma count_loop_paired_prefix_witness :
  length rows_four ≠ length pairs_three
  ∧ ∃ s,
      count_loop rows_four pairs_three 2 (new_objects ∅) = Return tt s
      ∧ count_loop (take (length rows_four `min` length pairs_three) rows_four)
                   (take (length rows_four `min` length pairs_three) pairs_three)
                   2 (new_objects ∅) = Return tt s
      ∧ grand_total (count_totals s)
        = Z.of_nat (length rows_four `min` length pairs_three).
Proof.
  split; [simpl; lia|].
  apply (count_loop_paired_prefix rows_four pairs_three 2).
  repeat constructor; eexists; vm_compute; reflexivity.
Defined.

End RegexFacts.

(** ** The dihedral time series *)

Module SeriesFacts.
Import Py PyFacts Numpy Histograms.

Lemma series_at_dd_read (m : gmap Qc (gmap nat (list Qc))) (t t' : Qc) (j : nat) :
  series_at (dd_read t m) t' j = series_at m t' j.
Proof.
  unfold series_at, dd_read. destruct (m !! t) eqn:Ht; [done|].
  destruct (decide (t = t')) as [<-|Hne].
  - by rewrite lookup_insert_eq, Ht.
  - by rewrite lookup_insert_ne.
Qed.

Lemma series_at_dd_store (m : gmap Qc (gmap nat (list Qc))) (t t' : Qc)
    (j j' : nat) (l : list Qc) :
  series_at (dd_store t j l m) t' j'
  = if decide (t' = t ∧ j' = j) then Some l else series_at m t' j'.
Proof.
  unfold series_at, dd_store. destruct (decide (t = t')) as [<-|Hne].
  - rewrite lookup_insert_eq. simpl. destruct (decide (j = j')) as [<-|Hj].
    + rewrite lookup_insert_eq. by rewrite decide_True.
    + rewrite lookup_insert_ne by done.
      rewrite decide_False by (intros [_ ->]; done).
      by destruct (m !! t).
  - rewrite lookup_insert_ne by done.
    by rewrite decide_False by (intros [-> _]; done).
Qed.

Lemma dd_read_None (m : gmap Qc (gmap nat (list Qc))) (t t' : Qc) :
  t' ≠ t → dd_read t m !! t' = m !! t'.
Proof.
  intros Hne. unfold dd_read. destruct (m !! t); [done|].
  by rewrite lookup_insert_ne.
Qed.

Lemma dd_store_None (m : gmap Qc (gmap nat (list Qc))) (t t' : Qc) (j : nat)
    (l : list Qc) :
  t' ≠ t → dd_store t j l m !! t' = m !! t'.
Proof. intros Hne. unfold dd_store. by rewrite lookup_insert_ne. Qed.

Lemma default_series_at (m : gmap Qc (gmap nat (list Qc))) (t : Qc) (j : nat) :
  default ∅ (m !! t) !! j = series_at m t j.
Proof. unfold series_at. by destruct (m !! t). Qed.

Lemma getitem_item (line : list Qc) (col : Z) :
  (∃ x, getitem line col = inr x) → getitem line col = inr (item col line).
Proof. intros [x Hx]. unfold item. by rewrite Hx. Qed.

Lemma getitem_first (line : list Qc) (i : Z) :
  (∃ x, getitem line i = inr x) → ∃ y, getitem line 0 = inr y.
Proof.
  intros [x Hx]. destruct line as [|y line]; [|by exists y].
  unfold getitem in Hx. cbn [length] in Hx.
  destruct (_ && _) eqn:Hc in Hx; [|done].
  apply andb_true_iff in Hc as [H1 H2].
  apply Z.leb_le in H1. apply Z.ltb_lt in H2. simpl in H1, H2.
  destruct (i <? 0); lia.
Qed.

Lemma comprehension_item (col : Z) (rows : list (list Qc)) :
  Forall (λ line, ∃ x, getitem line col = inr x) rows →
  comprehension (λ line, getitem line col) rows = inr (item col <$> rows).
Proof.
  induction 1 as [|line rows Hline _ IH]; [done|].
  simpl. rewrite (getitem_item _ _ Hline). simpl. by rewrite IH.
Qed.

Lemma rows_of_traj_snoc (traj_col : Z) (t : Qc) (prefix : list (list Qc))
    (line : list Qc) :
  rows_of_traj traj_col t (prefix ++ [line])
  = rows_of_traj traj_col t prefix
      ++ (if decide (getitem line traj_col = inr t) then [line] else []).
Proof.
  unfold rows_of_traj. by rewrite filter_app.
Qed.

Lemma expected_at_snoc (pick : Z → Z) (cols : list Z) (traj_col : Z)
    (rows : list (list Qc)) (line : list Qc) (t : Qc) (j : nat) (col : Z) :
  getitem line traj_col = inr t →
  cols !! j = Some col →
  expected_at pick cols traj_col (rows ++ [line]) t j
  = Some (default [] (expected_at pick cols traj_col rows t j)
            ++ [item (pick col) line]).
Proof.
  intros Ht Hcol. unfold expected_at. rewrite Hcol, rows_of_traj_snoc.
  rewrite decide_True by done.
  destruct (rows_of_traj traj_col t rows) as [|r rs]; [done|].
  simpl. by rewrite fmap_app.
Qed.

Lemma expected_at_snoc_other (pick : Z → Z) (cols : list Z) (traj_col : Z)
    (rows : list (list Qc)) (line : list Qc) (t t' : Qc) (j : nat) :
  getitem line traj_col = inr t →
  t' ≠ t →
  expected_at pick cols traj_col (rows ++ [line]) t' j
  = expected_at pick cols traj_col rows t' j.
Proof.
  intros Ht Hne. unfold expected_at. rewrite rows_of_traj_snoc.
  rewrite decide_False by congruence. by rewrite app_nil_r.
Qed.

Lemma expected_at_no_column (pick : Z → Z) (cols : list Z) (traj_col : Z)
    (rows : list (list Qc)) (t : Qc) (j : nat) :
  cols !! j = None → expected_at pick cols traj_col rows t j = None.
Proof. intros H. unfold expected_at. by rewrite H. Qed.

(** Lines 44-49 for one column of one row. *)
Lemma record_value_step (line : list Qc) (t : Qc) (j : nat) (col : Z) (st : series) :
  (∃ x, getitem line col = inr x) →
  (∃ x, getitem line 0 = inr x) →
  (is_Some (series_at (dihedral_per_traj st) t j) ↔
   is_Some (series_at (time_per_traj st) t j)) →
  ∃ st', record_value line t j col st = Return tt st'
    ∧ (∀ t' j', series_at (dihedral_per_traj st') t' j'
         = if decide (t' = t ∧ j' = j)
           then Some (default [] (series_at (dihedral_per_traj st) t j)
                        ++ [item col line])
           else series_at (dihedral_per_traj st) t' j')
    ∧ (∀ t' j', series_at (time_per_traj st') t' j'
         = if decide (t' = t ∧ j' = j)
           then Some (default [] (series_at (time_per_traj st) t j)
                        ++ [item 0 line])
           else series_at (time_per_traj st) t' j')
    ∧ (∀ t', t' ≠ t →
         dihedral_per_traj st' !! t' = dihedral_per_traj st !! t'
         ∧ time_per_traj st' !! t' = time_per_traj st !! t').
Proof.
  intros Hcol H0 Hpar. unfold record_value, bind, modify, get. simpl.
  rewrite default_series_at, series_at_dd_read.
  rewrite (getitem_item _ _ Hcol), (getitem_item _ _ H0).
  destruct (series_at (dihedral_per_traj st) t j) as [vals|] eqn:Hvals.
  - simpl. rewrite default_series_at, series_at_dd_read.
    destruct (proj1 Hpar) as [times Htimes]; [by eexists|]. rewrite Htimes. simpl.
    eexists. split; [reflexivity|]. simpl. split; [|split].
    + intros t' j'. rewrite series_at_dd_store, series_at_dd_read. done.
    + intros t' j'. rewrite series_at_dd_store, series_at_dd_read. done.
    + intros t' Hne. by rewrite !dd_store_None, !dd_read_None.
  - simpl. eexists. split; [reflexivity|]. simpl. split; [|split].
    + intros t' j'. rewrite series_at_dd_store, series_at_dd_read. done.
    + intros t' j'. rewrite series_at_dd_store.
      destruct (decide (t' = t ∧ j' = j)) as [[-> ->]|]; [|done].
      destruct (series_at (time_per_traj st) t j) as [times|] eqn:Htimes; [|done].
      destruct (proj2 Hpar) as [vals Hvals']; [by eexists|done].
    + intros t' Hne. by rewrite !dd_store_None, !dd_read_None.
Qed.

Lemma expected_at_parallel (cols : list Z) (traj_col : Z)
    (rows : list (list Qc)) (t : Qc) (j : nat) :
  is_Some (expected_at id cols traj_col rows t j)
  ↔ is_Some (expected_at (λ _, 0) cols traj_col rows t j).
Proof.
  unfold expected_at. destruct (cols !! j); [|done].
  destruct (rows_of_traj traj_col t rows); [done|]. split; by eexists.
Qed.

(** The loop over the columns, line 43, from column [j] on. *)
Lemma columns_loop (cols : list Z) (traj_col : Z) (rows : list (list Qc))
    (line : list Qc) (t : Qc) :
  getitem line traj_col = inr t →
  Forall (λ col, ∃ x, getitem line col = inr x) cols →
  ∀ (k j : nat) (st : series),
    (j + k = length cols)%nat →
    series_read_partly cols traj_col rows line t j st →
    ∃ st', for_each (drop j (enumerate cols))
             (λ _ '(res_id, col), record_value line t res_id col) tt st
           = Return tt st'
         ∧ series_read_partly cols traj_col rows line t (length cols) st'.
Proof.
  intros Ht Hcols. induction k as [|k IH]; intros j st Hjk Hinv.
  - exists st. rewrite drop_ge by (unfold enumerate; rewrite length_imap; lia).
    split; [done|]. by replace (length cols) with j by lia.
  - destruct (lookup_lt_is_Some_2 cols j) as [col Hcol]; [lia|].
    assert (Henum : enumerate cols !! j = Some (j, col)).
    { unfold enumerate. by rewrite list_lookup_imap, Hcol. }
    rewrite (drop_S _ _ _ Henum). cbn [for_each]. unfold bind at 1.
    destruct Hinv as (Hdih & Htime & Hkeys).
    assert (Hdj : series_at (dihedral_per_traj st) t j
                  = expected_at id cols traj_col rows t j).
    { rewrite Hdih. apply decide_False. lia. }
    assert (Htj : series_at (time_per_traj st) t j
                  = expected_at (λ _, 0) cols traj_col rows t j).
    { rewrite Htime. apply decide_False. lia. }
    destruct (record_value_step line t j col st)
      as (st1 & Hrun & Hdih1 & Htime1 & Hkeys1).
    { rewrite Forall_lookup in Hcols. by apply (Hcols j). }
    { apply (getitem_first line traj_col). by eexists. }
    { rewrite Hdj, Htj. apply expected_at_parallel. }
    rewrite Hrun. apply IH; [lia|]. split; [|split].
    + intros t' j'. rewrite Hdih1, Hdj, Hdih.
      destruct (decide (t' = t ∧ j' = j)) as [[-> ->]|Hne].
      * rewrite decide_True by (split; [done|lia]).
        by rewrite (expected_at_snoc id cols traj_col rows line t j col).
      * destruct (decide (t' = t ∧ (j' < j)%nat)) as [[-> Hlt]|Hnlt].
        -- by rewrite decide_True by (split; [done|lia]).
        -- rewrite decide_False; [done|]. intros [-> Hlt].
           destruct (decide (j' = j)) as [->|]; [by apply Hne|].
           apply Hnlt. split; [done|lia].
    + intros t' j'. rewrite Htime1, Htj, Htime.
      destruct (decide (t' = t ∧ j' = j)) as [[-> ->]|Hne].
      * rewrite decide_True by (split; [done|lia]).
        by rewrite (expected_at_snoc (λ _, 0) cols traj_col rows line t j col).
      * destruct (decide (t' = t ∧ (j' < j)%nat)) as [[-> Hlt]|Hnlt].
        -- by rewrite decide_True by (split; [done|lia]).
        -- rewrite decide_False; [done|]. intros [-> Hlt].
           destruct (decide (j' = j)) as [->|]; [by apply Hne|].
           apply Hnlt. split; [done|lia].
    + intros t' Hne Hnil. destruct (Hkeys1 t' Hne) as [-> ->]. by apply Hkeys.
Qed.

(** The loop over the rows, line 41, after the rows [prefix]. *)
Lemma lines_loop (cols : list Z) (traj_col : Z) (rest : list (list Qc)) :
  Forall (λ line, (∃ t, getitem line traj_col = inr t)
                  ∧ Forall (λ col, ∃ x, getitem line col = inr x) cols) rest →
  ∀ (prefix : list (list Qc)) (st : series),
    series_read cols traj_col prefix st →
    ∃ st', for_each rest (λ _ line,
             let! traj_id := lift (getitem line traj_col) in
             for_each (enumerate cols) (λ _ '(res_id, col),
               record_value line traj_id res_id col) tt) tt st
           = Return tt st'
         ∧ series_read cols traj_col (prefix ++ rest) st'.
Proof.
  induction 1 as [|line rest [[t Ht] Hcols] _ IH]; intros prefix st Hinv.
  - exists st. by rewrite app_nil_r.
  - cbn [for_each]. unfold bind at 1. unfold bind at 1. rewrite Ht. simpl.
    destruct Hinv as (Hdih & Htime & Hkeys).
    destruct (columns_loop cols traj_col prefix line t Ht Hcols
                (length cols) 0%nat st) as (st1 & Hrun & Hdih1 & Htime1 & Hkeys1);
      [done| |].
    { split; [|split].
      - intros t' j. rewrite Hdih. rewrite decide_False; [done|]. lia.
      - intros t' j. rewrite Htime. rewrite decide_False; [done|]. lia.
      - intros t' _ Hnil. by apply Hkeys. }
    rewrite drop_0 in Hrun. unfold ret. rewrite Hrun.
    rewrite (cons_middle line prefix rest), app_assoc. apply IH.
    split; [|split].
    + intros t' j. rewrite Hdih1.
      destruct (decide (t' = t ∧ (j < length cols)%nat)) as [[-> Hlt]|Hn]; [done|].
      destruct (decide (t' = t)) as [->|Hne].
      * rewrite !expected_at_no_column; [done| |];
          apply lookup_ge_None_2; destruct (decide (j < length cols)%nat);
          [exfalso; by apply Hn|lia|exfalso; by apply Hn|lia].
      * by rewrite (expected_at_snoc_other _ _ _ _ _ t t').
    + intros t' j. rewrite Htime1.
      destruct (decide (t' = t ∧ (j < length cols)%nat)) as [[-> Hlt]|Hn]; [done|].
      destruct (decide (t' = t)) as [->|Hne].
      * rewrite !expected_at_no_column; [done| |];
          apply lookup_ge_None_2; destruct (decide (j < length cols)%nat);
          [exfalso; by apply Hn|lia|exfalso; by apply Hn|lia].
      * by rewrite (expected_at_snoc_other _ _ _ _ _ t t').
    + intros t' Hnil. rewrite rows_of_traj_snoc in Hnil.
      apply app_eq_nil in Hnil as [Hnil Hlast].
      apply Hkeys1; [|done]. intros ->. by rewrite decide_True in Hlast.
Qed.

(** C7.  When every row has the trajectory column and the requested
    columns, [compute_dihedral_timeseries] returns two maps that, for
    every trajectory [t] with rows r1..rn (in the order of the input)
    and every series index [j] with column [col], hold exactly
    [[r1[col], ..., rn[col]]] and [[r1[0], ..., rn[0]]]; the maps have
    no other trajectory and no other series. *)
Theorem dihedral_timeseries_in_order (data_lines : list (list Qc))
    (dihedral_cols : list Z) (traj_col : Z) :
  Forall (λ line, (∃ t, getitem line traj_col = inr t)
                  ∧ Forall (λ col, ∃ x, getitem line col = inr x) dihedral_cols)
         data_lines →
  ∃ dmap tmap st,
    compute_dihedral_timeseries data_lines dihedral_cols traj_col
      = Return (dmap, tmap) st
    ∧ ∀ t,
        (rows_of_traj traj_col t data_lines = [] →
           dmap !! t = None ∧ tmap !! t = None)
        ∧ (∀ j, dihedral_cols !! j = None →
             series_at dmap t j = None ∧ series_at tmap t j = None)
        ∧ (rows_of_traj traj_col t data_lines ≠ [] →
           ∀ j col, dihedral_cols !! j = Some col →
             ∃ vals times,
               comprehension (λ r, getitem r col)
                 (rows_of_traj traj_col t data_lines) = inr vals
               ∧ comprehension (λ r, getitem r 0)
                   (rows_of_traj traj_col t data_lines) = inr times
               ∧ series_at dmap t j = Some vals
               ∧ series_at tmap t j = Some times).
Proof.
  intros Hvalid.
  destruct (lines_loop dihedral_cols traj_col data_lines Hvalid [] (Series ∅ ∅))
    as (st & Hrun & Hdih & Htime & Hkeys).
  { split; [|split].
    - intros t j. unfold series_at, expected_at. simpl. rewrite lookup_empty.
      simpl. by destruct (dihedral_cols !! j).
    - intros t j. unfold series_at, expected_at. simpl. rewrite lookup_empty.
      simpl. by destruct (dihedral_cols !! j).
    - intros t _. simpl. by rewrite !lookup_empty. }
  simpl in Hdih, Htime, Hkeys.
  exists (dihedral_per_traj st), (time_per_traj st), st. split.
  { unfold compute_dihedral_timeseries, bind at 1. by rewrite Hrun. }
  intros t. split; [apply Hkeys|]. split.
  - intros j Hj. by rewrite Hdih, Htime, !expected_at_no_column.
  - intros Hrows j col Hcol.
    assert (Hsub : Forall (λ line, (∃ x, getitem line col = inr x)
                                   ∧ ∃ x, getitem line 0 = inr x)
                          (rows_of_traj traj_col t data_lines)).
    { apply Forall_forall. intros line Hin.
      apply list_elem_of_filter in Hin as [_ Hin].
      rewrite Forall_forall in Hvalid. destruct (Hvalid line Hin) as [Htraj Hcols].
      split; [|by eapply getitem_first].
      rewrite Forall_lookup in Hcols. by apply (Hcols j). }
    exists (item col <$> rows_of_traj traj_col t data_lines),
           (item 0 <$> rows_of_traj traj_col t data_lines).
    split; [apply comprehension_item; by eapply Forall_impl; [exact Hsub|intros ? []]|].
    split; [apply comprehension_item; by eapply Forall_impl; [exact Hsub|intros ? []]|].
    rewrite Hdih, Htime. unfold expected_at. rewrite Hcol.
    by destruct (rows_of_traj traj_col t data_lines).
Qed.

Lemma dihedral_timeseries_in_order_witness :
  ∃ dmap tmap st,
    compute_dihedral_timeseries rows_angles [1; 0] 2 = Return (dmap, tmap) st
    ∧ ∀ t,
        (rows_of_traj 2 t rows_angles = [] → dmap !! t = None ∧ tmap !! t = None)
        ∧ (∀ j, [1; 0] !! j = None →
             series_at dmap t j = None ∧ series_at tmap t j = None)
        ∧ (rows_of_traj 2 t rows_angles ≠ [] →
           ∀ j col, [1; 0] !! j = Some col →
             ∃ vals times,
               comprehension (λ r, getitem r col) (rows_of_traj 2 t rows_angles)
                 = inr vals
               ∧ comprehension (λ r, getitem r 0) (rows_of_traj 2 t rows_angles)
                   = inr times
               ∧ series_at dmap t j = Some vals
               ∧ series_at tmap t j = Some times).
Proof.
  apply (dihedral_timeseries_in_order rows_angles [1; 0] 2).
  repeat constructor; eexists; vm_compute; reflexivity.
Defined.

End SeriesFacts.

(** ** The histograms of numpy *)

Module NumpyFacts.
Import Py PyFacts Numpy.

Lemma of_int_Qc_of_Z (z : Z) : of_int z = Qc_of_Z z.
Proof. apply Qc_is_canon. simpl. apply Qred_correct. Qed.

Lemma of_int_nonneg (z : Z) : 0 ≤ z → (0 ≤ of_int z)%Qc.
Proof.
  intros H. rewrite of_int_Qc_of_Z, <- Z2Qc_inj_0.
  by apply (proj1 (Z2Qc_inj_le 0 z)).
Qed.

Lemma of_int_pos (z : Z) : 0 < z → (0 < of_int z)%Qc.
Proof.
  intros H. rewrite of_int_Qc_of_Z, <- Z2Qc_inj_0.
  by apply (proj1 (Z2Qc_inj_lt 0 z)).
Qed.

Lemma of_int_succ (z : Z) : of_int (z + 1) = (of_int z + 1)%Qc.
Proof. by rewrite of_int_add. Qed.

Lemma Qcdiv_nonneg (a b : Qc) : (0 ≤ a → 0 < b → 0 ≤ a / b)%Qc.
Proof.
  intros Ha Hb. unfold Qcdiv. apply Qcmult_nonneg_nonneg; [done|].
  by apply Qclt_le_weak, Qcinv_pos.
Qed.

Lemma Qcdiv_pos (a b : Qc) : (0 < a → 0 < b → 0 < a / b)%Qc.
Proof.
  intros Ha Hb. unfold Qcdiv. apply Qcmult_pos_pos; [done|].
  by apply Qcinv_pos.
Qed.

Lemma sum_nonneg (l : list Z) : Forall (λ z, 0 ≤ z) l → 0 ≤ sum l.
Proof.
  induction 1 as [|z l Hz _ IH]; [by rewrite sum_nil|].
  rewrite sum_cons. lia.
Qed.

(** The range that is binned is not empty. *)
Lemma bin_range_lt (mn mx lo hi : Qc) :
  bin_range mn mx = inr (lo, hi) → (lo < hi)%Qc.
Proof.
  unfold bin_range.
  destruct (bool_decide_reflect (mx < mn)%Qc) as [|Hnlt]; [done|].
  destruct (bool_decide_reflect (mn = mx)) as [->|Hne]; intros [= <- <-].
  - apply Qclt_minus_iff.
    replace (mx + Q2Qc (1 # 2) + - (mx - Q2Qc (1 # 2)))%Qc with 1%Qc;
      [reflexivity|].
    ring_simplify. by apply Qc_is_canon.
  - apply Qcnot_lt_le in Hnlt.
    destruct (Qcle_lt_or_eq _ _ Hnlt) as [?|?]; [done|congruence].
Qed.

Lemma bin_range_id (mn mx : Qc) : (mn < mx)%Qc → bin_range mn mx = inr (mn, mx).
Proof.
  intros Hlt. unfold bin_range.
  rewrite bool_decide_eq_false_2 by (by apply Qcle_not_lt, Qclt_le_weak).
  rewrite bool_decide_eq_false_2; [done|]. by apply Qclt_not_eq.
Qed.

(** The edges. *)
Lemma length_linspace (lo hi : Qc) (bins : Z) :
  length (linspace lo hi bins) = Z.to_nat (bins + 1).
Proof. unfold linspace. by rewrite length_fmap, length_range. Qed.

Lemma lookup_linspace (lo hi : Qc) (bins : Z) (i : nat) :
  (i < Z.to_nat (bins + 1))%nat →
  linspace lo hi bins !! i
  = Some (lo + of_int (Z.of_nat i) * ((hi - lo) / of_int bins))%Qc.
Proof.
  intros Hi. unfold linspace. by rewrite list_lookup_fmap, lookup_range.
Qed.

Lemma linspace_first (lo hi : Qc) (bins : Z) :
  0 ≤ bins → linspace lo hi bins !! 0%nat = Some lo.
Proof.
  intros Hb. rewrite lookup_linspace by lia. f_equal.
  change (of_int (Z.of_nat 0)) with 0%Qc. ring.
Qed.

Lemma linspace_last (lo hi : Qc) (bins : Z) :
  1 ≤ bins → linspace lo hi bins !! Z.to_nat bins = Some hi.
Proof.
  intros Hb. rewrite lookup_linspace by lia. f_equal. rewrite Z2Nat.id by lia.
  assert (of_int bins ≠ 0%Qc).
  { apply not_eq_sym, Qclt_not_eq, of_int_pos. lia. }
  field. done.
Qed.

Lemma width_linspace (lo hi : Qc) (bins : Z) (i : nat) :
  (i < Z.to_nat bins)%nat →
  width (linspace lo hi bins) i = ((hi - lo) / of_int bins)%Qc.
Proof.
  intros Hi. unfold width. rewrite !lookup_linspace by lia.
  cbn [default]. unfold id. rewrite Nat2Z.inj_succ. unfold Z.succ.
  rewrite of_int_succ. ring.
Qed.

Lemma width_pos (lo hi : Qc) (bins : Z) (i : nat) :
  (lo < hi)%Qc → (i < Z.to_nat bins)%nat →
  (0 < width (linspace lo hi bins) i)%Qc.
Proof.
  intros Hlt Hi. rewrite width_linspace by done. apply Qcdiv_pos.
  - apply Qclt_minus_iff in Hlt. by unfold Qcminus.
  - apply of_int_pos. lia.
Qed.

(** The densities of a normed 2D histogram are not negative. *)
Lemma histogram2d_nonneg (x y : list Qc) (mn mx : Qc) (bins : Z)
    (histo : list (list Qc)) (xedges yedges : list Qc) :
  histogram2d x y mn mx bins = inr (Grid histo, xedges, yedges) →
  ∀ i j p, Histograms.cell histo i j = Some p → (0 ≤ p)%Qc.
Proof.
  unfold histogram2d. destruct (negb _); [done|].
  destruct (bins <? 1) eqn:Hbins; [done|]. apply Z.ltb_ge in Hbins.
  destruct (bin_range mn mx) as [e|[lo hi]] eqn:Hrange; [done|]. simpl.
  apply bin_range_lt in Hrange.
  match goal with |- context [sum ?l =? 0] => set (s := sum l) end.
  destruct (s =? 0) eqn:Hs; [done|]. apply Z.eqb_neq in Hs.
  intros [= <- _ _] i j p Hcell.
  assert (Hpos : 0 < s).
  { assert (0 ≤ s); [|lia]. apply sum_nonneg, Forall_forall.
    intros z Hz. apply elem_of_concat in Hz as (r & Hz & Hr).
    apply list_elem_of_fmap in Hr as (i' & -> & _).
    apply list_elem_of_fmap in Hz as (j' & -> & _). apply Nat2Z.is_nonneg. }
  unfold Histograms.cell in Hcell. rewrite list_lookup_fmap in Hcell.
  destruct (seq 0 (Z.to_nat bins) !! i) as [i'|] eqn:Hi; [|done].
  simpl in Hcell. rewrite list_lookup_fmap in Hcell.
  destruct (seq 0 (Z.to_nat bins) !! j) as [j'|] eqn:Hj; [|done].
  simpl in Hcell. injection Hcell as <-.
  apply lookup_seq in Hi as [-> Hi]. apply lookup_seq in Hj as [-> Hj].
  apply Qcdiv_nonneg; [|by apply of_int_pos].
  apply Qcdiv_nonneg; [|by apply width_pos].
  apply Qcdiv_nonneg; [|by apply width_pos].
  apply of_int_nonneg, Nat2Z.is_nonneg.
Qed.

(** The counts between two edges. *)
Lemma count_lt_cons (e x : Qc) (a : list Qc) :
  count_lt e (x :: a) = (if decide (x < e)%Qc then 1 else 0) + count_lt e a.
Proof.
  unfold count_lt. rewrite filter_cons. destruct (decide (x < e)%Qc); simpl; lia.
Qed.

Lemma count_le_cons (e x : Qc) (a : list Qc) :
  count_le e (x :: a) = (if decide (x ≤ e)%Qc then 1 else 0) + count_le e a.
Proof.
  unfold count_le. rewrite filter_cons. destruct (decide (x ≤ e)%Qc); simpl; lia.
Qed.

Lemma count_lt_lt (e e' : Qc) (a : list Qc) :
  (e ≤ e')%Qc →
  count_lt e' a - count_lt e a
  = Z.of_nat (length (filter (λ v, e ≤ v ∧ v < e')%Qc a)).
Proof.
  intros Hle. induction a as [|x a IH]; [done|].
  rewrite !count_lt_cons, filter_cons.
  destruct (decide (x < e)%Qc) as [H1|H1], (decide (x < e')%Qc) as [H2|H2],
    (decide (e ≤ x ∧ x < e')%Qc) as [[H3 H4]|H3]; simpl; try lia.
  - exfalso. by apply (Qclt_not_le x e).
  - exfalso. apply H2. by eapply Qclt_le_trans.
  - exfalso. apply H2. by eapply Qclt_le_trans.
  - exfalso. apply H3. split; [by apply Qcnot_lt_le|done].
  - done.
Qed.

Lemma count_le_lt (e e' : Qc) (a : list Qc) :
  (e ≤ e')%Qc →
  count_le e' a - count_lt e a
  = Z.of_nat (length (filter (λ v, e ≤ v ∧ v ≤ e')%Qc a)).
Proof.
  intros Hle. induction a as [|x a IH]; [done|].
  rewrite count_lt_cons, count_le_cons, filter_cons.
  destruct (decide (x < e)%Qc) as [H1|H1], (decide (x ≤ e')%Qc) as [H2|H2],
    (decide (e ≤ x ∧ x ≤ e')%Qc) as [[H3 H4]|H3]; simpl; try lia.
  - exfalso. by apply (Qclt_not_le x e).
  - exfalso. apply H2. apply Qclt_le_weak. by eapply Qclt_le_trans.
  - exfalso. apply H2. apply Qclt_le_weak. by eapply Qclt_le_trans.
  - exfalso. apply H3. split; [by apply Qcnot_lt_le|done].
  - done.
Qed.

(** The sum of the differences telescopes. *)
Lemma sum_diff (c : list Z) (c0 z : Z) :
  last (c0 :: c) = Some z → sum (diff (c0 :: c)) = z - c0.
Proof.
  revert c0. induction c as [|c1 c IH]; intros c0.
  - simpl. intros [= <-]. unfold diff. simpl. rewrite sum_nil. lia.
  - rewrite last_cons_cons. intros Hlast.
    change (diff (c0 :: c1 :: c)) with ((c1 - c0) :: diff (c1 :: c)).
    rewrite sum_cons, (IH c1 Hlast). lia.
Qed.

Lemma length_diff (c : list Z) : length (diff c) = pred (length c).
Proof.
  unfold diff. rewrite length_zip_with. destruct c; simpl; [done|]. lia.
Qed.

Lemma lookup_diff (c : list Z) (i : nat) (u v : Z) :
  c !! i = Some u → c !! S i = Some v → diff c !! i = Some (v - u).
Proof.
  intros Hu Hv. unfold diff. rewrite lookup_zip_with, lookup_tail, Hv. simpl.
  by rewrite Hu.
Qed.

(** The edges do not decrease. *)
Lemma linspace_step (lo hi : Qc) (bins : Z) (i : nat) (e e' : Qc) :
  (lo < hi)%Qc → (i < Z.to_nat bins)%nat →
  linspace lo hi bins !! i = Some e →
  linspace lo hi bins !! S i = Some e' →
  (e ≤ e')%Qc.
Proof.
  intros Hlt Hi He He'. pose proof (width_pos lo hi bins i Hlt Hi) as Hw.
  unfold width in Hw. rewrite He, He' in Hw. simpl in Hw.
  apply Qclt_le_weak, Qclt_minus_iff. by unfold Qcminus in Hw.
Qed.

(** The counts of [histogram], bin by bin, and their sum. *)
Lemma histogram_bins (a : list Qc) (mn mx : Qc) (bins : Z) :
  (mn < mx)%Qc → 1 ≤ bins →
  ∃ histo, histogram a mn mx bins = inr (histo, linspace mn mx bins)
    ∧ length histo = Z.to_nat bins
    ∧ sum histo = Z.of_nat (length (filter (λ v, mn ≤ v ∧ v ≤ mx)%Qc a))
    ∧ ∀ i, (i < Z.to_nat bins)%nat →
        histo !! i
        = Some (Z.of_nat (length (filter
                  (λ v, in_bin (linspace mn mx bins) bins i v = true) a))).
Proof.
  intros Hlt Hbins. unfold histogram.
  replace (bins <? 1) with false by lia. rewrite bin_range_id by done. simpl.
  set (edges := linspace mn mx bins).
  set (cum := ((λ e, count_lt e a) <$> take (Z.to_nat bins) edges) ++ [count_le mx a]).
  exists (diff cum). split; [done|].
  assert (Hlen : length edges = S (Z.to_nat bins)).
  { unfold edges. rewrite length_linspace. lia. }
  assert (Hcum_len : length cum = S (Z.to_nat bins)).
  { unfold cum. rewrite length_app, length_fmap, length_take. simpl. lia. }
  assert (Hcum_lt : ∀ i e, (i < Z.to_nat bins)%nat → edges !! i = Some e →
                           cum !! i = Some (count_lt e a)).
  { intros i e Hi He. unfold cum. rewrite lookup_app_l.
    - by rewrite list_lookup_fmap, lookup_take_lt, He.
    - rewrite length_fmap, length_take. lia. }
  assert (Hcum_last : cum !! Z.to_nat bins = Some (count_le mx a)).
  { unfold cum. rewrite lookup_app_r; rewrite length_fmap, length_take; [|lia].
    replace (Z.to_nat bins - Z.to_nat bins `min` length edges)%nat with 0%nat by lia.
    done. }
  split; [rewrite length_diff; lia|]. split.
  - pose proof (Hcum_lt 0%nat mn ltac:(lia) (linspace_first mn mx bins ltac:(lia)))
      as Hfirst.
    assert (Hlast : last cum = Some (count_le mx a)) by apply last_snoc.
    destruct cum as [|c0 cum'] eqn:Hc; [done|]. injection Hfirst as ->.
    rewrite (sum_diff _ _ _ Hlast). apply count_le_lt. by apply Qclt_le_weak.
  - intros i Hi.
    destruct (lookup_lt_is_Some_2 edges i) as [e He]; [lia|].
    destruct (lookup_lt_is_Some_2 edges (S i)) as [e' He']; [lia|].
    pose proof (linspace_step mn mx bins i e e' Hlt Hi He He') as Hle.
    destruct (decide (S i = Z.to_nat bins)) as [Heq|Hne].
    + assert (e' = mx) as ->.
      { rewrite Heq in He'. unfold edges in He'.
        rewrite linspace_last in He' by done. congruence. }
      rewrite (lookup_diff cum i (count_lt e a) (count_le mx a));
        [|by apply Hcum_lt|by rewrite Heq].
      rewrite count_le_lt by done. do 3 f_equal. apply list_filter_iff.
      intros v. unfold in_bin. fold edges. rewrite He, He'.
      rewrite andb_true_iff, orb_true_iff, andb_true_iff, !bool_decide_eq_true.
      split.
      * intros [H1 H2]. split; [done|].
        destruct (Qcle_lt_or_eq _ _ H2) as [?|?]; [by left|right].
        split; [lia|done].
      * intros [H1 [H2|[_ ->]]].
        -- split; [done|by apply Qclt_le_weak].
        -- split; [done|apply Qcle_refl].
    + rewrite (lookup_diff cum i (count_lt e a) (count_lt e' a));
        [|by apply Hcum_lt|apply Hcum_lt; [lia|done]].
      rewrite count_lt_lt by done. do 3 f_equal. apply list_filter_iff.
      intros v. unfold in_bin. fold edges. rewrite He, He'.
      rewrite andb_true_iff, orb_true_iff, andb_true_iff, !bool_decide_eq_true.
      split.
      * intros [H1 H2]. split; [done|by left].
      * intros [H1 [H2|[Hb _]]]; [done|lia].
Qed.

End NumpyFacts.

(** ** The free-energy surface *)

Module SurfaceFacts.
Import Py PyFacts Numpy NumpyFacts Histograms.

Lemma Qcmin_spec (a b : Qc) :
  (Qcmin a b = a ∨ Qcmin a b = b) ∧ (Qcmin a b ≤ a)%Qc ∧ (Qcmin a b ≤ b)%Qc.
Proof.
  unfold Qcmin. destruct (Qclt_le_dec b a) as [Hlt|Hle].
  - split; [by right|]. split; [by apply Qclt_le_weak|apply Qcle_refl].
  - split; [by left|]. split; [apply Qcle_refl|done].
Qed.

Lemma foldl_min_spec (l : list Qc) (a : Qc) :
  (foldl Qcmin a l = a ∨ foldl Qcmin a l ∈ l)
  ∧ (foldl Qcmin a l ≤ a)%Qc
  ∧ ∀ x, x ∈ l → (foldl Qcmin a l ≤ x)%Qc.
Proof.
  revert a. induction l as [|y l IH]; intros a; simpl.
  - split; [by left|]. split; [apply Qcle_refl|]. by intros x ?%elem_of_nil.
  - destruct (IH (Qcmin a y)) as (Hin & Hle & Hall).
    destruct (Qcmin_spec a y) as (Hor & Hma & Hmy).
    split; [|split].
    + destruct Hin as [->|Hin]; [|right; by right].
      destruct Hor as [->| ->]; [by left|right; by left].
    + by eapply Qcle_trans.
    + intros x [->|Hx]%elem_of_cons; [by eapply Qcle_trans|by apply Hall].
Qed.

(** [min] returns a least element of a non-empty list. *)
Lemma min_spec (l : list Qc) (m : Qc) :
  min l = inr m → m ∈ l ∧ ∀ x, x ∈ l → (m ≤ x)%Qc.
Proof.
  destruct l as [|a l]; [done|]. simpl. intros [= <-].
  destruct (foldl_min_spec l a) as (Hin & Hle & Hall). split.
  - destruct Hin as [->|Hin]; [by left|by right].
  - intros x [->|Hx]%elem_of_cons; [done|by apply Hall].
Qed.

Lemma min_returns (l : list Qc) : l ≠ [] → ∃ m, min l = inr m.
Proof. destruct l; [done|]. by eexists. Qed.

Lemma min_raises (l : list Qc) (e : exn) : min l = inl e → l = [] ∧ e = ValueError.
Proof. destruct l; [|done]. by intros [= <-]. Qed.

Lemma cell_map2 {A B} (f : A → B) (histo : list (list A)) (i j : nat) :
  cell (map2 f histo) i j = f <$> cell histo i j.
Proof.
  unfold cell, map2. rewrite list_lookup_fmap.
  destruct (histo !! i) as [r|]; [|done]. simpl. by rewrite list_lookup_fmap.
Qed.

Lemma map2_ext {A B} (f g : A → B) (histo : list (list A)) :
  (∀ x, f x = g x) → map2 f histo = map2 g histo.
Proof.
  intros H. unfold map2. apply list_fmap_ext. intros _ r _.
  apply list_fmap_ext. by intros.
Qed.

Lemma map2_id {A} (histo : list (list A)) : map2 id histo = histo.
Proof.
  unfold map2. rewrite <- (list_fmap_id histo) at 2.
  apply list_fmap_ext. intros _ r _. apply list_fmap_id.
Qed.

Lemma mask_update_row (g : Qc → bool) (f k : Qc → Qc) (r : list Qc) :
  zip_with (λ (b : bool) v, if b then f v else v) (g <$> r) (k <$> r)
  = (λ p, if g p then f (k p) else k p) <$> r.
Proof.
  induction r as [|p r IH]; [done|].
  rewrite !fmap_cons. cbn [zip_with]. by rewrite IH.
Qed.

Lemma mask_update_map2 (g : Qc → bool) (f k : Qc → Qc) (histo : list (list Qc)) :
  mask_update (map2 g histo) f (map2 k histo)
  = map2 (λ p, if g p then f (k p) else k p) histo.
Proof.
  unfold mask_update, map2. induction histo as [|r histo IH]; [done|].
  rewrite !fmap_cons. cbn [zip_with]. by rewrite IH, mask_update_row.
Qed.

Lemma mask_update_self (g : Qc → bool) (f : Qc → Qc) (histo : list (list Qc)) :
  mask_update (map2 g histo) f histo = map2 (λ p, if g p then f p else p) histo.
Proof.
  rewrite <- (map2_id histo) at 2. by rewrite mask_update_map2.
Qed.

Lemma mask_select_row (g : Qc → bool) (k : Qc → Qc) (r : list Qc) :
  zip (g <$> r) (k <$> r) ≫= (λ '(b, v), if b : bool then [v] else [])
  = k <$> filter (λ p, g p = true) r.
Proof.
  induction r as [|p r IH]; [done|].
  rewrite !fmap_cons. cbn [zip_with]. rewrite bind_cons, IH, filter_cons.
  destruct (g p) eqn:Hg.
  - by rewrite decide_True by done.
  - by rewrite decide_False by done.
Qed.

Lemma mask_select_map2 (g : Qc → bool) (k : Qc → Qc) (histo : list (list Qc)) :
  mask_select (map2 g histo) (map2 k histo)
  = k <$> filter (λ p, g p = true) (concat histo).
Proof.
  unfold mask_select, map2. induction histo as [|r histo IH]; [done|].
  rewrite !fmap_cons. cbn [zip_with concat]. rewrite IH, mask_select_row.
  by rewrite filter_app, fmap_app.
Qed.

(** Lines 93-101 in one pass: the energies of the cells with a positive
    value, their minimum, and the surface. *)
Lemma energy_surface_cells (log : Qc → Qc) (kBT max_eng : Qc)
    (histo : list (list Qc)) :
  energy_surface log kBT max_eng histo
  = match min ((λ p, - kBT * log p)%Qc <$> filter (λ p, 0 < p)%Qc (concat histo)) with
    | inl e => inl e
    | inr min_val =>
        inr (map2 (λ p, if bool_decide (0 < p)%Qc
                        then (- kBT * log p - abs min_val)%Qc
                        else max_eng) histo)
    end.
Proof.
  unfold energy_surface. cbv zeta.
  change (low_val_indices histo) with (map2 (λ p, bool_decide (p ≤ 0)%Qc) histo).
  change (high_val_indices histo) with (map2 (λ p, bool_decide (0 < p)%Qc) histo).
  rewrite mask_update_self, !mask_update_map2.
  rewrite (map2_ext _ (λ p, if bool_decide (0 < p)%Qc
                            then (- kBT * log p)%Qc else max_eng)).
  2: { intros p. unfold id. destruct (bool_decide_reflect (0 < p)%Qc) as [Hp|Hp].
       - rewrite bool_decide_eq_false_2; [done|]. by apply Qclt_not_le.
       - rewrite bool_decide_eq_true_2; [done|]. by apply Qcnot_lt_le. }
  rewrite mask_select_map2.
  rewrite (list_filter_iff (λ p, bool_decide (0 < p)%Qc = true) (λ p, 0 < p)%Qc).
  2: { intros p. apply bool_decide_eq_true. }
  rewrite (list_fmap_ext _ (λ p, - kBT * log p)%Qc
             (filter (λ p, 0 < p)%Qc (concat histo))).
  2: { intros _ p Hp%list_elem_of_lookup_2%list_elem_of_filter.
       by rewrite bool_decide_eq_true_2 by apply Hp. }
  destruct (min _) as [e|min_val]; [done|]. simpl.
  rewrite mask_update_map2. f_equal. apply map2_ext.
  intros p. by destruct (bool_decide (0 < p)%Qc).
Qed.

(** The surface depends on [log] at positive arguments only: the
    logarithm of a zero density is never taken. *)
Lemma energy_surface_log_ext (log log' : Qc → Qc) (kBT max_eng : Qc)
    (histo : list (list Qc)) :
  (∀ p, (0 < p)%Qc → log' p = log p) →
  energy_surface log' kBT max_eng histo = energy_surface log kBT max_eng histo.
Proof.
  intros Hext. rewrite !energy_surface_cells.
  rewrite (list_fmap_ext (λ p, - kBT * log' p)%Qc (λ p, - kBT * log p)%Qc
             (filter (λ p, 0 < p)%Qc (concat histo))).
  2: { intros _ p Hp%list_elem_of_lookup_2%list_elem_of_filter.
       by rewrite Hext by apply Hp. }
  destruct (min _) as [e|min_val]; [done|]. f_equal. apply map2_ext.
  intros p. destruct (bool_decide_reflect (0 < p)%Qc) as [Hp|Hp]; [|done].
  by rewrite Hext.
Qed.

Lemma compute_rotamer_rotamer_histogram_log_ext (log log' : Qc → Qc)
    (data_lines : list (list Qc)) (chi1_cols chi2_cols : list Z)
    (kBT max_eng histmin histmax : Qc) (histbins : Z) :
  (∀ p, (0 < p)%Qc → log' p = log p) →
  compute_rotamer_rotamer_histogram log' data_lines chi1_cols chi2_cols
    kBT max_eng histmin histmax histbins
  = compute_rotamer_rotamer_histogram log data_lines chi1_cols chi2_cols
      kBT max_eng histmin histmax histbins.
Proof.
  intros Hext. unfold compute_rotamer_rotamer_histogram, try.
  destruct (comprehension _ data_lines) as [e|vals]; [done|].
  destruct (histogram2d _ _ _ _ _) as [e|[[d xe] ye]]; [done|].
  destruct d as [histo|]; [|done]. by rewrite (energy_surface_log_ext log log').
Qed.

Lemma comprehension_pair {A B C} (f : A → exn + B) (g : A → exn + C) (l : list A) :
  ∀ vals,
    comprehension (λ a, try! b := f a in try! c := g a in inr (b, c)) l = inr vals →
    comprehension f l = inr vals.*1 ∧ comprehension g l = inr vals.*2.
Proof.
  induction l as [|a l IH]; intros vals.
  - simpl. by intros [= <-].
  - cbn [comprehension]. unfold try at 1 2 3.
    destruct (f a) as [e|b]; [done|]. destruct (g a) as [e|c]; [done|].
    destruct (comprehension _ l) as [e|vals'] eqn:Hrest; [done|].
    cbn [try]. intros [= <-]. destruct (IH vals' eq_refl) as [-> ->]. done.
Qed.

Lemma pooled_both (chi1_cols chi2_cols : list Z) (data_lines : list (list Qc)) :
  ∀ vals,
    comprehension (λ line,
      try! xs := comprehension (getitem line) chi1_cols in
      try! ys := comprehension (getitem line) chi2_cols in
      inr (xs, ys)) data_lines = inr vals →
    pooled data_lines chi1_cols = inr (concat vals.*1)
    ∧ pooled data_lines chi2_cols = inr (concat vals.*2).
Proof.
  intros vals Hvals.
  apply (comprehension_pair (λ line, comprehension (getitem line) chi1_cols)
           (λ line, comprehension (getitem line) chi2_cols)) in Hvals as [H1 H2].
  unfold pooled. by rewrite H1, H2.
Qed.

Lemma elem_of_cells {A} (histo : list (list A)) (p : A) :
  p ∈ concat histo ↔ ∃ i j, cell histo i j = Some p.
Proof.
  rewrite elem_of_concat. unfold cell. split.
  - intros (r & Hp & Hr). apply list_elem_of_lookup in Hr as [i Hi].
    apply list_elem_of_lookup in Hp as [j Hj]. exists i, j. by rewrite Hi.
  - intros (i & j & Hc). destruct (histo !! i) as [r|] eqn:Hi; [|done].
    exists r. split; [by eapply list_elem_of_lookup_2|by eapply list_elem_of_lookup_2].
Qed.

Lemma filter_nonzero_pos (l : list Qc) :
  Forall (λ p, 0 ≤ p)%Qc l →
  filter (λ p, p ≠ 0%Qc) l = filter (λ p, 0 < p)%Qc l.
Proof.
  induction 1 as [|p l Hp _ IH]; [done|]. rewrite !filter_cons, IH.
  destruct (decide (p ≠ 0%Qc)) as [Hne|Heq].
  - rewrite decide_True; [done|].
    destruct (Qcle_lt_or_eq _ _ Hp) as [?|?]; [done|congruence].
  - rewrite decide_False; [done|]. intros Hlt. apply Heq.
    by apply not_eq_sym, Qclt_not_eq.
Qed.

Section Surface.
Variable log : Qc → Qc.

(** What a returned surface is made of. *)
Lemma surface_inv (data_lines : list (list Qc)) (chi1_cols chi2_cols : list Z)
    (kBT max_eng histmin histmax : Qc) (histbins : Z)
    (surface : list (list Qc)) (xedges yedges : list Qc) :
  compute_rotamer_rotamer_histogram log data_lines chi1_cols chi2_cols
    kBT max_eng histmin histmax histbins = inr (surface, xedges, yedges) →
  ∃ x y histo min_val,
    pooled data_lines chi1_cols = inr x
    ∧ pooled data_lines chi2_cols = inr y
    ∧ histogram2d x y histmin histmax histbins = inr (Grid histo, xedges, yedges)
    ∧ (∀ i j p, cell histo i j = Some p → (0 ≤ p)%Qc)
    ∧ min ((λ p, - kBT * log p)%Qc <$> nonzero_cells histo) = inr min_val
    ∧ surface = map2 (λ p, if bool_decide (0 < p)%Qc
                           then (- kBT * log p - abs min_val)%Qc
                           else max_eng) histo.
Proof.
  unfold compute_rotamer_rotamer_histogram. unfold try at 1.
  destruct (comprehension _ data_lines) as [e|vals] eqn:Hvals; [done|].
  apply pooled_both in Hvals as [Hx Hy]. unfold try at 1.
  destruct (histogram2d _ _ _ _ _) as [e|[[d xe] ye]] eqn:Hh; [done|].
  destruct d as [histo|]; [|done]. rewrite energy_surface_cells.
  assert (Hnonneg : ∀ i j p, cell histo i j = Some p → (0 ≤ p)%Qc)
    by apply (histogram2d_nonneg _ _ _ _ _ _ _ _ Hh).
  assert (Hfilter : nonzero_cells histo = filter (λ p, 0 < p)%Qc (concat histo)).
  { apply filter_nonzero_pos, Forall_forall. intros p Hp.
    apply elem_of_cells in Hp as (i & j & Hc). by eapply Hnonneg. }
  rewrite <- Hfilter.
  destruct (min _) as [e|min_val] eqn:Hmin; [done|]. cbn [try].
  intros [= <- <- <-]. by exists (concat vals.*1), (concat vals.*2), histo, min_val.
Qed.

(** C4.  In a returned surface every cell of zero probability is
    [max_eng] exactly, every cell of the histogram has a value in the
    surface, and the least value of the cells of non-zero probability is
    attained: every such cell is at least the value of one of them.  The
    logarithm is taken of positive densities only (the surface is the
    same for any [log'] that agrees with [log] on them), so no cell is
    the logarithm of zero. *)
Theorem zero_cells_at_ceiling (data_lines : list (list Qc))
    (chi1_cols chi2_cols : list Z) (kBT max_eng histmin histmax : Qc)
    (histbins : Z) (surface : list (list Qc)) (xedges yedges : list Qc) :
  compute_rotamer_rotamer_histogram log data_lines chi1_cols chi2_cols
    kBT max_eng histmin histmax histbins = inr (surface, xedges, yedges) →
  ∃ x y histo,
    pooled data_lines chi1_cols = inr x
    ∧ pooled data_lines chi2_cols = inr y
    ∧ histogram2d x y histmin histmax histbins = inr (Grid histo, xedges, yedges)
    ∧ (∀ i j, is_Some (cell surface i j) ↔ is_Some (cell histo i j))
    ∧ (∀ i j, cell histo i j = Some 0%Qc → cell surface i j = Some max_eng)
    ∧ (∃ i0 j0 p0 least,
        cell histo i0 j0 = Some p0 ∧ p0 ≠ 0%Qc ∧ cell surface i0 j0 = Some least
        ∧ ∀ i j p, cell histo i j = Some p → p ≠ 0%Qc →
            ∃ v, cell surface i j = Some v ∧ (least ≤ v)%Qc)
    ∧ ∀ log', (∀ p, (0 < p)%Qc → log' p = log p) →
        compute_rotamer_rotamer_histogram log' data_lines chi1_cols chi2_cols
          kBT max_eng histmin histmax histbins = inr (surface, xedges, yedges).
Proof.
  intros Hrun. pose proof Hrun as Hrun'. apply surface_inv in Hrun
    as (x & y & histo & min_val & Hx & Hy & Hh & Hnonneg & Hmin & ->).
  exists x, y, histo. do 3 (split; [done|]). split; [|split; [|split]].
  4: { intros log' Hext.
       by rewrite (compute_rotamer_rotamer_histogram_log_ext log log'). }
  - intros i j. rewrite cell_map2. apply fmap_is_Some.
  - intros i j Hc. by rewrite cell_map2, Hc.
  - apply min_spec in Hmin as [Hin Hle].
    apply list_elem_of_fmap in Hin as (p0 & Hm & Hp0).
    apply list_elem_of_filter in Hp0 as [Hp0 Hin0].
    apply elem_of_cells in Hin0 as (i0 & j0 & Hc0).
    assert (Hpos : ∀ i j p, cell histo i j = Some p → p ≠ 0%Qc → (0 < p)%Qc).
    { intros i j p Hc Hne.
      destruct (Qcle_lt_or_eq _ _ (Hnonneg i j p Hc)) as [?|?]; [done|congruence]. }
    exists i0, j0, p0, (min_val - abs min_val)%Qc.
    split; [done|]. split; [done|]. split.
    { rewrite cell_map2, Hc0. simpl.
      rewrite bool_decide_eq_true_2 by by eapply Hpos. by rewrite Hm. }
    intros i j p Hc Hne. eexists. split.
    { rewrite cell_map2, Hc. simpl.
      by rewrite bool_decide_eq_true_2 by by eapply Hpos. }
    apply Qcplus_le_mono_r. apply Hle.
    apply list_elem_of_fmap. exists p. split; [done|].
    apply list_elem_of_filter. split; [done|].
    apply elem_of_cells. by exists i, j.
Qed.

(** C5.  In a returned surface every cell of non-zero probability [p]
    holds [-kBT * log p - abs m], where [m] is the least of the values
    [-kBT * log p] over the cells of non-zero probability: the shift is
    by the absolute value of the minimum. *)
Theorem nonzero_cells_shifted_by_abs_min (data_lines : list (list Qc))
    (chi1_cols chi2_cols : list Z) (kBT max_eng histmin histmax : Qc)
    (histbins : Z) (surface : list (list Qc)) (xedges yedges : list Qc) :
  compute_rotamer_rotamer_histogram log data_lines chi1_cols chi2_cols
    kBT max_eng histmin histmax histbins = inr (surface, xedges, yedges) →
  ∃ x y histo m,
    pooled data_lines chi1_cols = inr x
    ∧ pooled data_lines chi2_cols = inr y
    ∧ histogram2d x y histmin histmax histbins = inr (Grid histo, xedges, yedges)
    ∧ m ∈ (λ p, - kBT * log p)%Qc <$> nonzero_cells histo
    ∧ (∀ e, e ∈ (λ p, - kBT * log p)%Qc <$> nonzero_cells histo → (m ≤ e)%Qc)
    ∧ abs m = (if decide (m < 0)%Qc then - m else m)%Qc
    ∧ ∀ i j p, cell histo i j = Some p → p ≠ 0%Qc →
        cell surface i j = Some (- kBT * log p - abs m)%Qc.
Proof.
  intros Hrun. apply surface_inv in Hrun
    as (x & y & histo & m & Hx & Hy & Hh & Hnonneg & Hmin & ->).
  exists x, y, histo, m. do 3 (split; [done|]).
  apply min_spec in Hmin as [Hin Hle]. do 2 (split; [done|]). split.
  { unfold abs. destruct (Qclt_le_dec m 0) as [Hlt|Hge].
    - by rewrite decide_True.
    - rewrite decide_False; [done|]. by apply Qcle_not_lt. }
  intros i j p Hc Hne. rewrite cell_map2, Hc. simpl.
  rewrite bool_decide_eq_true_2; [done|].
  destruct (Qcle_lt_or_eq _ _ (Hnonneg i j p Hc)) as [?|?]; [done|congruence].
Qed.

End Surface.

Lemma zero_cells_at_ceiling_witness :
  ∃ surface xedges yedges,
    compute_rotamer_rotamer_histogram log_approx rows_angles [0] [1]
      (Q2Qc (1 # 2)) (of_int 7) (of_int 0) (of_int 4) 2
    = inr (surface, xedges, yedges)
    ∧ ∃ x y histo,
        pooled rows_angles [0] = inr x
        ∧ pooled rows_angles [1] = inr y
        ∧ histogram2d x y (of_int 0) (of_int 4) 2 = inr (Grid histo, xedges, yedges)
        ∧ (∀ i j, is_Some (cell surface i j) ↔ is_Some (cell histo i j))
        ∧ (∀ i j, cell histo i j = Some 0%Qc → cell surface i j = Some (of_int 7))
        ∧ (∃ i0 j0 p0 least,
            cell histo i0 j0 = Some p0 ∧ p0 ≠ 0%Qc
            ∧ cell surface i0 j0 = Some least
            ∧ ∀ i j p, cell histo i j = Some p → p ≠ 0%Qc →
                ∃ v, cell surface i j = Some v ∧ (least ≤ v)%Qc)
        ∧ ∀ log', (∀ p, (0 < p)%Qc → log' p = log_approx p) →
            compute_rotamer_rotamer_histogram log' rows_angles [0] [1]
              (Q2Qc (1 # 2)) (of_int 7) (of_int 0) (of_int 4) 2
            = inr (surface, xedges, yedges).
Proof.
  eexists _, _, _. split; [vm_compute; reflexivity|].
  apply (zero_cells_at_ceiling log_approx rows_angles [0] [1]
           (Q2Qc (1 # 2)) (of_int 7) (of_int 0) (of_int 4) 2).
  vm_compute. reflexivity.
Defined.

Lemma nonzero_cells_shifted_by_abs_min_witness :
  ∃ surface xedges yedges,
    compute_rotamer_rotamer_histogram log_approx rows_angles [0] [1]
      (Q2Qc (1 # 2)) (of_int 7) (of_int 0) (of_int 4) 2
    = inr (surface, xedges, yedges)
    ∧ ∃ x y histo m,
        pooled rows_angles [0] = inr x
        ∧ pooled rows_angles [1] = inr y
        ∧ histogram2d x y (of_int 0) (of_int 4) 2 = inr (Grid histo, xedges, yedges)
        ∧ m ∈ (λ p, - Q2Qc (1 # 2) * log_approx p)%Qc <$> nonzero_cells histo
        ∧ (∀ e, e ∈ (λ p, - Q2Qc (1 # 2) * log_approx p)%Qc <$> nonzero_cells histo →
                (m ≤ e)%Qc)
        ∧ abs m = (if decide (m < 0)%Qc then - m else m)%Qc
        ∧ ∀ i j p, cell histo i j = Some p → p ≠ 0%Qc →
            cell surface i j = Some (- Q2Qc (1 # 2) * log_approx p - abs m)%Qc.
Proof.
  eexists _, _, _. split; [vm_compute; reflexivity|].
  apply (nonzero_cells_shifted_by_abs_min log_approx rows_angles [0] [1]
           (Q2Qc (1 # 2)) (of_int 7) (of_int 0) (of_int 4) 2).
  vm_compute. reflexivity.
Defined.

End SurfaceFacts.

(** ** The 1D histogram *)

Module HistogramFacts.
Import Py PyFacts Numpy NumpyFacts Histograms.

Lemma comprehension_columns (line : list Qc) (cols : list Z) :
  Forall (λ col, ∃ x, getitem line col = inr x) cols →
  comprehension (getitem line) cols = inr ((λ col, item col line) <$> cols).
Proof.
  induction 1 as [|col cols Hcol _ IH]; [done|].
  simpl. rewrite (SeriesFacts.getitem_item _ _ Hcol). simpl. by rewrite IH.
Qed.

(** Lines 59-61: the pooled values are the requested columns of the
    rows, row after row. *)
Lemma pooled_items (data_lines : list (list Qc)) (cols : list Z) :
  Forall (λ line, Forall (λ col, ∃ x, getitem line col = inr x) cols) data_lines →
  pooled data_lines cols
  = inr (concat ((λ line, (λ col, item col line) <$> cols) <$> data_lines)).
Proof.
  intros Hvalid. unfold pooled.
  assert (Hc : comprehension (λ line, comprehension (getitem line) cols) data_lines
               = inr ((λ line, (λ col, item col line) <$> cols) <$> data_lines)).
  { induction Hvalid as [|line data_lines Hline _ IH]; [done|].
    simpl. rewrite (comprehension_columns _ _ Hline). simpl. by rewrite IH. }
  by rewrite Hc.
Qed.

Lemma filter_all {A} (P : A → Prop) `{!∀ x, Decision (P x)} (l : list A) :
  Forall P l → filter P l = l.
Proof.
  induction 1 as [|x l Hx _ IH]; [done|]. by rewrite filter_cons_True, IH.
Qed.

Lemma in_last_bin (mn mx : Qc) (bins : Z) :
  (mn < mx)%Qc → 1 ≤ bins →
  in_bin (linspace mn mx bins) bins (Z.to_nat bins - 1) mx = true.
Proof.
  intros Hlt Hbins. unfold in_bin.
  destruct (lookup_lt_is_Some_2 (linspace mn mx bins) (Z.to_nat bins - 1))
    as [e He]; [rewrite length_linspace; lia|].
  assert (HS : S (Z.to_nat bins - 1) = Z.to_nat bins) by lia.
  pose proof (linspace_last mn mx bins Hbins) as Hlast.
  pose proof (linspace_step mn mx bins (Z.to_nat bins - 1) e mx Hlt
                ltac:(lia) He ltac:(by rewrite HS)) as Hle.
  rewrite He, HS, Hlast.
  rewrite (bool_decide_eq_true_2 (e ≤ mx)%Qc) by done.
  rewrite (bool_decide_eq_true_2 (mx = mx)) by done.
  rewrite (bool_decide_eq_true_2 (Z.of_nat (Z.to_nat bins) = bins)) by lia.
  simpl. apply orb_true_r.
Qed.

(** C6, as stated, fails: a value equal to [histmax] is counted, in the
    last bin. *)
Lemma value_at_max_is_counted :
  pooled [[of_int 360]] [0] = inr [of_int 360]
  ∧ ∃ edges,
      compute_rotamer_histogram [[of_int 360]] [0] (of_int 0) (of_int 360) 4
      = inr ([0; 0; 0; 1], edges)
      ∧ sum [0; 0; 0; 1] ≠ 0.
Proof.
  split; [vm_compute; reflexivity|].
  eexists. split; [vm_compute; reflexivity|]. done.
Qed.

(** C6 (as amended).  For rows that have the requested columns, a range
    with [histmin < histmax] and [histbins >= 1], the values of the
    requested columns of all rows are pooled in one list, and
    [compute_rotamer_histogram] returns [histbins] counts: bin [i]
    counts the pooled values from its left edge up to, and without, its
    right edge, the last bin also counting the values equal to
    [histmax]; the counts add up to the number of pooled values in the
    closed range, that is, to the number of values when all lie in it. *)
Theorem histogram_counts_closed_range (data_lines : list (list Qc))
    (dihedral_cols : list Z) (histmin histmax : Qc) (histbins : Z) :
  Forall (λ line, Forall (λ col, ∃ x, getitem line col = inr x) dihedral_cols)
         data_lines →
  (histmin < histmax)%Qc →
  1 ≤ histbins →
  ∃ vals histo edges,
    vals = concat ((λ line, (λ col, item col line) <$> dihedral_cols) <$> data_lines)
    ∧ pooled data_lines dihedral_cols = inr vals
    ∧ compute_rotamer_histogram data_lines dihedral_cols histmin histmax histbins
      = inr (histo, edges)
    ∧ Z.of_nat (length histo) = histbins
    ∧ (∀ i, (i < Z.to_nat histbins)%nat →
         histo !! i
         = Some (Z.of_nat (length (filter
                   (λ v, in_bin edges histbins i v = true) vals))))
    ∧ in_bin edges histbins (Z.to_nat histbins - 1) histmax = true
    ∧ sum histo
      = Z.of_nat (length (filter (λ v, histmin ≤ v ∧ v ≤ histmax)%Qc vals))
    ∧ (Forall (λ v, histmin ≤ v ∧ v ≤ histmax)%Qc vals →
       sum histo = Z.of_nat (length vals)).
Proof.
  intros Hvalid Hlt Hbins.
  destruct (histogram_bins
              (concat ((λ line, (λ col, item col line) <$> dihedral_cols)
                         <$> data_lines)) histmin histmax histbins Hlt Hbins)
    as (histo & Hrun & Hlen & Hsum & Hbin).
  eexists _, histo, _. split; [reflexivity|].
  split; [by apply pooled_items|]. split.
  { unfold compute_rotamer_histogram. rewrite pooled_items by done. exact Hrun. }
  split; [lia|]. split; [done|]. split; [by apply in_last_bin|].
  split; [done|]. intros Hall. rewrite Hsum. by rewrite filter_all.
Qed.

Lemma histogram_counts_closed_range_witness :
  ∃ vals histo edges,
    vals = concat ((λ line, (λ col, item col line) <$> [0; 1]) <$> rows_angles)
    ∧ pooled rows_angles [0; 1] = inr vals
    ∧ compute_rotamer_histogram rows_angles [0; 1] (of_int 0) (of_int 9) 3
      = inr (histo, edges)
    ∧ Z.of_nat (length histo) = 3
    ∧ (∀ i, (i < Z.to_nat 3)%nat →
         histo !! i
         = Some (Z.of_nat (length (filter
                   (λ v, in_bin edges 3 i v = true) vals))))
    ∧ in_bin edges 3 (Z.to_nat 3 - 1) (of_int 9) = true
    ∧ sum histo
      = Z.of_nat (length (filter (λ v, of_int 0 ≤ v ∧ v ≤ of_int 9)%Qc vals))
    ∧ (Forall (λ v, of_int 0 ≤ v ∧ v ≤ of_int 9)%Qc vals →
       sum histo = Z.of_nat (length vals)).
Proof.
  apply (histogram_counts_closed_range rows_angles [0; 1] (of_int 0) (of_int 9) 3).
  - repeat constructor; eexists; vm_compute; reflexivity.
  - reflexivity.
  - lia.
Defined.

End HistogramFacts.

(** ** More on the counting loop and the aggregation *)

Module RegexMore.
Import Py PyFacts RegexGrouping RegexFacts.

Lemma count_at_increment (cts : gmap Qc (gmap Z Z)) (t t' : Qc) (k k' : Z) :
  count_at (increment t k cts) t' k'
  = if decide (t' = t ∧ k' = k)
    then Some (default 0 (count_at cts t k) + 1)
    else count_at cts t' k'.
Proof.
  unfold count_at, increment. destruct (decide (t = t')) as [<-|Ht].
  - rewrite lookup_insert_eq. simpl. destruct (decide (k = k')) as [<-|Hk].
    + rewrite lookup_insert_eq, decide_True by done. by destruct (cts !! t).
    + rewrite lookup_insert_ne by done.
      rewrite decide_False by (intros [_ ->]; done). by destruct (cts !! t).
  - rewrite lookup_insert_ne by done.
    by rewrite decide_False by (intros [-> _]; done).
Qed.

Lemma total_at_increment (cts : gmap Qc (gmap Z Z)) (t t' : Qc) (k : Z) :
  total_at (increment t k cts) t'
  = total_at cts t' + (if decide (t' = t) then 1 else 0).
Proof.
  unfold total_at, increment. destruct (decide (t' = t)) as [->|Ht].
  - rewrite lookup_insert_eq. simpl. apply total_count.
  - rewrite lookup_insert_ne by done. lia.
Qed.

Lemma lookup_increment_None (cts : gmap Qc (gmap Z Z)) (t t' : Qc) (k : Z) :
  increment t k cts !! t' = None ↔ t' ≠ t ∧ cts !! t' = None.
Proof.
  unfold increment. destruct (decide (t = t')) as [<-|Ht].
  - rewrite lookup_insert_eq. split; [done|]. by intros [? _].
  - rewrite lookup_insert_ne by done. split; [|by intros [_ ?]].
    intros H. split; [|done]. by intros ->.
Qed.

Lemma observations_cons (traj_col : Z) (t : Qc) (k : Z) (line : list Qc) (st : Z)
    (pairs : list (list Qc * Z)) :
  observations traj_col t k ((line, st) :: pairs)
  = (if decide (getitem line traj_col = inr t ∧ st = k) then 1 else 0)
    + observations traj_col t k pairs.
Proof.
  unfold observations. rewrite filter_cons. simpl.
  destruct (decide (getitem line traj_col = inr t ∧ st = k)); simpl; lia.
Qed.

Lemma observations_of_cons (traj_col : Z) (t : Qc) (line : list Qc) (st : Z)
    (pairs : list (list Qc * Z)) :
  observations_of traj_col t ((line, st) :: pairs)
  = (if decide (getitem line traj_col = inr t) then 1 else 0)
    + observations_of traj_col t pairs.
Proof.
  unfold observations_of. rewrite filter_cons. simpl.
  destruct (decide (getitem line traj_col = inr t)); simpl; lia.
Qed.

Lemma observations_nonneg (traj_col : Z) (t : Qc) (k : Z) (pairs : list (list Qc * Z)) :
  0 ≤ observations traj_col t k pairs ∧ 0 ≤ observations_of traj_col t pairs.
Proof. unfold observations, observations_of. lia. Qed.

(** The counting loop from any state: what it has counted when it
    returns, and why it raises when it does. *)
Lemma count_loop_tally (traj_col : Z) (pairs : list (list Qc * Z)) :
  ∀ s : objects,
    match for_each pairs (count_step traj_col) tt s with
    | Return _ s' =>
        (∀ t k, count_at (count_totals s') t k
                = if decide (observations traj_col t k pairs = 0)
                  then count_at (count_totals s) t k
                  else Some (default 0 (count_at (count_totals s) t k)
                             + observations traj_col t k pairs))
        ∧ (∀ t, total_at (count_totals s') t
                = total_at (count_totals s) t + observations_of traj_col t pairs)
        ∧ (∀ t, count_totals s' !! t = None
                ↔ count_totals s !! t = None ∧ observations_of traj_col t pairs = 0)
        ∧ Forall (λ p, ∃ t, getitem p.1 traj_col = inr t) pairs
    | Raise e s' =>
        e = IndexError
        ∧ Exists (λ p, getitem p.1 traj_col = inl IndexError) pairs
        ∧ traj_total_percent s' = traj_total_percent s
    end.
Proof.
  induction pairs as [|[line st] pairs IH]; intros s.
  - simpl. split; [|split; [|split]]; try done.
    + intros t. unfold observations_of. simpl. lia.
    + intros t. unfold observations_of. simpl. split; [done|by intros [? _]].
  - cbn [for_each]. unfold bind at 1. unfold count_step at 1.
    unfold bind at 1, lift.
    destruct (getitem line traj_col) as [e|t0] eqn:Hget.
    + apply getitem_raises in Hget as Heq. subst e. split; [done|].
      split; [|done]. by left.
    + unfold ret, modify.
      specialize (IH (set_count_totals (increment t0 st) s)).
      destruct (for_each pairs (count_step traj_col) ()
                  (set_count_totals (increment t0 st) s)) as [[] s'|e s'].
      * destruct IH as (Hcount & Htotal & Hkeys & Hvalid). simpl in *.
        split; [|split; [|split]].
        -- intros t k. rewrite Hcount, observations_cons, Hget, count_at_increment.
           pose proof (observations_nonneg traj_col t k pairs) as [Hn _].
           destruct (decide (inr t0 = inr t ∧ st = k)) as [[[= ->] ->]|Hne].
           ++ rewrite (decide_True (P := t = t ∧ k = k)) by done.
              rewrite (decide_False (P := 1 + _ = 0)) by lia.
              destruct (decide (observations traj_col t k pairs = 0)) as [->|?];
                simpl; f_equal; lia.
           ++ rewrite (decide_False (P := t = t0 ∧ k = st))
                by (intros [-> ->]; by apply Hne).
              by replace (0 + observations traj_col t k pairs)
                with (observations traj_col t k pairs) by lia.
        -- intros t. rewrite Htotal, total_at_increment, observations_of_cons, Hget.
           destruct (decide (t = t0)) as [->|Hne].
           ++ rewrite decide_True by done. lia.
           ++ rewrite decide_False by congruence. lia.
        -- intros t. rewrite Hkeys, lookup_increment_None, observations_of_cons, Hget.
           pose proof (observations_nonneg traj_col t 0 pairs) as [_ Hn].
           destruct (decide (inr t0 = inr t)) as [[= ->]|Hne].
           ++ split; [by intros [[? _] _]|]. intros [_ ?]. lia.
           ++ split.
              ** intros [[_ ?] ?]. split; [done|lia].
              ** intros [? ?]. split; [|lia]. split; [|done]. congruence.
        -- constructor; [by exists t0|done].
      * destruct IH as (-> & Hex & Hrows). split; [done|]. split; [by right|done].
Qed.

Lemma regex_counter_unfold (data_floats : list (list Qc))
    (data_regex : list (string * Z)) (traj_col : Z) (nm : list Z) :
  regex_counter data_floats data_regex traj_col nm
  = match for_each (paired data_floats data_regex) (count_step traj_col) tt
            (new_objects ∅) with
    | Return _ s => count_totals_to_percents (count_totals s) nm
    | Raise e s => Raise e s
    end.
Proof.
  unfold regex_counter, count_loop, bind, paired.
  pose proof (count_loop_cases traj_col (zip data_floats data_regex.*2)
                (new_objects ∅)) as Hcases.
  destruct (for_each _ _ _ _) as [[] s|e s]; [|done].
  destruct Hcases as (_ & _ & Hrows & Havg & _).
  unfold count_totals_to_percents, new_objects.
  destruct s as [cts rows avgs]. simpl in *. by subst.
Qed.

(** X1.  When the counting loop of [regex_counter] returns, the count
    table has an entry for trajectory [t] and state [k] exactly when some
    pair (row, state id) has that trajectory and state, and the entry is
    the number of such pairs; a trajectory is a key of the table exactly
    when it has a pair, and its total is the number of its pairs. *)
Theorem count_table_is_tally (data_floats : list (list Qc))
    (data_regex : list (string * Z)) (traj_col : Z) (s : objects) :
  count_loop data_floats data_regex traj_col (new_objects ∅) = Return tt s →
  ∀ t,
    (count_totals s !! t = None
     ↔ observations_of traj_col t (paired data_floats data_regex) = 0)
    ∧ total_at (count_totals s) t
      = observations_of traj_col t (paired data_floats data_regex)
    ∧ ∀ k, count_at (count_totals s) t k
           = if decide (observations traj_col t k (paired data_floats data_regex) = 0)
             then None
             else Some (observations traj_col t k (paired data_floats data_regex)).
Proof.
  intros Hrun t. unfold count_loop in Hrun.
  pose proof (count_loop_tally traj_col (paired data_floats data_regex)
                (new_objects ∅)) as Htally.
  unfold paired in Htally |- *. rewrite Hrun in Htally.
  destruct Htally as (Hcount & Htotal & Hkeys & _). simpl in *.
  split; [|split].
  - rewrite Hkeys, lookup_empty. split; [by intros [_ ?]|done].
  - rewrite Htotal. unfold total_at. rewrite lookup_empty. simpl.
    rewrite total_empty. lia.
  - intros k. rewrite Hcount. unfold count_at at 1 2. rewrite lookup_empty. simpl.
    destruct (decide _); [done|]. f_equal; lia.
Qed.

Lemma count_table_is_tally_witness :
  ∃ s,
    count_loop rows_four pairs_three 2 (new_objects ∅) = Return tt s
    ∧ ∀ t,
        (count_totals s !! t = None
         ↔ observations_of 2 t (paired rows_four pairs_three) = 0)
        ∧ total_at (count_totals s) t
          = observations_of 2 t (paired rows_four pairs_three)
        ∧ ∀ k, count_at (count_totals s) t k
               = if decide (observations 2 t k (paired rows_four pairs_three) = 0)
                 then None
                 else Some (observations 2 t k (paired rows_four pairs_three)).
Proof.
  eexists. split; [vm_compute; reflexivity|].
  eapply (count_table_is_tally rows_four pairs_three 2).
  vm_compute. reflexivity.
Defined.

(** *** The exceptions of [regex_counter] and [count_totals_to_percents] *)

Lemma max_nil_iff (l : list Z) : (∃ e, max l = inl e) ↔ l = [].
Proof.
  destruct l; simpl; split; try done; [by eexists|by intros [e ?]].
Qed.

Lemma all_state_ids_nil (cts : gmap Qc (gmap Z Z)) :
  all_state_ids cts = [] ↔ ∀ t d, cts !! t = Some d → d = ∅.
Proof.
  unfold all_state_ids. split.
  - intros Hnil t d Hd. apply map_empty. intros k.
    destruct (d !! k) as [v|] eqn:Hk; [|done].
    assert (Hin : k ∈ (map_to_list cts).*2 ≫= (λ d, (map_to_list d).*1)).
    { apply list_elem_of_bind. exists d. split.
      - apply list_elem_of_fmap. exists (k, v). split; [done|].
        by apply elem_of_map_to_list.
      - apply list_elem_of_fmap. exists (t, d). split; [done|].
        by apply elem_of_map_to_list. }
    rewrite Hnil in Hin. by apply elem_of_nil in Hin.
  - intros Hall.
    destruct ((map_to_list cts).*2 ≫= (λ d, (map_to_list d).*1)) as [|k l] eqn:Hl;
      [done|].
    assert (Hin : k ∈ (map_to_list cts).*2 ≫= (λ d, (map_to_list d).*1))
      by (rewrite Hl; by left).
    apply list_elem_of_bind in Hin as (d & Hk & Hd).
    apply list_elem_of_fmap in Hd as ([t d'] & -> & Hd).
    apply elem_of_map_to_list in Hd. rewrite (Hall t d' Hd) in Hk.
    simpl in Hk. rewrite map_to_list_empty in Hk. by apply elem_of_nil in Hk.
Qed.

Lemma default_map_length_iff (mx : Z) (nm : list Z) :
  Z.of_nat (length (default_num_ions_map mx nm)) = mx + 1
  ↔ (nm = [] ∧ -1 ≤ mx) ∨ (nm ≠ [] ∧ Z.of_nat (length nm) = mx + 1).
Proof.
  destruct nm as [|w nm]; simpl.
  - rewrite length_range. split; [intros; left; split; [done|lia]|].
    intros [[_ ?]|[? _]]; [lia|done].
  - split; [intros; by right|]. by intros [[? _]|[_ ?]].
Qed.

Lemma divisible_all_iff (mx : Z) (cts : gmap Qc (gmap Z Z)) :
  Forall (divisible mx) (map_to_list cts)
  ↔ (0 ≤ mx → ∀ t d, cts !! t = Some d → total d ≠ 0).
Proof.
  rewrite Forall_forall. unfold divisible. split.
  - intros Hall Hmx t d Hd.
    destruct (Hall (t, d)) as [?|?]; [by apply elem_of_map_to_list|done|lia].
  - intros Hall [t d] Hin%elem_of_map_to_list. simpl.
    destruct (decide (0 ≤ mx)); [left; by eapply Hall|right; lia].
Qed.

(** Every way in which [count_totals_to_percents] can raise. *)
Lemma count_totals_to_percents_raises (cts : gmap Qc (gmap Z Z)) (nm : list Z)
    (e : exn) (s : objects) :
  count_totals_to_percents cts nm = Raise e s →
  (e = ValueError ∧ all_state_ids cts = [] ∧ s = new_objects cts)
  ∨ (∃ mx, max (all_state_ids cts) = inr mx
       ∧ ((e = AssertionError
           ∧ Z.of_nat (length (default_num_ions_map mx nm)) ≠ mx + 1
           ∧ s = new_objects cts)
          ∨ (e = ZeroDivisionError
             ∧ Z.of_nat (length (default_num_ions_map mx nm)) = mx + 1
             ∧ ¬ Forall (divisible mx) (map_to_list cts)))).
Proof.
  intros Hrun. destruct (max (all_state_ids cts)) as [e'|mx] eqn:Hmax.
  { rewrite (count_totals_to_percents_no_max _ _ _ Hmax) in Hrun.
    injection Hrun as <- <-. left. apply max_raises in Hmax as Heq. subst e'.
    split; [done|]. split; [|done]. apply max_nil_iff. by eexists. }
  right. exists mx. split; [done|].
  destruct (decide (Z.of_nat (length (default_num_ions_map mx nm)) = mx + 1))
    as [Hlen|Hlen].
  2: { rewrite (count_totals_to_percents_assert _ _ _ Hmax Hlen) in Hrun.
       injection Hrun as <- <-. by left. }
  destruct (decide (Forall (divisible mx) (map_to_list cts))) as [Hdiv|Hdiv].
  { destruct (count_totals_to_percents_returns _ _ _ Hmax Hlen Hdiv)
      as (s' & means & samples & Hret & _). by rewrite Hret in Hrun. }
  destruct (count_totals_to_percents_zero _ _ _ Hmax Hlen Hdiv) as (s' & Hz).
  rewrite Hz in Hrun. injection Hrun as <- <-. by right.
Qed.

(** X2.  [regex_counter] raises [IndexError] exactly when some paired
    row has no column [traj_col], and it does so before any output row
    is built. *)
Theorem regex_counter_index_error (data_floats : list (list Qc))
    (data_regex : list (string * Z)) (traj_col : Z) (nm : list Z) :
  ((∃ s, regex_counter data_floats data_regex traj_col nm = Raise IndexError s)
   ↔ Exists (λ p, getitem p.1 traj_col = inl IndexError)
            (paired data_floats data_regex))
  ∧ ∀ s, regex_counter data_floats data_regex traj_col nm = Raise IndexError s →
         traj_total_percent s = [].
Proof.
  rewrite regex_counter_unfold.
  pose proof (count_loop_tally traj_col (paired data_floats data_regex)
                (new_objects ∅)) as Htally.
  destruct (for_each _ _ _ _) as [[] s1|e s1].
  - destruct Htally as (_ & _ & _ & Hvalid). split; [split|].
    + intros [s Hraise].
      apply count_totals_to_percents_raises in Hraise
        as [[? _]|(mx & _ & [[? _]|[? _]])]; done.
    + intros Hex. exfalso. apply Exists_exists in Hex as (p & Hin & Hp).
      rewrite Forall_forall in Hvalid. destruct (Hvalid p Hin) as [t Ht]. congruence.
    + intros s Hraise.
      apply count_totals_to_percents_raises in Hraise
        as [[? _]|(mx & _ & [[? _]|[? _]])]; done.
  - destruct Htally as (-> & Hex & Hrows). split; [split|].
    + done.
    + intros _. by exists s1.
    + by intros s [= <-].
Qed.

(** X3.  [count_totals_to_percents] raises [ValueError] exactly when the
    table has no state id at all (it is empty, or all its dictionaries
    are), whatever the weight map, and leaves the table as it was. *)
Theorem no_state_id_value_error (cts : gmap Qc (gmap Z Z)) (nm : list Z) :
  ((∃ s, count_totals_to_percents cts nm = Raise ValueError s)
   ↔ ∀ t d, cts !! t = Some d → d = ∅)
  ∧ ∀ s, count_totals_to_percents cts nm = Raise ValueError s →
         s = new_objects cts.
Proof.
  rewrite <- all_state_ids_nil. split; [split|].
  - intros [s Hraise].
    apply count_totals_to_percents_raises in Hraise
      as [(_ & ? & _)|(mx & _ & [[? _]|[? _]])]; done.
  - intros Hnil. exists (new_objects cts).
    apply count_totals_to_percents_no_max. by rewrite Hnil.
  - intros s Hraise.
    apply count_totals_to_percents_raises in Hraise
      as [(_ & _ & ?)|(mx & _ & [[? _]|[? _]])]; done.
Qed.

(** X4.  With no row or no classification pair [regex_counter] raises
    [ValueError]: it never returns a table without trajectory rows. *)
Theorem regex_counter_empty_input (data_floats : list (list Qc))
    (data_regex : list (string * Z)) (traj_col : Z) (nm : list Z) :
  data_floats = [] ∨ data_regex = [] →
  regex_counter data_floats data_regex traj_col nm
  = Raise ValueError (new_objects ∅).
Proof.
  intros Hempty. rewrite regex_counter_unfold.
  assert (paired data_floats data_regex = []) as ->.
  { unfold paired. destruct Hempty as [-> | ->]; [done|].
    by destruct data_floats. }
  done.
Qed.

Lemma regex_counter_empty_input_witness :
  regex_counter rows_four [] 2 [10; 20] = Raise ValueError (new_objects ∅).
Proof. apply (regex_counter_empty_input rows_four [] 2 [10; 20]). by right. Defined.

(** X5.  [count_totals_to_percents] raises [AssertionError] exactly when
    the table has a largest state id max-id and either a weight map is
    supplied whose length is not max-id+1, or none is supplied and
    max-id is below -1 (the default map [range(max_ions+1)] is then
    empty, of length 0). *)
Theorem assertion_error_iff (cts : gmap Qc (gmap Z Z)) (nm : list Z) :
  (∃ s, count_totals_to_percents cts nm = Raise AssertionError s)
  ↔ ∃ mx, max (all_state_ids cts) = inr mx
      ∧ ((nm = [] ∧ mx < -1) ∨ (nm ≠ [] ∧ Z.of_nat (length nm) ≠ mx + 1)).
Proof.
  split.
  - intros [s Hraise].
    apply count_totals_to_percents_raises in Hraise
      as [[? _]|(mx & Hmax & [(_ & Hlen & _)|[? _]])]; [done| |done].
    exists mx. split; [done|]. rewrite default_map_length_iff in Hlen.
    destruct nm as [|w nm].
    + left. split; [done|]. destruct (decide (mx < -1)); [done|].
      exfalso. apply Hlen. left. split; [done|lia].
    + right. split; [done|]. intros Heq. apply Hlen. by right.
  - intros (mx & Hmax & Hcase). exists (new_objects cts).
    apply (count_totals_to_percents_assert _ _ _ Hmax).
    rewrite default_map_length_iff. intros [[Hnm Hmx]|[Hnm Hlen]];
      destruct Hcase as [[? ?]|[? ?]]; try done; lia.
Qed.

(** X6.  [count_totals_to_percents] raises [ZeroDivisionError] exactly
    when the assertion on the weight map holds, max-id is at least 0 and
    some trajectory has total count 0. *)
Theorem zero_division_error_iff (cts : gmap Qc (gmap Z Z)) (nm : list Z) :
  (∃ s, count_totals_to_percents cts nm = Raise ZeroDivisionError s)
  ↔ ∃ mx, max (all_state_ids cts) = inr mx
      ∧ 0 ≤ mx
      ∧ (nm = [] ∨ Z.of_nat (length nm) = mx + 1)
      ∧ ∃ t d, cts !! t = Some d ∧ total d = 0.
Proof.
  split.
  - intros [s Hraise].
    apply count_totals_to_percents_raises in Hraise
      as [[? _]|(mx & Hmax & [[? _]|(_ & Hlen & Hdiv)])]; [done|done|].
    exists mx. split; [done|].
    apply not_Forall_Exists in Hdiv; [|intros x; apply divisible_dec].
    apply Exists_exists in Hdiv as ([t d] & Hin & Hnot).
    apply elem_of_map_to_list in Hin. unfold divisible in Hnot. simpl in Hnot.
    split; [lia|]. split.
    { apply default_map_length_iff in Hlen as [[? _]|[_ ?]]; [by left|by right]. }
    exists t, d. split; [done|lia].
  - intros (mx & Hmax & Hmx & Hnm & t & d & Hd & Hz).
    apply (count_totals_to_percents_zero _ _ _ Hmax).
    + apply default_map_length_iff. destruct nm as [|w nm].
      * left. split; [done|lia].
      * right. split; [done|]. by destruct Hnm.
    + rewrite divisible_all_iff. intros Hall. by apply (Hall Hmx t d Hd).
Qed.

(** X7.  [count_totals_to_percents] returns a table exactly when the
    count table has a largest state id max-id of at least -1, the weight
    map is absent or of length max-id+1, and, unless max-id is -1, no
    trajectory has total count 0. *)
Theorem aggregation_returns_iff (cts : gmap Qc (gmap Z Z)) (nm : list Z) :
  (∃ rows s, count_totals_to_percents cts nm = Return rows s)
  ↔ ∃ mx, max (all_state_ids cts) = inr mx
      ∧ -1 ≤ mx
      ∧ (nm = [] ∨ Z.of_nat (length nm) = mx + 1)
      ∧ (0 ≤ mx → ∀ t d, cts !! t = Some d → total d ≠ 0).
Proof.
  split.
  - intros (rows & s & Hrun).
    apply count_totals_to_percents_inv in Hrun
      as (mx & means & samples & Hmax & Hlen & Hdiv & _).
    exists mx. split; [done|]. rewrite divisible_all_iff in Hdiv.
    apply default_map_length_iff in Hlen as [[? ?]|[? ?]].
    + split; [done|]. split; [by left|done].
    + split; [lia|]. split; [by right|done].
  - intros (mx & Hmax & Hmx & Hnm & Hdiv).
    destruct (count_totals_to_percents_returns cts nm mx Hmax)
      as (s & means & samples & Hret & _).
    + apply default_map_length_iff. destruct nm as [|w nm].
      * by left.
      * right. split; [done|]. by destruct Hnm.
    + by apply divisible_all_iff.
    + by eexists _, _.
Qed.

(** *** The MEAN and STDERR rows *)

Lemma lookup_appended_notin (av : gmap Z (list Qc)) (entries : list (Z * Qc)) (i : Z) :
  i ∉ entries.*1 → appended av entries !! i = av !! i.
Proof.
  revert av. induction entries as [|[i0 x] entries IH]; intros av Hni; [done|].
  rewrite fmap_cons, not_elem_of_cons in Hni. destruct Hni as [Hne Hni].
  unfold appended. simpl. fold (appended (<[i0 := default [] (av !! i0) ++ [x]]> av) entries).
  rewrite IH by done. by rewrite lookup_insert_ne.
Qed.

Lemma fst_zip_subseteq (idxs : list Z) (cols : list Qc) (i : Z) :
  i ∈ (zip idxs cols).*1 → i ∈ idxs.
Proof.
  intros Hin. apply list_elem_of_fmap in Hin as ([i' x] & -> & Hin).
  by apply elem_of_zip_l in Hin.
Qed.

Lemma lookup_appended (idxs : list Z) :
  ∀ (av : gmap Z (list Qc)) (cols : list Qc) (j : nat) (i : Z),
    NoDup idxs →
    length cols = length idxs →
    idxs !! j = Some i →
    default [] (appended av (zip idxs cols) !! i)
    = default [] (av !! i) ++ [default 0%Qc (cols !! j)].
Proof.
  induction idxs as [|i0 idxs IH]; intros av cols j i Hnd Hlen Hj; [done|].
  destruct cols as [|c cols]; [done|]. simpl in Hlen.
  apply NoDup_cons in Hnd as [Hni Hnd].
  unfold appended. simpl.
  fold (appended (<[i0 := default [] (av !! i0) ++ [c]]> av) (zip idxs cols)).
  destruct j as [|j]; simpl in Hj.
  - injection Hj as ->. rewrite lookup_appended_notin.
    + by rewrite lookup_insert_eq.
    + intros Hin. by apply Hni, (fst_zip_subseteq idxs cols).
  - rewrite (IH _ cols j i) by (done || lia). simpl.
    rewrite lookup_insert_ne; [done|].
    intros ->. apply Hni. by eapply list_elem_of_lookup_2.
Qed.

Lemma appended_app (av : gmap Z (list Qc)) (l1 l2 : list (Z * Qc)) :
  appended av (l1 ++ l2) = appended (appended av l1) l2.
Proof. unfold appended. by rewrite foldl_app. Qed.

(** The loop of lines 96-99, whenever it completes: one percentage per
    id, appended to the row and to the list of its id. *)
Lemma percent_loop_averages (t T : Qc) (idxs : list Z) :
  ∀ (acc : list Qc) (s : objects) (line : list Qc) (s' : objects),
    for_each idxs (percent_step t T) acc s = Return line s' →
    ∃ added, line = acc ++ added
      ∧ length added = length idxs
      ∧ traj_total_percent s' = traj_total_percent s
      ∧ traj_occ_averages s' = appended (traj_occ_averages s) (zip idxs added).
Proof.
  induction idxs as [|i idxs IH]; intros acc s line s' Hrun.
  - simpl in Hrun. injection Hrun as <- <-. exists []. by rewrite app_nil_r.
  - simpl in Hrun. unfold bind at 1 in Hrun. unfold percent_step at 1 in Hrun.
    unfold bind at 1, count_dict_getitem in Hrun.
    destruct (default ∅ (count_totals s !! t) !! i) as [v|];
      unfold bind at 1, lift, truediv in Hrun;
      destruct (bool_decide (T = 0%Qc)); try done;
      unfold bind at 1, modify, ret in Hrun;
      apply IH in Hrun as (added & -> & Hlen & Hrows & Hav);
      (eexists (_ :: added); split; [by rewrite <- app_assoc|];
       split; [simpl; by rewrite Hlen|]; split; [by rewrite Hrows|];
       by rewrite Hav).
Qed.

(** The body of the loop over the trajectories, whenever it completes. *)
Lemma traj_row_averages (mx : Z) (nm : list Z) (t : Qc) (s s' : objects) :
  traj_row mx nm t s = Return tt s' →
  ∃ cols, length cols = S (length (range (mx + 1)))
    ∧ traj_total_percent s' = traj_total_percent s ++ [TrajRow t cols]
    ∧ traj_occ_averages s'
      = appended (traj_occ_averages s) (zip (range (mx + 1) ++ [mx + 1]) cols).
Proof.
  unfold traj_row, bind at 1, get. unfold bind at 1.
  destruct (for_each _ _ _ _) as [line s1|e s1] eqn:Hloop; [|done].
  apply percent_loop_averages in Hloop as (added & -> & Hlen & Hrows & Hav).
  unfold bind, modify. intros [= <-]. simpl.
  exists (added ++ [weighted_average added nm]). split; [|split].
  - rewrite length_app, Hlen. simpl. lia.
  - by rewrite Hrows.
  - rewrite Hav, zip_with_app by done. by rewrite appended_app.
Qed.

Lemma column_of_app (j : nat) (rows1 rows2 : list row) :
  column_of j (rows1 ++ rows2) = column_of j rows1 ++ column_of j rows2.
Proof. unfold column_of. apply bind_app. Qed.

Lemma NoDup_range_snoc (n : Z) : NoDup (range n ++ [n]).
Proof.
  apply NoDup_app. split; [apply NoDup_range|]. split; [|apply NoDup_singleton].
  intros i Hin%elem_of_range ->%list_elem_of_singleton. lia.
Qed.

Lemma range_snoc (n : Z) : 0 ≤ n → range n ++ [n] = range (n + 1).
Proof.
  intros Hn. unfold range. replace (Z.to_nat (n + 1)) with (S (Z.to_nat n)) by lia.
  rewrite seq_S, fmap_app. simpl. do 2 f_equal. lia.
Qed.

(** The loop over the trajectories, whenever it completes: the rows
    appended are trajectory rows of [max_ions+2] columns, and the list
    stored for the [j]-th id grows by the [j]-th column of these rows. *)
Lemma rows_loop_averages (mx : Z) (nm : list Z) (its : list (Qc * gmap Z Z)) :
  ∀ s s' : objects,
    for_each its (λ _ '(traj_id, _), traj_row mx nm traj_id) tt s = Return tt s' →
    ∃ new, traj_total_percent s' = traj_total_percent s ++ new
      ∧ length new = length its
      ∧ Forall (λ r, ∃ t cols, r = TrajRow t cols
                       ∧ length cols = S (length (range (mx + 1)))) new
      ∧ ∀ j i, (range (mx + 1) ++ [mx + 1]) !! j = Some i →
          default [] (traj_occ_averages s' !! i)
          = default [] (traj_occ_averages s !! i) ++ column_of j new.
Proof.
  induction its as [|[t d] its IH]; intros s s' Hrun.
  - simpl in Hrun. injection Hrun as <-. exists []. rewrite app_nil_r.
    split; [done|]. split; [done|]. split; [done|].
    intros j i _. by rewrite app_nil_r.
  - simpl in Hrun. unfold bind at 1 in Hrun.
    destruct (traj_row mx nm t s) as [[] s1|e s1] eqn:Hrow; [|done].
    apply traj_row_averages in Hrow as (cols & Hlen & Hrows1 & Hav1).
    apply IH in Hrun as (new & Hrows & Hlen' & Hall & Hav).
    exists (TrajRow t cols :: new). split; [|split; [|split]].
    + rewrite Hrows, Hrows1, <- app_assoc. done.
    + simpl. by rewrite Hlen'.
    + apply Forall_cons. split; [by exists t, cols|done].
    + intros j i Hj. rewrite (Hav j i Hj), Hav1.
      rewrite (lookup_appended _ _ cols j i); [|apply NoDup_range_snoc| |done].
      * rewrite <- app_assoc. done.
      * rewrite Hlen, length_app. simpl. lia.
Qed.

Lemma traj_rows_of_app (rows1 rows2 : list row) :
  traj_rows_of (rows1 ++ rows2) = traj_rows_of rows1 ++ traj_rows_of rows2.
Proof. unfold traj_rows_of. apply filter_app. Qed.

Lemma traj_rows_of_all (rows : list row) :
  Forall (λ r, is_traj_row r = true) rows → traj_rows_of rows = rows.
Proof.
  unfold traj_rows_of. induction 1 as [|r rows Hr _ IH]; [done|].
  rewrite filter_cons_True by done. by rewrite IH.
Qed.

(** The table returned, with the summary rows spelled out. *)
Lemma count_totals_to_percents_summary (cts : gmap Qc (gmap Z Z)) (nm : list Z)
    (rows : list row) (s : objects) :
  count_totals_to_percents cts nm = Return rows s →
  ∃ mx new,
    max (all_state_ids cts) = inr mx
    ∧ -1 ≤ mx
    ∧ length new = size cts
    ∧ Forall (λ r, ∃ t cols, r = TrajRow t cols
                     ∧ length cols = Z.to_nat (mx + 2)) new
    ∧ rows = new ++ [MeanRow ((λ j, mean (column_of j new))
                                <$> seq 0 (Z.to_nat (mx + 2)));
                     StderrRow ((λ j, column_of j new)
                                  <$> seq 0 (Z.to_nat (mx + 2)))].
Proof.
  intros Hrun.
  destruct (count_totals_to_percents_inv _ _ _ _ Hrun)
    as (mx & means & samples & Hmax & Hlen & _).
  assert (Hmx : -1 ≤ mx).
  { apply default_map_length_iff in Hlen as [[_ ?]|[_ ?]]; lia. }
  unfold count_totals_to_percents, count_totals_to_percents_body in Hrun.
  unfold bind at 1, get in Hrun. simpl in Hrun. unfold bind at 1 in Hrun.
  rewrite Hmax in Hrun. simpl in Hrun.
  apply Z.eqb_eq in Hlen. rewrite Hlen in Hrun. simpl in Hrun.
  unfold bind at 1 in Hrun.
  destruct (for_each _ _ _ _) as [[] s1|e s1] eqn:Hloop; [|done].
  apply rows_loop_averages in Hloop as (new & Hnew & Hlen' & Hall & Hav).
  simpl in Hnew, Hav.
  unfold bind, modify, get, ret in Hrun. simpl in Hrun. injection Hrun as Hrows _.
  exists mx, new. split; [done|]. split; [done|]. split.
  { by rewrite Hlen', length_map_to_list. }
  split.
  { eapply Forall_impl; [exact Hall|]. intros r (t & cols & -> & Hc).
    exists t, cols. split; [done|]. rewrite Hc, length_range. lia. }
  rewrite <- Hrows, Hnew, <- app_assoc. simpl. unfold range.
  rewrite <- !list_fmap_compose.
  assert (Hcol : ∀ j, j ∈ seq 0 (Z.to_nat (mx + 2)) →
            default [] (traj_occ_averages s1 !! Z.of_nat j) = column_of j new).
  { intros j Hj%elem_of_seq. rewrite (Hav j (Z.of_nat j)).
    - by rewrite lookup_empty.
    - rewrite range_snoc by lia. apply lookup_range. lia. }
  do 2 f_equal.
  - f_equal. apply list_fmap_ext. intros _ j Hj%list_elem_of_lookup_2. simpl.
    by rewrite Hcol.
  - do 2 f_equal. apply list_fmap_ext. intros _ j Hj%list_elem_of_lookup_2. simpl.
    by rewrite Hcol.
Qed.

(** X8.  The table returned by [count_totals_to_percents] is one row
    per trajectory of the count table, each of max-id+2 numeric columns,
    followed by the MEAN row and the STDERR row; entry [j] of the MEAN
    row is the mean of column [j] of the trajectory rows, and entry [j]
    of the STDERR row is computed from exactly that column. *)
Theorem summary_rows_from_columns (cts : gmap Qc (gmap Z Z)) (nm : list Z)
    (rows : list row) (s : objects) :
  count_totals_to_percents cts nm = Return rows s →
  ∃ mx, max (all_state_ids cts) = inr mx
    ∧ rows = traj_rows_of rows
             ++ [MeanRow ((λ j, mean (column_of j rows))
                            <$> seq 0 (Z.to_nat (mx + 2)));
                 StderrRow ((λ j, column_of j rows)
                              <$> seq 0 (Z.to_nat (mx + 2)))]
    ∧ length (traj_rows_of rows) = size cts
    ∧ ∀ t cols, TrajRow t cols ∈ rows → length cols = Z.to_nat (mx + 2).
Proof.
  intros Hrun.
  apply count_totals_to_percents_summary in Hrun
    as (mx & new & Hmax & _ & Hlen & Hall & ->).
  exists mx. split; [done|].
  assert (Htraj : traj_rows_of new = new).
  { apply traj_rows_of_all. eapply Forall_impl; [exact Hall|].
    by intros r (t & cols & -> & _). }
  assert (Hcols : ∀ j tail, traj_rows_of tail = [] →
            column_of j (new ++ tail) = column_of j new).
  { intros j tail Htail. rewrite column_of_app.
    assert (column_of j tail = []) as ->; [|by rewrite app_nil_r].
    unfold traj_rows_of in Htail. unfold column_of.
    induction tail as [|r tail IH]; [done|]. destruct r; simpl in *.
    - by rewrite filter_cons_True in Htail.
    - rewrite filter_cons_False in Htail by done. by apply IH.
    - rewrite filter_cons_False in Htail by done. by apply IH. }
  rewrite traj_rows_of_app, Htraj.
  split; [|split].
  - unfold traj_rows_of at 1. rewrite !filter_cons_False, filter_nil by done.
    rewrite app_nil_r. do 2 f_equal.
    + f_equal. apply list_fmap_ext. intros _ j _. by rewrite Hcols.
    + do 2 f_equal. apply list_fmap_ext. intros _ j _. by rewrite Hcols.
  - unfold traj_rows_of. rewrite !filter_cons_False, filter_nil by done.
    by rewrite app_nil_r.
  - intros t cols Hin. apply elem_of_app in Hin as [Hin|Hin].
    + rewrite Forall_forall in Hall.
      destruct (Hall _ Hin) as (t' & cols' & [= <- <-] & Hc). done.
    + apply elem_of_cons in Hin as [?|Hin]; [done|].
      apply elem_of_cons in Hin as [?|Hin]; [done|]. by apply elem_of_nil in Hin.
Qed.

Lemma summary_rows_from_columns_witness :
  ∃ rows s,
    count_totals_to_percents table_two_runs [10; 20] = Return rows s
    ∧ ∃ mx, max (all_state_ids table_two_runs) = inr mx
        ∧ rows = traj_rows_of rows
                 ++ [MeanRow ((λ j, mean (column_of j rows))
                                <$> seq 0 (Z.to_nat (mx + 2)));
                     StderrRow ((λ j, column_of j rows)
                                  <$> seq 0 (Z.to_nat (mx + 2)))]
        ∧ length (traj_rows_of rows) = size table_two_runs
        ∧ ∀ t cols, TrajRow t cols ∈ rows → length cols = Z.to_nat (mx + 2).
Proof.
  eexists _, _. split; [vm_compute; reflexivity|].
  eapply (summary_rows_from_columns table_two_runs [10; 20]).
  vm_compute. reflexivity.
Defined.

(** *** The percentages of the rows *)

Lemma lookup_percents_of (mx : Z) (d : gmap Z Z) (cols : list Qc) (w : Qc)
    (j : nat) (p : Qc) :
  cols = percents_of mx d ++ [w] →
  (S j < length cols)%nat →
  cols !! j = Some p →
  Z.of_nat j < mx + 1
  ∧ p = (of_int (count_of d (Z.of_nat j)) / of_int (total d))%Qc.
Proof.
  intros -> Hlt Hj. rewrite length_app, length_percents_of in Hlt. simpl in Hlt.
  split; [lia|].
  rewrite lookup_app_l in Hj by (rewrite length_percents_of; lia).
  unfold percents_of in Hj. rewrite list_lookup_fmap, lookup_range in Hj by lia.
  simpl in Hj. by injection Hj as <-.
Qed.

Lemma total_nonneg (d : gmap Z Z) :
  (∀ k v, d !! k = Some v → 0 ≤ v) → 0 ≤ total d.
Proof.
  intros Hall. unfold total. apply NumpyFacts.sum_nonneg. apply Forall_forall.
  intros v Hv. apply list_elem_of_fmap in Hv as ([k v'] & -> & Hin).
  apply elem_of_map_to_list in Hin. by eapply Hall.
Qed.

Lemma count_of_le_total (d : gmap Z Z) (k : Z) :
  (∀ k v, d !! k = Some v → 0 ≤ v) → 0 ≤ count_of d k ≤ total d.
Proof.
  intros Hall. unfold count_of. destruct (d !! k) as [v|] eqn:Hk; simpl.
  - split; [by eapply Hall|].
    rewrite <- (insert_id d k v Hk), <- insert_delete_eq.
    rewrite total_insert by apply lookup_delete_eq.
    assert (0 ≤ total (delete k d)); [|lia].
    apply total_nonneg. intros k' v' Hk'.
    apply lookup_delete_Some in Hk' as [_ Hk']. by eapply Hall.
  - split; [done|]. by apply total_nonneg.
Qed.

Lemma of_int_le (a b : Z) : a ≤ b → (of_int a ≤ of_int b)%Qc.
Proof.
  intros H. rewrite !NumpyFacts.of_int_Qc_of_Z. by apply (proj1 (Z2Qc_inj_le a b)).
Qed.

Lemma Qcdiv_le_1 (a b : Qc) : (0 < b → a ≤ b → a / b ≤ 1)%Qc.
Proof.
  intros Hb Hab. unfold Qcdiv.
  assert (Hinv : (0 ≤ / b)%Qc) by by apply Qclt_le_weak, Qcinv_pos.
  replace 1%Qc with (b * / b)%Qc.
  - by apply Qcmult_le_compat_r.
  - apply Qcmult_inv_r. intros ->. by apply Qclt_not_eq in Hb.
Qed.

(** X9.  When no count of the table is negative, every percentage of
    every trajectory row returned by [count_totals_to_percents] lies
    between 0 and 1. *)
Theorem percentages_between_0_and_1 (cts : gmap Qc (gmap Z Z)) (nm : list Z)
    (rows : list row) (s : objects) :
  (∀ t d k v, cts !! t = Some d → d !! k = Some v → 0 ≤ v) →
  count_totals_to_percents cts nm = Return rows s →
  ∀ t cols (j : nat) p,
    TrajRow t cols ∈ rows →
    (S j < length cols)%nat →
    cols !! j = Some p →
    (0 ≤ p ∧ p ≤ 1)%Qc.
Proof.
  intros Hnonneg Hrun t cols j p Hin Hlt Hj.
  apply count_totals_to_percents_inv in Hrun
    as (mx & means & samples & Hmax & Hlen & Hdiv & -> & _).
  apply traj_row_inv in Hin as (d & Hd & Hcols).
  destruct (lookup_percents_of _ _ _ _ _ _ Hcols Hlt Hj) as [Hjmx ->].
  rewrite divisible_all_iff in Hdiv. specialize (Hdiv ltac:(lia) t d Hd).
  destruct (count_of_le_total d (Z.of_nat j) (λ k v, Hnonneg t d k v Hd)) as [H0 Hle].
  assert (HT : (0 < of_int (total d))%Qc) by (apply NumpyFacts.of_int_pos; lia).
  split.
  - apply NumpyFacts.Qcdiv_nonneg; [|done]. by apply NumpyFacts.of_int_nonneg.
  - apply Qcdiv_le_1; [done|]. by apply of_int_le.
Qed.

Lemma percentages_between_0_and_1_witness :
  ∃ rows s,
    count_totals_to_percents table_two_runs [10; 20] = Return rows s
    ∧ ∀ t cols (j : nat) p,
        TrajRow t cols ∈ rows → (S j < length cols)%nat → cols !! j = Some p →
        (0 ≤ p ∧ p ≤ 1)%Qc.
Proof.
  assert (Hnonneg : ∀ t d k v, table_two_runs !! t = Some d → d !! k = Some v → 0 ≤ v).
  { intros t d k v Hd. revert k v. revert t d Hd.
    change (map_Forall (λ _ d, map_Forall (λ _ v, 0 ≤ v) (d : gmap Z Z))
              table_two_runs).
    apply (bool_decide_unpack _). vm_compute. exact I. }
  eexists _, _. split; [vm_compute; reflexivity|].
  eapply (percentages_between_0_and_1 table_two_runs [10; 20] _ _ Hnonneg).
  vm_compute. reflexivity.
Defined.

(** X10.  When [regex_counter] returns, the table has a row for
    trajectory [t] exactly when some zipped pair belongs to [t], and
    percentage [j] of that row is the number of pairs of trajectory [t]
    and state [j] divided by the number of pairs of trajectory [t]. *)
Theorem regex_counter_percentages (data_floats : list (list Qc))
    (data_regex : list (string * Z)) (traj_col : Z) (nm : list Z)
    (rows : list row) (s : objects) :
  regex_counter data_floats data_regex traj_col nm = Return rows s →
  (∀ t, (∃ cols, TrajRow t cols ∈ rows)
        ↔ 0 < observations_of traj_col t (paired data_floats data_regex))
  ∧ ∀ t cols (j : nat) p,
      TrajRow t cols ∈ rows →
      (S j < length cols)%nat →
      cols !! j = Some p →
      p = (of_int (observations traj_col t (Z.of_nat j) (paired data_floats data_regex))
           / of_int (observations_of traj_col t (paired data_floats data_regex)))%Qc.
Proof.
  rewrite regex_counter_unfold.
  pose proof (count_loop_tally traj_col (paired data_floats data_regex)
                (new_objects ∅)) as Htally.
  destruct (for_each _ _ _ _) as [[] s1|e s1]; [|done].
  destruct Htally as (Hcount & Htotal & Hkeys & _). intros Hrun.
  apply count_totals_to_percents_inv in Hrun
    as (mx & means & samples & Hmax & Hlen & Hdiv & -> & _).
  split.
  - intros t. specialize (Hkeys t).
    destruct (observations_nonneg traj_col t 0 (paired data_floats data_regex))
      as [_ Hge].
    split.
    + intros [cols Hin]. apply traj_row_inv in Hin as (d & Hd & _).
      destruct (decide (observations_of traj_col t (paired data_floats data_regex) = 0))
        as [Hz|Hnz]; [|lia].
      assert (count_totals s1 !! t = None); [|congruence].
      apply Hkeys. split; [apply lookup_empty|exact Hz].
    + intros Hpos. destruct (count_totals s1 !! t) as [d|] eqn:Hd.
      * eexists. apply elem_of_app. left. apply list_elem_of_fmap.
        exists (t, d). split; [reflexivity|]. by apply elem_of_map_to_list.
      * destruct (proj1 Hkeys eq_refl) as [_ ?]. lia.
  - intros t cols j p Hin Hlt Hj.
    apply traj_row_inv in Hin as (d & Hd & Hcols).
    destruct (lookup_percents_of _ _ _ _ _ _ Hcols Hlt Hj) as [_ ->].
    specialize (Hcount t (Z.of_nat j)). specialize (Htotal t).
    unfold count_at, total_at in Hcount, Htotal. rewrite Hd in Hcount, Htotal.
    simpl in Hcount, Htotal. rewrite lookup_empty in Hcount, Htotal.
    simpl in Hcount, Htotal. rewrite total_empty in Htotal.
    rewrite Htotal, Z.add_0_l. do 2 f_equal. unfold count_of. rewrite Hcount.
    destruct (decide _) as [Hz|Hnz]; simpl; [by rewrite Hz|done].
Qed.

Lemma regex_counter_percentages_witness :
  ∃ rows s,
    regex_counter rows_four pairs_three 2 [] = Return rows s
    ∧ (∀ t, (∃ cols, TrajRow t cols ∈ rows)
            ↔ 0 < observations_of 2 t (paired rows_four pairs_three))
    ∧ ∀ t cols (j : nat) p,
        TrajRow t cols ∈ rows →
        (S j < length cols)%nat →
        cols !! j = Some p →
        p = (of_int (observations 2 t (Z.of_nat j) (paired rows_four pairs_three))
             / of_int (observations_of 2 t (paired rows_four pairs_three)))%Qc.
Proof.
  eexists _, _. split; [vm_compute; reflexivity|].
  eapply (regex_counter_percentages rows_four pairs_three 2 []).
  vm_compute. reflexivity.
Defined.

(** *** When [regex_counter] returns *)

Lemma foldl_max_elem (l : list Z) (a : Z) :
  foldl Z.max a l = a ∨ foldl Z.max a l ∈ l.
Proof.
  revert a. induction l as [|x l IH]; intros a; [by left|]. simpl.
  destruct (IH (Z.max a x)) as [Heq|Hin].
  - rewrite Heq. destruct (Z.max_spec a x) as [[_ ->]|[_ ->]]; [right; by left|by left].
  - right. by right.
Qed.

Lemma max_spec (l : list Z) (m : Z) :
  max l = inr m ↔ m ∈ l ∧ ∀ k, k ∈ l → k ≤ m.
Proof.
  split.
  - intros Hmax. split; [|intros k; by apply max_ge].
    destruct l as [|x l]; [done|]. simpl in Hmax. injection Hmax as <-.
    destruct (foldl_max_elem l x) as [->|Hin]; [by left|by right].
  - intros [Hin Hle]. destruct l as [|x l]; [by apply elem_of_nil in Hin|].
    simpl. f_equal. apply Z.le_antisymm.
    + apply Hle. destruct (foldl_max_elem l x) as [->|?]; [by left|by right].
    + apply (max_ge (x :: l)); done.
Qed.

Lemma max_ext (l1 l2 : list Z) :
  (∀ k, k ∈ l1 ↔ k ∈ l2) → max l1 = max l2.
Proof.
  intros Hext. destruct (max l2) as [e|m] eqn:Hmax.
  - destruct l2 as [|x l2]; [|done]. simpl in Hmax. injection Hmax as <-.
    destruct l1 as [|x l1]; [done|].
    exfalso. eapply elem_of_nil, Hext. by left.
  - apply max_spec. apply max_spec in Hmax as [Hin Hle]. split.
    + by apply Hext.
    + intros k Hk. by apply Hle, Hext.
Qed.

Lemma elem_of_all_state_ids (cts : gmap Qc (gmap Z Z)) (k : Z) :
  k ∈ all_state_ids cts ↔ ∃ t, is_Some (count_at cts t k).
Proof.
  unfold all_state_ids, count_at. rewrite list_elem_of_bind. split.
  - intros (d & Hk & Hd).
    apply list_elem_of_fmap in Hd as ([t d'] & -> & Hd).
    apply elem_of_map_to_list in Hd.
    apply list_elem_of_fmap in Hk as ([k' v] & -> & Hk).
    apply elem_of_map_to_list in Hk.
    exists t. rewrite Hd. simpl. by eexists.
  - intros (t & v & Hv). destruct (cts !! t) as [d|] eqn:Hd; [|done].
    simpl in Hv. exists d. split.
    + apply list_elem_of_fmap. exists (k, v). split; [done|].
      by apply elem_of_map_to_list.
    + apply list_elem_of_fmap. exists (t, d). split; [done|].
      by apply elem_of_map_to_list.
Qed.

Lemma length_filter_ne_0 {A} (P : A → Prop) `{!∀ x, Decision (P x)} (l : list A) :
  Z.of_nat (length (filter P l)) ≠ 0 ↔ ∃ x, x ∈ l ∧ P x.
Proof.
  split.
  - intros Hne. destruct (filter P l) as [|x l'] eqn:Hf; [done|].
    assert (Hin : x ∈ filter P l) by (rewrite Hf; by left).
    apply list_elem_of_filter in Hin as [? ?]. by exists x.
  - intros (x & Hin & HP) Hz.
    assert (Hx : x ∈ filter P l) by by apply list_elem_of_filter.
    destruct (filter P l); [by apply elem_of_nil in Hx|done].
Qed.

(** The state ids of the table built by the counting loop are those of
    the pairs. *)
Lemma all_state_ids_tally (traj_col : Z) (pairs : list (list Qc * Z)) (s : objects) :
  for_each pairs (count_step traj_col) tt (new_objects ∅) = Return tt s →
  ∀ k, k ∈ all_state_ids (count_totals s) ↔ k ∈ pairs.*2.
Proof.
  intros Hrun k. pose proof (count_loop_tally traj_col pairs (new_objects ∅)) as Ht.
  rewrite Hrun in Ht. destruct Ht as (Hcount & _ & _ & Hvalid).
  rewrite elem_of_all_state_ids. rewrite Forall_forall in Hvalid. split.
  - intros [t Hsome]. rewrite Hcount in Hsome.
    destruct (decide (observations traj_col t k pairs = 0)) as [_|Hne].
    { unfold count_at in Hsome. simpl in Hsome. rewrite lookup_empty in Hsome.
      by destruct Hsome. }
    apply length_filter_ne_0 in Hne as ([line st] & Hin & _ & Hst).
    simpl in Hst. subst st. apply list_elem_of_fmap. by exists (line, k).
  - intros Hin. apply list_elem_of_fmap in Hin as ([line st] & -> & Hin).
    destruct (Hvalid _ Hin) as [t Ht]. exists t. rewrite Hcount. simpl in *.
    destruct (decide (observations traj_col t st pairs = 0)) as [Hz|_]; [|by eexists].
    exfalso. revert Hz. apply length_filter_ne_0. by exists (line, st).
Qed.

(** X11.  [regex_counter] returns a table exactly when every zipped row
    has a column [traj_col], there is at least one pair, the largest
    state id max-id of the pairs is at least -1, and the weight map is
    absent or of length max-id+1. *)
Theorem regex_counter_returns_iff (data_floats : list (list Qc))
    (data_regex : list (string * Z)) (traj_col : Z) (nm : list Z) :
  (∃ rows s, regex_counter data_floats data_regex traj_col nm = Return rows s)
  ↔ Forall (λ p, ∃ t, getitem p.1 traj_col = inr t) (paired data_floats data_regex)
    ∧ ∃ mx, max (paired data_floats data_regex).*2 = inr mx
        ∧ -1 ≤ mx
        ∧ (nm = [] ∨ Z.of_nat (length nm) = mx + 1).
Proof.
  rewrite regex_counter_unfold.
  pose proof (count_loop_tally traj_col (paired data_floats data_regex)
                (new_objects ∅)) as Htally.
  pose proof (all_state_ids_tally traj_col (paired data_floats data_regex)) as Hids.
  destruct (for_each _ _ _ _) as [[] s1|e s1].
  - destruct Htally as (_ & Htotal & Hkeys & Hvalid).
    specialize (Hids s1 eq_refl). apply max_ext in Hids. rewrite <- Hids.
    split.
    + intros (rows & s & Hrun). split; [done|].
      apply count_totals_to_percents_inv in Hrun
        as (mx & means & samples & Hmax & Hlen & _).
      exists mx. split; [done|].
      apply default_map_length_iff in Hlen as [[? ?]|[? ?]].
      * split; [done|by left].
      * split; [lia|by right].
    + intros (_ & mx & Hmax & Hmx & Hnm).
      destruct (count_totals_to_percents_returns (count_totals s1) nm mx Hmax)
        as (s & means & samples & Hret & _).
      * apply default_map_length_iff. destruct nm as [|w nm].
        -- by left.
        -- right. split; [done|]. by destruct Hnm.
      * apply divisible_all_iff. intros _ t d Hd Hz.
        specialize (Htotal t). unfold total_at in Htotal. rewrite Hd in Htotal.
        simpl in Htotal. rewrite lookup_empty in Htotal. simpl in Htotal.
        rewrite total_empty in Htotal.
        assert (count_totals s1 !! t = None); [|congruence].
        apply Hkeys. split; [apply lookup_empty|lia].
      * by eexists _, _.
  - destruct Htally as (-> & Hex & _). split.
    + by intros (rows & s & ?).
    + intros [Hvalid _]. exfalso.
      apply Exists_exists in Hex as (p & Hin & Hp).
      rewrite Forall_forall in Hvalid. destruct (Hvalid p Hin) as [t Ht]. congruence.
Qed.

(** *** The order of the observations *)

Lemma observations_Permutation (traj_col : Z) (t : Qc) (k : Z)
    (pairs pairs' : list (list Qc * Z)) :
  pairs ≡ₚ pairs' →
  observations traj_col t k pairs = observations traj_col t k pairs'
  ∧ observations_of traj_col t pairs = observations_of traj_col t pairs'.
Proof.
  intros HP. unfold observations, observations_of. by rewrite HP.
Qed.

(** The count table is determined by the numbers of observations. *)
Lemma count_table_ext (traj_col : Z) (pairs pairs' : list (list Qc * Z))
    (s s' : objects) :
  pairs ≡ₚ pairs' →
  for_each pairs (count_step traj_col) tt (new_objects ∅) = Return tt s →
  for_each pairs' (count_step traj_col) tt (new_objects ∅) = Return tt s' →
  count_totals s = count_totals s'.
Proof.
  intros HP Hrun Hrun'.
  pose proof (count_loop_tally traj_col pairs (new_objects ∅)) as Ht.
  pose proof (count_loop_tally traj_col pairs' (new_objects ∅)) as Ht'.
  rewrite Hrun in Ht. rewrite Hrun' in Ht'.
  destruct Ht as (Hc & _ & Hk & _), Ht' as (Hc' & _ & Hk' & _).
  apply map_eq. intros t.
  destruct (count_totals s !! t) as [d|] eqn:Hd;
    destruct (count_totals s' !! t) as [d'|] eqn:Hd'.
  - f_equal. apply map_eq. intros k.
    specialize (Hc t k). specialize (Hc' t k). unfold count_at in Hc, Hc'.
    rewrite Hd in Hc. rewrite Hd' in Hc'. simpl in Hc, Hc'.
    rewrite Hc, Hc'.
    by rewrite (proj1 (observations_Permutation traj_col t k _ _ HP)).
  - destruct (proj1 (Hk' t) Hd') as [_ Hz].
    rewrite <- (proj2 (observations_Permutation traj_col t 0 _ _ HP)) in Hz.
    rewrite (proj2 (Hk t)) in Hd; [done|]. split; [apply lookup_empty|done].
  - destruct (proj1 (Hk t) Hd) as [_ Hz].
    rewrite (proj2 (observations_Permutation traj_col t 0 _ _ HP)) in Hz.
    rewrite (proj2 (Hk' t)) in Hd'; [done|]. split; [apply lookup_empty|done].
  - done.
Qed.

(** X23.  The trajectory rows returned by [regex_counter] do not
    depend on the order of the observations: when the zipped pairs of
    two inputs are rearrangements of each other and [regex_counter]
    returns on the first, it returns on the second, with a table of the
    same number of rows in which every trajectory that has a pair has a
    row, the same in both tables (the same percentages and the same
    weighted average), and there is no other trajectory row.  The order
    of the trajectory rows in the table is not part of the statement:
    it is the order in which the dictionary is iterated. *)
Theorem regex_counter_order (data_floats data_floats' : list (list Qc))
    (data_regex data_regex' : list (string * Z)) (traj_col : Z) (nm : list Z)
    (rows : list row) (s : objects) :
  paired data_floats data_regex ≡ₚ paired data_floats' data_regex' →
  regex_counter data_floats data_regex traj_col nm = Return rows s →
  ∃ rows' s',
    regex_counter data_floats' data_regex' traj_col nm = Return rows' s'
    ∧ length rows' = length rows
    ∧ (∀ t cols, TrajRow t cols ∈ rows' ↔ TrajRow t cols ∈ rows)
    ∧ ∀ t, 0 < observations_of traj_col t (paired data_floats data_regex) →
        ∃ cols, TrajRow t cols ∈ rows ∧ TrajRow t cols ∈ rows'.
Proof.
  intros HP. rewrite !regex_counter_unfold.
  pose proof (count_loop_tally traj_col (paired data_floats data_regex)
                (new_objects ∅)) as Ht.
  pose proof (count_loop_tally traj_col (paired data_floats' data_regex')
                (new_objects ∅)) as Ht'.
  destruct (for_each (paired data_floats data_regex) _ tt _) as [[] s1|e s1] eqn:Hrun;
    [|done].
  destruct (for_each (paired data_floats' data_regex') _ tt _) as [[] s2|e s2] eqn:Hrun'.
  - rewrite (count_table_ext _ _ _ _ _ HP Hrun Hrun'). intros Hret.
    exists rows, s. do 3 (split; [done|]). intros t Hpos.
    destruct Ht' as (_ & _ & Hkeys & _). specialize (Hkeys t).
    rewrite <- (proj2 (observations_Permutation traj_col t 0 _ _ HP)) in Hkeys.
    apply count_totals_to_percents_inv in Hret
      as (mx & means & samples & _ & _ & _ & -> & _).
    destruct (count_totals s2 !! t) as [d|] eqn:Hd.
    + assert (Hin : row_of mx (default_num_ions_map mx nm) (t, d)
                    ∈ (row_of mx (default_num_ions_map mx nm)
                         <$> map_to_list (count_totals s2))
                        ++ [MeanRow means; StderrRow samples]).
      { apply elem_of_app. left. apply list_elem_of_fmap.
        exists (t, d). split; [done|]. by apply elem_of_map_to_list. }
      by eexists.
    + destruct (proj1 Hkeys eq_refl) as [_ ?]. lia.
  - destruct Ht as (_ & _ & _ & Hvalid), Ht' as (_ & Hex & _).
    rewrite HP in Hvalid. apply Exists_exists in Hex as (p & Hin & Hp).
    rewrite Forall_forall in Hvalid. destruct (Hvalid p Hin) as [t Hgood]. congruence.
Qed.

Lemma regex_counter_order_witness :
  ∃ rows s rows' s',
    regex_counter rows_four pairs_four 2 [] = Return rows s
    ∧ regex_counter (reverse rows_four) (reverse pairs_four) 2 [] = Return rows' s'
    ∧ length rows' = length rows
    ∧ (∀ t cols, TrajRow t cols ∈ rows' ↔ TrajRow t cols ∈ rows)
    ∧ ∀ t, 0 < observations_of 2 t (paired rows_four pairs_four) →
        ∃ cols, TrajRow t cols ∈ rows ∧ TrajRow t cols ∈ rows'.
Proof.
  assert (HP : paired rows_four pairs_four
               ≡ₚ paired (reverse rows_four) (reverse pairs_four)).
  { apply (bool_decide_unpack _). vm_compute. exact I. }
  assert (Hrun : ∃ rows s, regex_counter rows_four pairs_four 2 [] = Return rows s).
  { eexists _, _. vm_compute. reflexivity. }
  destruct Hrun as (rows & s & Hrun).
  destruct (regex_counter_order rows_four (reverse rows_four) pairs_four
              (reverse pairs_four) 2 [] rows s HP Hrun) as (rows' & s' & H).
  by exists rows, s, rows', s'.
Defined.

(** *** The MEAN row as a distribution *)

Lemma fsum_fmap_add {A} (f g : A → Qc) (l : list A) :
  fsum ((λ x, f x + g x)%Qc <$> l) = (fsum (f <$> l) + fsum (g <$> l))%Qc.
Proof.
  induction l as [|x l IH]; [unfold fsum; simpl; ring|].
  rewrite !fmap_cons, !fsum_cons, IH. ring.
Qed.

Lemma fsum_fmap_div {A} (f : A → Qc) (c : Qc) (l : list A) :
  fsum ((λ x, f x / c)%Qc <$> l) = (fsum (f <$> l) / c)%Qc.
Proof.
  induction l as [|x l IH]; [unfold fsum, Qcdiv; simpl; ring|].
  rewrite !fmap_cons, !fsum_cons, IH. unfold Qcdiv. ring.
Qed.

Lemma fsum_zeros {A} (l : list A) : fsum ((λ _, 0%Qc) <$> l) = 0%Qc.
Proof.
  induction l as [|x l IH]; [done|]. rewrite fmap_cons, fsum_cons, IH. ring.
Qed.

Lemma fmap_lookups (cols : list Qc) (n : nat) :
  (n ≤ length cols)%nat →
  (λ j, default 0%Qc (cols !! j)) <$> seq 0 n = take n cols.
Proof.
  intros Hn. apply list_eq. intros i. rewrite list_lookup_fmap, lookup_take.
  destruct (decide (i < n)%nat) as [Hi|Hi].
  - rewrite lookup_seq_lt by done. simpl.
    destruct (lookup_lt_is_Some_2 cols i) as [x Hx]; [lia|]. by rewrite Hx.
  - by rewrite lookup_seq_ge by lia.
Qed.

Lemma column_of_cons (j : nat) (t : Qc) (cols : list Qc) (rows : list row) :
  column_of j (TrajRow t cols :: rows)
  = default 0%Qc (cols !! j) :: column_of j rows.
Proof. reflexivity. Qed.

Lemma length_column_of (j : nat) (rows : list row) :
  Forall (λ r, is_traj_row r = true) rows → length (column_of j rows) = length rows.
Proof.
  induction 1 as [|r rows Hr _ IH]; [done|].
  destruct r; try done. rewrite column_of_cons. simpl. by rewrite IH.
Qed.

(** The columns of rows of percentages add up to the number of rows. *)
Lemma sum_columns (n : nat) (rows : list row) :
  Forall (λ r, ∃ t cols, r = TrajRow t cols ∧ (n ≤ length cols)%nat
                 ∧ fsum (take n cols) = 1%Qc) rows →
  fsum ((λ j, fsum (column_of j rows)) <$> seq 0 n)
  = of_int (Z.of_nat (length rows)).
Proof.
  induction 1 as [|r rows (t & cols & -> & Hn & Hone) _ IH].
  - apply fsum_zeros.
  - replace (length (TrajRow t cols :: rows)) with (S (length rows)) by done.
    rewrite Nat2Z.inj_succ. unfold Z.succ. rewrite of_int_add, <- IH.
    change (of_int 1) with 1%Qc.
    rewrite <- Hone, <- (fmap_lookups cols n Hn), Qcplus_comm.
    rewrite <- fsum_fmap_add. f_equal. apply list_fmap_ext. intros _ j _.
    by rewrite column_of_cons, fsum_cons.
Qed.

(** X24.  For a count table whose state ids are all non-negative and
    in which every trajectory has a positive total count, the table
    returned by [count_totals_to_percents] has exactly one MEAN row; it
    has max-id+2 entries, and over exact rationals (the reading of a
    float in this embedding; the rounding of the code's doubles is not
    covered) its first max-id+1 entries, the mean percentages of the
    states, add up to 1. *)
Theorem mean_percentages_sum_to_one (cts : gmap Qc (gmap Z Z)) (nm : list Z)
    (rows : list row) (s : objects) :
  (∀ t d, cts !! t = Some d → 0 < total d) →
  (∀ t d k, cts !! t = Some d → is_Some (d !! k) → 0 ≤ k) →
  count_totals_to_percents cts nm = Return rows s →
  ∃ mx means,
    max (all_state_ids cts) = inr mx
    ∧ MeanRow means ∈ rows
    ∧ (∀ means', MeanRow means' ∈ rows → means' = means)
    ∧ length means = Z.to_nat (mx + 2)
    ∧ fsum (take (Z.to_nat (mx + 1)) means) = 1%Qc.
Proof.
  intros Hpos Hnonneg Hrun.
  destruct (count_totals_to_percents_inv _ _ _ _ Hrun)
    as (mx & means0 & samples0 & Hmax & _ & _ & Hrows & _).
  apply count_totals_to_percents_summary in Hrun
    as (mx' & new & Hmax' & Hmx & Hlen & Hall & Hrows').
  rewrite Hmax in Hmax'. injection Hmax' as <-.
  assert (Hper : Forall (λ r, ∃ t cols, r = TrajRow t cols
                   ∧ (Z.to_nat (mx + 1) ≤ length cols)%nat
                   ∧ fsum (take (Z.to_nat (mx + 1)) cols) = 1%Qc) new).
  { apply Forall_forall. intros r Hr. rewrite Forall_forall in Hall.
    destruct (Hall r Hr) as (t & cols & -> & Hc). exists t, cols.
    split; [done|]. split; [lia|].
    assert (Hin : TrajRow t cols ∈ rows).
    { rewrite Hrows'. apply elem_of_app. by left. }
    rewrite Hrows in Hin. apply traj_row_inv in Hin as (d & Hd & ->).
    rewrite <- (length_percents_of mx d), take_app_length.
    apply fsum_percents_of.
    - specialize (Hpos t d Hd). lia.
    - intros k Hk. split; [by eapply Hnonneg|by eapply state_id_le_max]. }
  assert (Hsize : length new ≠ 0%nat).
  { rewrite Hlen. intros Hz. apply map_size_empty_inv in Hz. subst cts.
    by rewrite (proj2 (all_state_ids_nil ∅)) in Hmax. }
  eexists mx, _. split; [done|]. split.
  { rewrite Hrows'. apply elem_of_app. right. by left. }
  split.
  { intros means' Hin. rewrite Hrows' in Hin. apply elem_of_app in Hin as [Hin|Hin].
    - rewrite Forall_forall in Hall. by destruct (Hall _ Hin) as (t & cols & ? & _).
    - apply elem_of_cons in Hin as [[= ->]|Hin]; [done|].
      apply elem_of_cons in Hin as [?|Hin]; [done|]. by apply elem_of_nil in Hin. }
  split; [by rewrite length_fmap, length_seq|].
  rewrite <- fmap_take, take_seq.
  replace (Z.to_nat (mx + 1) `min` Z.to_nat (mx + 2))%nat with (Z.to_nat (mx + 1))
    by lia.
  assert (Htraj : Forall (λ r, is_traj_row r = true) new).
  { eapply Forall_impl; [exact Hall|]. by intros r (t & cols & -> & _). }
  rewrite (list_fmap_ext _ (λ j, fsum (column_of j new)
                                 / of_int (Z.of_nat (length new)))%Qc).
  2: { intros _ j _. unfold mean. by rewrite length_column_of. }
  rewrite fsum_fmap_div, (sum_columns _ _ Hper).
  apply Qcmult_inv_r. intros Hz. apply Hsize.
  apply Nat2Z.inj, of_int_inj. by rewrite Hz.
Qed.

Lemma mean_percentages_sum_to_one_witness :
  ∃ rows s,
    count_totals_to_percents table_two_runs [10; 20] = Return rows s
    ∧ ∃ mx means,
        max (all_state_ids table_two_runs) = inr mx
        ∧ MeanRow means ∈ rows
        ∧ (∀ means', MeanRow means' ∈ rows → means' = means)
        ∧ length means = Z.to_nat (mx + 2)
        ∧ fsum (take (Z.to_nat (mx + 1)) means) = 1%Qc.
Proof.
  assert (Hpos : ∀ t d, table_two_runs !! t = Some d → 0 < total d).
  { change (map_Forall (λ _ d, 0 < total d) table_two_runs).
    apply (bool_decide_unpack _). vm_compute. exact I. }
  assert (Hnonneg : ∀ t d k, table_two_runs !! t = Some d → is_Some (d !! k) → 0 ≤ k).
  { intros t d k Hd [v Hk]. revert k v Hk. revert t d Hd.
    change (map_Forall (λ _ d, map_Forall (λ k _, 0 ≤ k) (d : gmap Z Z))
              table_two_runs).
    apply (bool_decide_unpack _). vm_compute. exact I. }
  eexists _, _. split; [vm_compute; reflexivity|].
  eapply (mean_percentages_sum_to_one table_two_runs [10; 20] _ _ Hpos Hnonneg).
  vm_compute. reflexivity.
Defined.

End RegexMore.

(** ** More on compute_dihedral_timeseries: exceptions, keys, composition *)

Module SeriesMore.
Import Py PyFacts Numpy Histograms SeriesFacts.

Lemma getitem_cases {A} (l : list A) (i : Z) :
  getitem l i = inl IndexError ∨ ∃ x, getitem l i = inr x.
Proof.
  destruct (getitem l i) as [e|x] eqn:Hget; [|right; by exists x].
  left. by rewrite (RegexFacts.getitem_raises _ _ _ Hget).
Qed.

Lemma in_step_empty : in_step (Series ∅ ∅).
Proof. intros t j. unfold series_at. simpl. by rewrite lookup_empty. Qed.

(** Lines 44-49 from a state whose maps are in step. *)
Lemma record_value_cases (line : list Qc) (t : Qc) (j : nat) (col : Z) (st : series) :
  (∃ x, getitem line 0 = inr x) →
  in_step st →
  match record_value line t j col st with
  | Return _ st' => in_step st' ∧ ∃ x, getitem line col = inr x
  | Raise e _ => e = IndexError ∧ getitem line col = inl IndexError
  end.
Proof.
  intros Hfirst Hstep. destruct (getitem_cases line col) as [Hbad|Hcol].
  - unfold record_value, bind at 1, modify. unfold bind at 1, get.
    destruct (default ∅ _ !! j); unfold bind at 1; by rewrite Hbad.
  - destruct (record_value_step line t j col st Hcol Hfirst (Hstep t j))
      as (st' & -> & Hdih & Htime & _).
    split; [|done]. intros t' j'. rewrite Hdih, Htime.
    destruct (decide (t' = t ∧ j' = j)); [|apply Hstep].
    split; intros _; by eexists.
Qed.

(** The loop of line 43 over any list of numbered columns. *)
Lemma columns_cases (line : list Qc) (t : Qc) (l : list (nat * Z)) :
  (∃ x, getitem line 0 = inr x) →
  ∀ st : series,
    in_step st →
    match for_each l (λ _ '(res_id, col), record_value line t res_id col) tt st with
    | Return _ st' => in_step st' ∧ Forall (λ p, ∃ x, getitem line p.2 = inr x) l
    | Raise e _ => e = IndexError
                   ∧ Exists (λ p, getitem line p.2 = inl IndexError) l
    end.
Proof.
  intros Hfirst. induction l as [|[j col] l IH]; intros st Hstep; [done|].
  cbn [for_each]. unfold bind at 1.
  pose proof (record_value_cases line t j col st Hfirst Hstep) as Hone.
  destruct (record_value line t j col st) as [[] st1|e st1].
  - destruct Hone as [Hstep1 Hcol]. specialize (IH st1 Hstep1).
    destruct (for_each l _ tt st1) as [[] st2|e st2].
    + destruct IH as [? ?]. split; [done|]. by apply Forall_cons.
    + destruct IH as [? ?]. split; [done|]. by apply Exists_cons_tl.
  - destruct Hone as [-> Hbad]. split; [done|]. by apply Exists_cons_hd.
Qed.

Lemma Forall_enumerate (P : Z → Prop) (cols : list Z) :
  Forall (λ p : nat * Z, P p.2) (enumerate cols) ↔ Forall P cols.
Proof.
  unfold enumerate. rewrite !Forall_lookup. split.
  - intros H j col Hj. apply (H j (j, col)). by rewrite list_lookup_imap, Hj.
  - intros H j [j' col] Hj. rewrite list_lookup_imap in Hj.
    destruct (cols !! j) as [c|] eqn:Hc; [|done]. injection Hj as <- <-.
    by apply (H j).
Qed.

(** The loop of line 41. *)
Lemma lines_cases (cols : list Z) (traj_col : Z) (data_lines : list (list Qc)) :
  ∀ st : series,
    in_step st →
    match for_each data_lines (λ _ line,
            let! traj_id := lift (getitem line traj_col) in
            for_each (enumerate cols) (λ _ '(res_id, col),
              record_value line traj_id res_id col) tt) tt st with
    | Return _ st' => in_step st' ∧ Forall (readable cols traj_col) data_lines
    | Raise e _ => e = IndexError
                   ∧ ¬ Forall (readable cols traj_col) data_lines
    end.
Proof.
  induction data_lines as [|line rest IH]; intros st Hstep; [done|].
  cbn [for_each]. unfold bind at 1. unfold bind at 1.
  destruct (getitem_cases line traj_col) as [Hbad|[t Ht]].
  { rewrite Hbad. simpl. split; [done|].
    intros [[[t Ht] _] _]%Forall_cons. congruence. }
  rewrite Ht. simpl.
  pose proof (columns_cases line t (enumerate cols)
                (getitem_first line traj_col (ex_intro _ t Ht)) st Hstep) as Hcols.
  destruct (for_each (enumerate cols) _ tt st) as [[] st1|e st1].
  - destruct Hcols as [Hstep1 Hcols].
    apply (Forall_enumerate (λ col, ∃ x, getitem line col = inr x)) in Hcols.
    specialize (IH st1 Hstep1).
    destruct (for_each rest _ tt st1) as [[] st2|e st2].
    + destruct IH as [? ?]. split; [done|]. apply Forall_cons.
      split; [|done]. split; [by exists t|done].
    + destruct IH as [? Hrest]. split; [done|].
      intros [_ ?]%Forall_cons. by apply Hrest.
  - destruct Hcols as [-> Hex]. split; [done|].
    intros [[_ Hall] _]%Forall_cons.
    apply Exists_exists in Hex as ([j col] & Hin & Hbad). simpl in Hbad.
    apply (Forall_enumerate (λ col, ∃ x, getitem line col = inr x)) in Hall.
    rewrite Forall_forall in Hall.
    destruct (Hall _ Hin) as [x Hx]. simpl in Hx. congruence.
Qed.

Lemma timeseries_unfold (data_lines : list (list Qc)) (cols : list Z) (traj_col : Z) :
  compute_dihedral_timeseries data_lines cols traj_col
  = match for_each data_lines (λ _ line,
            let! traj_id := lift (getitem line traj_col) in
            for_each (enumerate cols) (λ _ '(res_id, col),
              record_value line traj_id res_id col) tt) tt (Series ∅ ∅) with
    | Return _ st => Return (dihedral_per_traj st, time_per_traj st) st
    | Raise e st => Raise e st
    end.
Proof. reflexivity. Qed.

(** X12.  [compute_dihedral_timeseries] raises nothing but [IndexError]
    (never the [KeyError] of a time list missing for a known series),
    and it raises exactly when some row lacks the trajectory column or
    one of the requested columns. *)
Theorem timeseries_raises_index_error (data_lines : list (list Qc))
    (dihedral_cols : list Z) (traj_col : Z) :
  (∀ e st, compute_dihedral_timeseries data_lines dihedral_cols traj_col
           = Raise e st → e = IndexError)
  ∧ ((∃ st, compute_dihedral_timeseries data_lines dihedral_cols traj_col
            = Raise IndexError st)
     ↔ ¬ Forall (λ line, (∃ t, getitem line traj_col = inr t)
                         ∧ Forall (λ col, ∃ x, getitem line col = inr x)
                                  dihedral_cols) data_lines).
Proof.
  pose proof (lines_cases dihedral_cols traj_col data_lines (Series ∅ ∅)
                in_step_empty) as Hcases.
  rewrite timeseries_unfold.
  destruct (for_each data_lines _ tt (Series ∅ ∅)) as [[] st1|e st1].
  - destruct Hcases as [_ Hall]. split; [done|]. split.
    + by intros [st ?].
    + intros Hnot. by destruct Hnot.
  - destruct Hcases as [-> Hnot]. split.
    + by intros e st [= <- _].
    + split; [done|]. intros _. by exists st1.
Qed.

Lemma series_read_empty (cols : list Z) (traj_col : Z) :
  series_read cols traj_col [] (Series ∅ ∅).
Proof.
  split; [|split].
  - intros t j. unfold series_at, expected_at. simpl. rewrite lookup_empty.
    simpl. by destruct (cols !! j).
  - intros t j. unfold series_at, expected_at. simpl. rewrite lookup_empty.
    simpl. by destruct (cols !! j).
  - intros t _. simpl. by rewrite !lookup_empty.
Qed.

(** The maps returned for readable rows. *)
Lemma timeseries_returns (data_lines : list (list Qc)) (cols : list Z) (traj_col : Z) :
  Forall (readable cols traj_col) data_lines →
  ∃ st, compute_dihedral_timeseries data_lines cols traj_col
        = Return (dihedral_per_traj st, time_per_traj st) st
      ∧ series_read cols traj_col data_lines st.
Proof.
  intros Hall.
  destruct (lines_loop cols traj_col data_lines Hall [] (Series ∅ ∅)
              (series_read_empty cols traj_col)) as (st & Hrun & Hread).
  exists st. rewrite timeseries_unfold, Hrun. done.
Qed.

Lemma timeseries_inv (data_lines : list (list Qc)) (cols : list Z) (traj_col : Z)
    (dmap tmap : gmap Qc (gmap nat (list Qc))) (st : series) :
  compute_dihedral_timeseries data_lines cols traj_col = Return (dmap, tmap) st →
  Forall (readable cols traj_col) data_lines
  ∧ dmap = dihedral_per_traj st
  ∧ tmap = time_per_traj st
  ∧ series_read cols traj_col data_lines st.
Proof.
  intros Hrun.
  assert (Hall : Forall (readable cols traj_col) data_lines).
  { pose proof (lines_cases cols traj_col data_lines (Series ∅ ∅) in_step_empty)
      as Hcases.
    rewrite timeseries_unfold in Hrun.
    destruct (for_each data_lines _ tt (Series ∅ ∅)) as [[] st1|e st1]; [|done].
    by destruct Hcases. }
  split; [done|].
  destruct (timeseries_returns _ _ _ Hall) as (st' & Hrun' & Hread).
  rewrite Hrun' in Hrun. by injection Hrun as <- <- <-.
Qed.

(** X13.  In the maps returned by [compute_dihedral_timeseries] every
    list of dihedral values has a list of times of the same length, and
    all series of one trajectory have the same list of times and the
    same number of values. *)
Theorem time_lists_parallel (data_lines : list (list Qc)) (dihedral_cols : list Z)
    (traj_col : Z) (dmap tmap : gmap Qc (gmap nat (list Qc))) (st : series) :
  compute_dihedral_timeseries data_lines dihedral_cols traj_col
    = Return (dmap, tmap) st →
  ∀ t j vals,
    series_at dmap t j = Some vals →
    ∃ times,
      series_at tmap t j = Some times
      ∧ length times = length vals
      ∧ ∀ j' vals', series_at dmap t j' = Some vals' →
          series_at tmap t j' = Some times ∧ length vals' = length vals.
Proof.
  intros Hrun t j vals Hvals.
  apply timeseries_inv in Hrun as (_ & -> & -> & Hdih & Htime & _).
  rewrite Hdih in Hvals. unfold expected_at in Hvals.
  destruct (dihedral_cols !! j) as [col|] eqn:Hcol; [|done].
  destruct (rows_of_traj traj_col t data_lines) as [|r rs] eqn:Hrows; [done|].
  apply (inj Some) in Hvals as <-.
  exists (item 0 <$> r :: rs). split; [|split].
  - rewrite Htime. unfold expected_at. by rewrite Hcol, Hrows.
  - by rewrite !length_fmap.
  - intros j' vals' Hvals'. rewrite Hdih in Hvals'. rewrite Htime.
    unfold expected_at in *. rewrite Hrows in *.
    destruct (dihedral_cols !! j') as [col'|]; [|done].
    apply (inj Some) in Hvals' as <-. split; [done|]. by rewrite !length_fmap.
Qed.

Lemma time_lists_parallel_witness :
  ∃ dmap tmap st,
    compute_dihedral_timeseries rows_angles [0; 1] 2 = Return (dmap, tmap) st
    ∧ ∀ t j vals,
        series_at dmap t j = Some vals →
        ∃ times,
          series_at tmap t j = Some times
          ∧ length times = length vals
          ∧ ∀ j' vals', series_at dmap t j' = Some vals' →
              series_at tmap t j' = Some times ∧ length vals' = length vals.
Proof.
  destruct (timeseries_returns rows_angles [0; 1] 2) as (st & Hrun & _).
  { repeat constructor; eexists; vm_compute; reflexivity. }
  exists (dihedral_per_traj st), (time_per_traj st), st. split; [exact Hrun|].
  exact (time_lists_parallel rows_angles [0; 1] 2 _ _ st Hrun).
Defined.

Lemma lines_no_columns (traj_col : Z) (data_lines : list (list Qc)) :
  ∀ st st' : series,
    for_each data_lines (λ _ line,
      let! traj_id := lift (getitem line traj_col) in
      for_each (enumerate []) (λ _ '(res_id, col),
        record_value line traj_id res_id col) tt) tt st = Return tt st' →
    st' = st.
Proof.
  induction data_lines as [|line rest IH]; intros st st' Hrun.
  - simpl in Hrun. by injection Hrun as <-.
  - cbn [for_each] in Hrun. unfold bind at 1 in Hrun. unfold bind at 1 in Hrun.
    destruct (getitem line traj_col) as [e|t]; [done|]. simpl in Hrun.
    by apply IH.
Qed.

(** X14.  In the maps returned by [compute_dihedral_timeseries] a
    trajectory is a key exactly when some row belongs to it and at least
    one column is requested; both maps have the same keys.  In
    particular no row or no requested column gives two empty maps. *)
Theorem timeseries_keys (data_lines : list (list Qc)) (dihedral_cols : list Z)
    (traj_col : Z) (dmap tmap : gmap Qc (gmap nat (list Qc))) (st : series) :
  compute_dihedral_timeseries data_lines dihedral_cols traj_col
    = Return (dmap, tmap) st →
  ∀ t, (is_Some (dmap !! t)
        ↔ rows_of_traj traj_col t data_lines ≠ [] ∧ dihedral_cols ≠ [])
       ∧ (is_Some (tmap !! t) ↔ is_Some (dmap !! t)).
Proof.
  intros Hrun t. destruct dihedral_cols as [|col cols].
  - rewrite timeseries_unfold in Hrun.
    destruct (for_each data_lines _ tt (Series ∅ ∅)) as [[] st1|e st1] eqn:Hloop;
      [|done].
    apply lines_no_columns in Hloop as ->. injection Hrun as <- <- _.
    rewrite lookup_empty.
    split; split; intros H; try done; try (by apply is_Some_None in H);
      by destruct H.
  - apply timeseries_inv in Hrun as (_ & -> & -> & Hdih & Htime & Hkeys).
    destruct (rows_of_traj traj_col t data_lines) as [|r rs] eqn:Hrows.
    + destruct (Hkeys t Hrows) as [-> ->].
      split; split; intros H; try done; try (by apply is_Some_None in H);
        by destruct H.
    + specialize (Hdih t 0%nat). specialize (Htime t 0%nat).
      unfold expected_at in Hdih, Htime. rewrite Hrows in Hdih, Htime.
      simpl in Hdih, Htime. unfold series_at in Hdih, Htime.
      destruct (dihedral_per_traj st !! t); [|done].
      destruct (time_per_traj st !! t); [|done].
      split; split; intros _; try done; by eexists.
Qed.

Lemma timeseries_keys_witness :
  ∃ dmap tmap st,
    compute_dihedral_timeseries rows_angles [0; 1] 2 = Return (dmap, tmap) st
    ∧ ∀ t, (is_Some (dmap !! t)
            ↔ rows_of_traj 2 t rows_angles ≠ [] ∧ [0; 1] ≠ [])
           ∧ (is_Some (tmap !! t) ↔ is_Some (dmap !! t)).
Proof.
  destruct (timeseries_returns rows_angles [0; 1] 2) as (st & Hrun & _).
  { repeat constructor; eexists; vm_compute; reflexivity. }
  exists (dihedral_per_traj st), (time_per_traj st), st. split; [exact Hrun|].
  exact (timeseries_keys rows_angles [0; 1] 2 _ _ st Hrun).
Defined.

Lemma default_expected_at (pick : Z → Z) (cols : list Z) (traj_col : Z)
    (rows : list (list Qc)) (t : Qc) (j : nat) :
  default [] (expected_at pick cols traj_col rows t j)
  = match cols !! j with
    | Some col => item (pick col) <$> rows_of_traj traj_col t rows
    | None => []
    end.
Proof.
  unfold expected_at. destruct (cols !! j); [|done].
  by destruct (rows_of_traj traj_col t rows).
Qed.

Lemma default_expected_at_app (pick : Z → Z) (cols : list Z) (traj_col : Z)
    (rows1 rows2 : list (list Qc)) (t : Qc) (j : nat) :
  default [] (expected_at pick cols traj_col (rows1 ++ rows2) t j)
  = default [] (expected_at pick cols traj_col rows1 t j)
      ++ default [] (expected_at pick cols traj_col rows2 t j).
Proof.
  rewrite !default_expected_at. destruct (cols !! j); [|done].
  unfold rows_of_traj. by rewrite filter_app, fmap_app.
Qed.

(** X15.  Reading two lists of rows one after the other concatenates
    the series: when [compute_dihedral_timeseries] returns on
    [rows1 ++ rows2] it returns on [rows1] and on [rows2], and every
    series of the result is the series of [rows1] followed by the series
    of [rows2] (an absent series counting as empty), for the dihedral
    values and for the times. *)
Theorem timeseries_of_concatenation (rows1 rows2 : list (list Qc))
    (dihedral_cols : list Z) (traj_col : Z)
    (dmap tmap : gmap Qc (gmap nat (list Qc))) (st : series) :
  compute_dihedral_timeseries (rows1 ++ rows2) dihedral_cols traj_col
    = Return (dmap, tmap) st →
  ∃ dmap1 tmap1 st1 dmap2 tmap2 st2,
    compute_dihedral_timeseries rows1 dihedral_cols traj_col
      = Return (dmap1, tmap1) st1
    ∧ compute_dihedral_timeseries rows2 dihedral_cols traj_col
      = Return (dmap2, tmap2) st2
    ∧ ∀ t j,
        default [] (series_at dmap t j)
        = default [] (series_at dmap1 t j) ++ default [] (series_at dmap2 t j)
        ∧ default [] (series_at tmap t j)
          = default [] (series_at tmap1 t j) ++ default [] (series_at tmap2 t j).
Proof.
  intros Hrun.
  apply timeseries_inv in Hrun as (Hall & -> & -> & Hdih & Htime & _).
  apply Forall_app in Hall as [Hall1 Hall2].
  destruct (timeseries_returns _ _ _ Hall1) as (st1 & Hrun1 & Hdih1 & Htime1 & _).
  destruct (timeseries_returns _ _ _ Hall2) as (st2 & Hrun2 & Hdih2 & Htime2 & _).
  eexists _, _, st1, _, _, st2. split; [exact Hrun1|]. split; [exact Hrun2|].
  intros t j. rewrite Hdih, Hdih1, Hdih2, Htime, Htime1, Htime2.
  by rewrite !default_expected_at_app.
Qed.

Lemma timeseries_of_concatenation_witness :
  ∃ dmap tmap st dmap1 tmap1 st1 dmap2 tmap2 st2,
    compute_dihedral_timeseries (take 2 rows_angles ++ drop 2 rows_angles) [0; 1] 2
      = Return (dmap, tmap) st
    ∧ compute_dihedral_timeseries (take 2 rows_angles) [0; 1] 2
      = Return (dmap1, tmap1) st1
    ∧ compute_dihedral_timeseries (drop 2 rows_angles) [0; 1] 2
      = Return (dmap2, tmap2) st2
    ∧ ∀ t j,
        default [] (series_at dmap t j)
        = default [] (series_at dmap1 t j) ++ default [] (series_at dmap2 t j)
        ∧ default [] (series_at tmap t j)
          = default [] (series_at tmap1 t j) ++ default [] (series_at tmap2 t j).
Proof.
  destruct (timeseries_of_concatenation (take 2 rows_angles) (drop 2 rows_angles)
              [0; 1] 2 _ _ _ eq_refl)
    as (dmap1 & tmap1 & st1 & dmap2 & tmap2 & st2 & H1 & H2 & H).
  eexists _, _, _, dmap1, tmap1, st1, dmap2, tmap2, st2.
  split; [reflexivity|]. split; [exact H1|]. split; [exact H2|]. exact H.
Defined.

End SeriesMore.

(** ** More on compute_rotamer_histogram: exceptions, composition, order *)

Module HistogramMore.
Import Py PyFacts Numpy NumpyFacts Histograms HistogramFacts.

Lemma comprehension_cases {A B} (f : A → exn + B) (l : list A) :
  match comprehension f l with
  | inl e => Exists (λ x, f x = inl e) l
  | inr ys => Forall (λ x, ∃ y, f x = inr y) l
  end.
Proof.
  induction l as [|x l IH]; simpl; [done|].
  destruct (f x) as [e|y] eqn:Hx; simpl; [by left|].
  destruct (comprehension f l) as [e|ys]; simpl.
  - by right.
  - apply Forall_cons. split; [by exists y|done].
Qed.

Lemma comprehension_app {A B} (f : A → exn + B) (l1 l2 : list A) :
  comprehension f (l1 ++ l2)
  = try! a := comprehension f l1 in
    try! b := comprehension f l2 in
    inr (a ++ b).
Proof.
  induction l1 as [|x l1 IH]; simpl.
  - by destruct (comprehension f l2).
  - destruct (f x) as [e|y]; simpl; [done|]. rewrite IH.
    destruct (comprehension f l1) as [e|a]; simpl; [done|].
    by destruct (comprehension f l2).
Qed.

(** Lines 59-61: the pooling raises [IndexError] or returns. *)
Lemma pooled_cases (data_lines : list (list Qc)) (cols : list Z) :
  match pooled data_lines cols with
  | inl e => e = IndexError ∧ ¬ Forall (has_columns cols) data_lines
  | inr vals => Forall (has_columns cols) data_lines
  end.
Proof.
  unfold pooled.
  pose proof (comprehension_cases (λ line, comprehension (getitem line) cols)
                data_lines) as H.
  destruct (comprehension _ data_lines) as [e|chunks]; simpl.
  - apply Exists_exists in H as (line & Hin & Hline).
    pose proof (comprehension_cases (getitem line) cols) as Hc.
    rewrite Hline in Hc. apply Exists_exists in Hc as (col & Hcol & Hbad).
    split; [by eapply RegexFacts.getitem_raises|].
    intros Hall. rewrite Forall_forall in Hall. specialize (Hall line Hin).
    unfold has_columns in Hall. rewrite Forall_forall in Hall.
    destruct (Hall col Hcol) as [x Hx]. congruence.
  - eapply Forall_impl; [exact H|]. intros line [ys Hys].
    pose proof (comprehension_cases (getitem line) cols) as Hc.
    by rewrite Hys in Hc.
Qed.

Lemma pooled_app (rows1 rows2 : list (list Qc)) (cols : list Z) :
  pooled (rows1 ++ rows2) cols
  = try! a := pooled rows1 cols in
    try! b := pooled rows2 cols in
    inr (a ++ b).
Proof.
  unfold pooled. rewrite comprehension_app.
  destruct (comprehension _ rows1) as [e|a]; simpl; [done|].
  destruct (comprehension _ rows2) as [e|b]; simpl; [done|].
  by rewrite concat_app.
Qed.

Lemma histogram_length (a : list Qc) (mn mx : Qc) (bins : Z)
    (histo : list Z) (edges : list Qc) :
  histogram a mn mx bins = inr (histo, edges) →
  length histo = Z.to_nat bins.
Proof.
  unfold histogram. destruct (bins <? 1) eqn:Hb; [done|].
  destruct (bin_range mn mx) as [e|[mn' mx']]; simpl; [done|].
  intros [= <- _]. rewrite length_diff, length_app, length_fmap, length_take.
  rewrite length_linspace. simpl. lia.
Qed.

Lemma histogram_edges_length (a : list Qc) (mn mx : Qc) (bins : Z)
    (histo : list Z) (edges : list Qc) :
  histogram a mn mx bins = inr (histo, edges) →
  1 ≤ bins ∧ length edges = S (Z.to_nat bins).
Proof.
  unfold histogram. destruct (bins <? 1) eqn:Hb; [done|]. apply Z.ltb_ge in Hb.
  destruct (bin_range mn mx) as [e|[mn' mx']]; simpl; [done|].
  intros [= _ <-]. rewrite length_linspace. split; [done|lia].
Qed.

(** [histogram] raises [ValueError] for less than one bin or an inverted
    range, and returns otherwise. *)
Lemma histogram_cases (a : list Qc) (mn mx : Qc) (bins : Z) :
  match histogram a mn mx bins with
  | inl e => e = ValueError ∧ (bins < 1 ∨ (mx < mn)%Qc)
  | inr _ => 1 ≤ bins ∧ ¬ (mx < mn)%Qc
  end.
Proof.
  unfold histogram, bin_range. destruct (bins <? 1) eqn:Hb.
  { split; [done|]. left. lia. }
  destruct (bool_decide (mx < mn)%Qc) eqn:Hr.
  { apply bool_decide_eq_true in Hr. simpl. split; [done|]. by right. }
  apply bool_decide_eq_false in Hr.
  destruct (bool_decide (mn = mx)); simpl; (split; [lia|done]).
Qed.

(** X16.  [compute_rotamer_histogram] raises [IndexError] exactly when
    some row lacks a requested column, whatever the bins and the range:
    the columns are read before [numpy.histogram] is called.  When all
    rows have the columns, [histbins >= 1] and [histmin <= histmax], it
    returns [histbins] counts and [histbins+1] edges, also for no row at
    all and for [histmin = histmax]. *)
Theorem rotamer_histogram_index_error (data_lines : list (list Qc))
    (dihedral_cols : list Z) (histmin histmax : Qc) (histbins : Z) :
  (compute_rotamer_histogram data_lines dihedral_cols histmin histmax histbins
   = inl IndexError
   ↔ ¬ Forall (has_columns dihedral_cols) data_lines)
  ∧ (Forall (has_columns dihedral_cols) data_lines →
     1 ≤ histbins →
     (histmin ≤ histmax)%Qc →
     ∃ histo edges,
       compute_rotamer_histogram data_lines dihedral_cols histmin histmax histbins
         = inr (histo, edges)
       ∧ length histo = Z.to_nat histbins
       ∧ length edges = S (Z.to_nat histbins)).
Proof.
  unfold compute_rotamer_histogram.
  pose proof (pooled_cases data_lines dihedral_cols) as Hp.
  destruct (pooled data_lines dihedral_cols) as [e|vals]; simpl.
  - destruct Hp as [-> Hnot]. split; [done|]. intros Hall. by destruct Hnot.
  - pose proof (histogram_cases vals histmin histmax histbins) as Hh.
    destruct (histogram vals histmin histmax histbins) as [e|[histo edges]] eqn:Hrun.
    + destruct Hh as [-> Hbad]. split.
      * split; [done|]. intros Hnot. by destruct Hnot.
      * intros _ Hbins Hrange. destruct Hbad as [?|Hlt]; [lia|].
        by apply Qcle_not_lt in Hrange.
    + split.
      * split; [done|]. intros Hnot. by destruct Hnot.
      * intros _ _ _. exists histo, edges. split; [done|].
        split; [by eapply histogram_length|].
        by apply histogram_edges_length in Hrun as [_ ?].
Qed.

Lemma count_lt_app (e : Qc) (a b : list Qc) :
  count_lt e (a ++ b) = count_lt e a + count_lt e b.
Proof. unfold count_lt. rewrite filter_app, length_app. lia. Qed.

Lemma count_le_app (e : Qc) (a b : list Qc) :
  count_le e (a ++ b) = count_le e a + count_le e b.
Proof. unfold count_le. rewrite filter_app, length_app. lia. Qed.

Lemma zip_sub_add (t1 t2 c1 c2 : list Z) :
  zip_with Z.sub (zip_with Z.add t1 t2) (zip_with Z.add c1 c2)
  = zip_with Z.add (zip_with Z.sub t1 c1) (zip_with Z.sub t2 c2).
Proof.
  revert t2 c1 c2. induction t1 as [|x t1 IH]; intros t2 c1 c2; [done|].
  destruct t2 as [|y t2]; [by destruct c1|].
  destruct c1 as [|u c1]; [done|]. destruct c2 as [|v c2]; [done|].
  simpl. rewrite IH. f_equal. lia.
Qed.

Lemma diff_zip_add (c1 c2 : list Z) :
  diff (zip_with Z.add c1 c2) = zip_with Z.add (diff c1) (diff c2).
Proof.
  unfold diff. rewrite <- zip_sub_add. f_equal.
  destruct c1 as [|x c1]; [done|]. destruct c2; [simpl; by destruct c1|done].
Qed.

Lemma cumulative_add (f f1 f2 : Qc → Z) (l : list Qc) (x1 x2 : Z) :
  (∀ e, f e = f1 e + f2 e) →
  (f <$> l) ++ [x1 + x2]
  = zip_with Z.add ((f1 <$> l) ++ [x1]) ((f2 <$> l) ++ [x2]).
Proof.
  intros Hf. induction l as [|e l IH]; [done|].
  rewrite !fmap_cons. simpl. by rewrite IH, Hf.
Qed.

(** [histogram] of two samples put together. *)
Lemma histogram_app (a b : list Qc) (mn mx : Qc) (bins : Z) :
  histogram (a ++ b) mn mx bins
  = try! r1 := histogram a mn mx bins in
    try! r2 := histogram b mn mx bins in
    inr (zip_with Z.add r1.1 r2.1, r1.2).
Proof.
  unfold histogram. destruct (bins <? 1); [done|].
  destruct (bin_range mn mx) as [e|[mn' mx']]; simpl; [done|].
  do 2 f_equal. rewrite <- diff_zip_add. f_equal.
  rewrite count_le_app. apply cumulative_add. intros e. apply count_lt_app.
Qed.

(** X17.  The histogram of two lists of rows read one after the other
    is the sum, bin by bin, of their histograms, over the same edges:
    when [compute_rotamer_histogram] returns on [rows1 ++ rows2] it
    returns on [rows1] and on [rows2]. *)
Theorem rotamer_histogram_additive (rows1 rows2 : list (list Qc))
    (dihedral_cols : list Z) (histmin histmax : Qc) (histbins : Z)
    (histo : list Z) (edges : list Qc) :
  compute_rotamer_histogram (rows1 ++ rows2) dihedral_cols histmin histmax histbins
    = inr (histo, edges) →
  ∃ histo1 histo2,
    compute_rotamer_histogram rows1 dihedral_cols histmin histmax histbins
      = inr (histo1, edges)
    ∧ compute_rotamer_histogram rows2 dihedral_cols histmin histmax histbins
      = inr (histo2, edges)
    ∧ length histo1 = length histo
    ∧ length histo2 = length histo
    ∧ histo = zip_with Z.add histo1 histo2.
Proof.
  unfold compute_rotamer_histogram. rewrite pooled_app.
  destruct (pooled rows1 dihedral_cols) as [e|a]; simpl; [done|].
  destruct (pooled rows2 dihedral_cols) as [e|b]; simpl; [done|].
  rewrite histogram_app.
  destruct (histogram a histmin histmax histbins) as [e|[h1 e1]] eqn:H1; simpl; [done|].
  destruct (histogram b histmin histmax histbins) as [e|[h2 e2]] eqn:H2; simpl; [done|].
  intros [= <- <-]. exists h1, h2.
  assert (e2 = e1) as ->.
  { unfold histogram in H1, H2. destruct (histbins <? 1); [done|].
    destruct (bin_range histmin histmax) as [e|[mn' mx']]; simpl in *; [done|].
    congruence. }
  apply histogram_length in H1, H2.
  split; [done|]. split; [done|].
  rewrite length_zip_with. split; [lia|]. split; [lia|done].
Qed.

Lemma rotamer_histogram_additive_witness :
  ∃ histo edges histo1 histo2,
    compute_rotamer_histogram (take 2 rows_angles ++ drop 2 rows_angles) [0; 1]
      (of_int 0) (of_int 10) 5 = inr (histo, edges)
    ∧ compute_rotamer_histogram (take 2 rows_angles) [0; 1]
        (of_int 0) (of_int 10) 5 = inr (histo1, edges)
    ∧ compute_rotamer_histogram (drop 2 rows_angles) [0; 1]
        (of_int 0) (of_int 10) 5 = inr (histo2, edges)
    ∧ length histo1 = length histo
    ∧ length histo2 = length histo
    ∧ histo = zip_with Z.add histo1 histo2.
Proof.
  destruct (rotamer_histogram_additive (take 2 rows_angles) (drop 2 rows_angles)
              [0; 1] (of_int 0) (of_int 10) 5 _ _ eq_refl)
    as (histo1 & histo2 & H1 & H2 & H).
  eexists _, _, histo1, histo2. split; [reflexivity|].
  split; [exact H1|]. split; [exact H2|]. exact H.
Defined.

Lemma histogram_Permutation (a a' : list Qc) (mn mx : Qc) (bins : Z) :
  a ≡ₚ a' → histogram a mn mx bins = histogram a' mn mx bins.
Proof.
  intros HP. unfold histogram. destruct (bins <? 1); [done|].
  destruct (bin_range mn mx) as [e|[mn' mx']]; simpl; [done|].
  do 3 f_equal. f_equal.
  - apply list_fmap_ext. intros _ e _. unfold count_lt. by rewrite HP.
  - f_equal. unfold count_le. by rewrite HP.
Qed.

(** X18.  The result of [compute_rotamer_histogram] does not depend on
    the order of the rows: counts, edges and exception are the same for
    any rearrangement of [data_lines]. *)
Theorem rotamer_histogram_row_order (data_lines data_lines' : list (list Qc))
    (dihedral_cols : list Z) (histmin histmax : Qc) (histbins : Z) :
  data_lines ≡ₚ data_lines' →
  compute_rotamer_histogram data_lines dihedral_cols histmin histmax histbins
  = compute_rotamer_histogram data_lines' dihedral_cols histmin histmax histbins.
Proof.
  intros HP. unfold compute_rotamer_histogram.
  pose proof (pooled_cases data_lines dihedral_cols) as Hp.
  pose proof (pooled_cases data_lines' dihedral_cols) as Hp'.
  destruct (pooled data_lines dihedral_cols) as [e|vals] eqn:Hv;
    destruct (pooled data_lines' dihedral_cols) as [e'|vals'] eqn:Hv'; simpl.
  - destruct Hp as [-> _], Hp' as [-> _]. done.
  - destruct Hp as [_ Hnot]. destruct Hnot. by rewrite HP.
  - destruct Hp' as [_ Hnot]. destruct Hnot. by rewrite <- HP.
  - rewrite pooled_items in Hv, Hv' by done.
    injection Hv as <-. injection Hv' as <-.
    apply histogram_Permutation. by rewrite HP.
Qed.

Lemma rotamer_histogram_row_order_witness :
  compute_rotamer_histogram rows_angles [0; 1] (of_int 0) (of_int 10) 5
  = compute_rotamer_histogram (reverse rows_angles) [0; 1] (of_int 0) (of_int 10) 5.
Proof.
  apply (rotamer_histogram_row_order rows_angles (reverse rows_angles) [0; 1]
           (of_int 0) (of_int 10) 5).
  apply (bool_decide_unpack _). vm_compute. exact I.
Defined.

End HistogramMore.

(** ** More on compute_rotamer_rotamer_histogram: exceptions, shape, minimum *)

Module SurfaceMore.
Import Py PyFacts Numpy NumpyFacts Histograms SurfaceFacts HistogramMore.

Lemma bin_range_raises (mn mx : Qc) (e : exn) :
  bin_range mn mx = inl e → e = ValueError.
Proof.
  unfold bin_range. destruct (bool_decide (mx < mn)%Qc); [by intros [= <-]|].
  by destruct (bool_decide (mn = mx)).
Qed.

Lemma histogram2d_raises (x y : list Qc) (mn mx : Qc) (bins : Z) (e : exn) :
  histogram2d x y mn mx bins = inl e → e = ValueError.
Proof.
  unfold histogram2d. destruct (negb _); [by intros [= <-]|].
  destruct (bins <? 1); [by intros [= <-]|].
  destruct (bin_range mn mx) as [e'|[lo hi]] eqn:Hr; simpl.
  - intros [= <-]. by eapply bin_range_raises.
  - by destruct (_ =? 0).
Qed.

Lemma sum_all_zero (l : list Z) : Forall (λ z, z = 0) l → sum l = 0.
Proof.
  induction 1 as [|z l -> _ IH]; [done|]. by rewrite sum_cons, IH.
Qed.

Lemma linspace_bounds (lo hi : Qc) (bins : Z) (i : nat) (e : Qc) :
  (lo < hi)%Qc → 1 ≤ bins → (i ≤ Z.to_nat bins)%nat →
  linspace lo hi bins !! i = Some e →
  (lo ≤ e ∧ e ≤ hi)%Qc.
Proof.
  intros Hlt Hbins Hi He. rewrite lookup_linspace in He by lia.
  injection He as <-.
  assert (Hb : (0 < of_int bins)%Qc) by (apply of_int_pos; lia).
  assert (Hw : (0 < (hi - lo) / of_int bins)%Qc).
  { apply Qcdiv_pos; [|done]. apply Qclt_minus_iff in Hlt. by unfold Qcminus. }
  assert (Hhi : hi = (lo + of_int bins * ((hi - lo) / of_int bins))%Qc).
  { field. intros Hz. rewrite Hz in Hb. by apply Qclt_not_eq in Hb. }
  split.
  - rewrite <- (Qcplus_0_r lo) at 1. apply Qcplus_le_mono_l.
    apply Qcmult_nonneg_nonneg; [|by apply Qclt_le_weak].
    apply of_int_nonneg. lia.
  - rewrite Hhi at 2. apply Qcplus_le_mono_l.
    apply Qcmult_le_compat_r; [|by apply Qclt_le_weak].
    apply RegexMore.of_int_le. lia.
Qed.

(** A value counted in a bin lies in the binned range. *)
Lemma in_bin_range (lo hi : Qc) (bins : Z) (i : nat) (u : Qc) :
  (lo < hi)%Qc → 1 ≤ bins →
  in_bin (linspace lo hi bins) bins i u = true →
  (lo ≤ u ∧ u ≤ hi)%Qc.
Proof.
  intros Hlt Hbins. unfold in_bin.
  destruct (linspace lo hi bins !! i) as [a|] eqn:Ha; [|done].
  destruct (linspace lo hi bins !! S i) as [b|] eqn:Hb; [|done].
  assert (HSi : (S i < Z.to_nat (bins + 1))%nat).
  { rewrite <- length_linspace with (lo := lo) (hi := hi).
    by eapply lookup_lt_Some. }
  destruct (linspace_bounds lo hi bins i a) as [Hlo _]; [done|done|lia|done|].
  destruct (linspace_bounds lo hi bins (S i) b) as [_ Hhi]; [done|done|lia|done|].
  intros [Hau Hub]%andb_true_iff. apply bool_decide_eq_true in Hau.
  split; [by etrans|].
  apply orb_true_iff in Hub as [Hub|Hub].
  - apply bool_decide_eq_true in Hub. apply Qclt_le_weak. by eapply Qclt_le_trans.
  - apply andb_true_iff in Hub as [_ Hub]. apply bool_decide_eq_true in Hub.
    by subst u.
Qed.

(** What a grid returned by [histogram2d] is and needs. *)
Lemma histogram2d_grid (x y : list Qc) (mn mx : Qc) (bins : Z)
    (histo : list (list Qc)) (xedges yedges : list Qc) :
  histogram2d x y mn mx bins = inr (Grid histo, xedges, yedges) →
  ∃ lo hi,
    bin_range mn mx = inr (lo, hi)
    ∧ 1 ≤ bins
    ∧ xedges = linspace lo hi bins
    ∧ yedges = xedges
    ∧ length histo = Z.to_nat bins
    ∧ Forall (λ r, length r = Z.to_nat bins) histo
    ∧ ∃ u v, (u, v) ∈ zip x y ∧ (lo ≤ u ∧ u ≤ hi)%Qc ∧ (lo ≤ v ∧ v ≤ hi)%Qc.
Proof.
  unfold histogram2d. destruct (negb _); [done|].
  destruct (bins <? 1) eqn:Hbins; [done|]. apply Z.ltb_ge in Hbins.
  destruct (bin_range mn mx) as [e|[lo hi]] eqn:Hrange; [done|]. simpl.
  pose proof (bin_range_lt _ _ _ _ Hrange) as Hlt.
  match goal with |- context [sum ?l =? 0] => set (s := sum l) end.
  destruct (s =? 0) eqn:Hs; [done|]. apply Z.eqb_neq in Hs.
  intros [= <- <- <-]. exists lo, hi. do 4 (split; [done|]).
  split; [by rewrite length_fmap, length_seq|]. split.
  { apply Forall_forall. intros r Hr. apply list_elem_of_fmap in Hr as (i & -> & _).
    by rewrite length_fmap, length_seq. }
  destruct (decide (Forall (λ z, z = 0)
    (concat ((λ i, (λ j, Z.of_nat (length (filter (λ '(u, v),
        in_bin (linspace lo hi bins) bins i u && in_bin (linspace lo hi bins) bins j v)
        (zip x y)))) <$> seq 0 (Z.to_nat bins)) <$> seq 0 (Z.to_nat bins)))))
    as [Hall|Hex].
  { apply sum_all_zero in Hall. by destruct Hs. }
  apply not_Forall_Exists in Hex; [|apply _].
  apply Exists_exists in Hex as (z & Hz & Hne).
  apply elem_of_concat in Hz as (r & Hz & Hr).
  apply list_elem_of_fmap in Hr as (i & -> & _).
  apply list_elem_of_fmap in Hz as (j & -> & _). simpl in Hne.
  apply RegexMore.length_filter_ne_0 in Hne as ([u v] & Hin & Hbin).
  apply andb_prop_elim in Hbin as [Hu Hv].
  apply Is_true_true in Hu, Hv.
  exists u, v. split; [done|]. split; by eapply in_bin_range.
Qed.

Section Surface.

Variable log : Qc → Qc.

(** Lines 81-85 of the function: the pooling of both column lists. *)
Lemma pairs_cases (chi1_cols chi2_cols : list Z) (data_lines : list (list Qc)) :
  match comprehension (λ line,
          try! xs := comprehension (getitem line) chi1_cols in
          try! ys := comprehension (getitem line) chi2_cols in
          inr (xs, ys)) data_lines with
  | inl e => e = IndexError
             ∧ ¬ Forall (λ line, has_columns chi1_cols line ∧ has_columns chi2_cols line)
                        data_lines
  | inr _ => Forall (λ line, has_columns chi1_cols line ∧ has_columns chi2_cols line)
                    data_lines
  end.
Proof.
  match goal with |- context [comprehension ?f data_lines] =>
    pose proof (comprehension_cases f data_lines) as H;
    destruct (comprehension f data_lines) as [e|vals] end.
  - apply Exists_exists in H as (line & Hin & Hline).
    pose proof (comprehension_cases (getitem line) chi1_cols) as H1.
    pose proof (comprehension_cases (getitem line) chi2_cols) as H2.
    destruct (comprehension (getitem line) chi1_cols) as [e1|xs]; simpl in Hline.
    + injection Hline as ->. apply Exists_exists in H1 as (col & Hcol & Hbad).
      split; [by eapply RegexFacts.getitem_raises|].
      intros Hall. rewrite Forall_forall in Hall. destruct (Hall line Hin) as [Hc _].
      unfold has_columns in Hc. rewrite Forall_forall in Hc.
      destruct (Hc col Hcol) as [x Hx]. congruence.
    + destruct (comprehension (getitem line) chi2_cols) as [e2|ys]; simpl in Hline;
        [|done].
      injection Hline as ->. apply Exists_exists in H2 as (col & Hcol & Hbad).
      split; [by eapply RegexFacts.getitem_raises|].
      intros Hall. rewrite Forall_forall in Hall. destruct (Hall line Hin) as [_ Hc].
      unfold has_columns in Hc. rewrite Forall_forall in Hc.
      destruct (Hc col Hcol) as [x Hx]. congruence.
  - eapply Forall_impl; [exact H|]. intros line [[xs ys] Hline].
    pose proof (comprehension_cases (getitem line) chi1_cols) as H1.
    pose proof (comprehension_cases (getitem line) chi2_cols) as H2.
    destruct (comprehension (getitem line) chi1_cols) as [e1|xs']; [done|].
    destruct (comprehension (getitem line) chi2_cols) as [e2|ys']; [done|].
    done.
Qed.

Lemma energy_surface_raises (kBT max_eng : Qc) (histo : list (list Qc)) (e : exn) :
  energy_surface log kBT max_eng histo = inl e → e = ValueError.
Proof.
  rewrite energy_surface_cells.
  destruct (min _) as [e'|m] eqn:Hmin; [|done].
  intros [= <-]. by apply min_raises in Hmin as [_ ->].
Qed.

(** X19.  [compute_rotamer_rotamer_histogram] raises [IndexError]
    exactly when some row lacks a column of [chi1_cols] or [chi2_cols],
    whatever the other arguments.  On an empty list of rows, with
    [histbins >= 1] and [histmin <= histmax], it raises [ValueError]:
    no cell has a positive density, and [min] of line 100 is taken of an
    empty selection. *)
Theorem rotamer_surface_exceptions (data_lines : list (list Qc))
    (chi1_cols chi2_cols : list Z) (kBT max_eng histmin histmax : Qc)
    (histbins : Z) :
  (compute_rotamer_rotamer_histogram log data_lines chi1_cols chi2_cols
     kBT max_eng histmin histmax histbins = inl IndexError
   ↔ ¬ Forall (λ line, has_columns chi1_cols line ∧ has_columns chi2_cols line)
              data_lines)
  ∧ (1 ≤ histbins →
     (histmin ≤ histmax)%Qc →
     compute_rotamer_rotamer_histogram log [] chi1_cols chi2_cols
       kBT max_eng histmin histmax histbins = inl ValueError).
Proof.
  split.
  - unfold compute_rotamer_rotamer_histogram.
    pose proof (pairs_cases chi1_cols chi2_cols data_lines) as Hp.
    destruct (comprehension _ data_lines) as [e|vals]; simpl.
    + destruct Hp as [-> Hnot]. done.
    + split; [|intros Hnot; by destruct Hnot].
      destruct (histogram2d _ _ _ _ _) as [e'|[[d xe] ye]] eqn:Hh; simpl.
      * intros [= ->]. by apply histogram2d_raises in Hh.
      * destruct d as [histo|]; [|done].
        destruct (energy_surface log kBT max_eng histo) as [e'|h] eqn:He; simpl;
          [|done].
        intros [= ->]. by apply energy_surface_raises in He.
  - intros _ _. unfold compute_rotamer_rotamer_histogram. simpl.
    destruct (histogram2d [] [] histmin histmax histbins) as [e|[[d xe] ye]] eqn:Hh;
      simpl.
    + f_equal. by eapply histogram2d_raises.
    + destruct d as [histo|]; [|done].
      apply histogram2d_grid in Hh as (lo & hi & _ & _ & _ & _ & _ & _ & u & v & Hin & _).
      by apply elem_of_nil in Hin.
Qed.

Lemma length_map2 {A B} (f : A → B) (histo : list (list A)) (n : nat) :
  Forall (λ r, length r = n) histo → Forall (λ r, length r = n) (map2 f histo).
Proof.
  intros Hall. unfold map2. apply Forall_fmap. eapply Forall_impl; [exact Hall|].
  intros r Hr. simpl. by rewrite length_fmap.
Qed.

(** X20.  A surface returned by [compute_rotamer_rotamer_histogram] is
    a grid of [histbins] rows of [histbins] cells, with [histbins >= 1];
    the two lists of edges are the same list of [histbins+1] edges,
    which for [histmin < histmax] run from [histmin] to [histmax] in
    equal steps. *)
Theorem rotamer_surface_shape (data_lines : list (list Qc))
    (chi1_cols chi2_cols : list Z) (kBT max_eng histmin histmax : Qc)
    (histbins : Z) (surface : list (list Qc)) (xedges yedges : list Qc) :
  compute_rotamer_rotamer_histogram log data_lines chi1_cols chi2_cols
    kBT max_eng histmin histmax histbins = inr (surface, xedges, yedges) →
  1 ≤ histbins
  ∧ length surface = Z.to_nat histbins
  ∧ Forall (λ r, length r = Z.to_nat histbins) surface
  ∧ yedges = xedges
  ∧ length xedges = S (Z.to_nat histbins)
  ∧ ((histmin < histmax)%Qc →
     ∀ i : nat, (i ≤ Z.to_nat histbins)%nat →
       xedges !! i
       = Some (histmin + of_int (Z.of_nat i) * ((histmax - histmin) / of_int histbins))%Qc).
Proof.
  intros Hrun. apply surface_inv in Hrun
    as (x & y & histo & m & _ & _ & Hh & _ & _ & ->).
  apply histogram2d_grid in Hh
    as (lo & hi & Hrange & Hbins & -> & -> & Hlen & Hrows & _).
  split; [done|]. split; [by unfold map2; rewrite length_fmap|].
  split; [by apply length_map2|]. split; [done|].
  split; [rewrite length_linspace; lia|].
  intros Hlt i Hi. rewrite bin_range_id in Hrange by done.
  injection Hrange as <- <-. apply lookup_linspace. lia.
Qed.

(** X21.  When [histmin < histmax], a surface is returned only if at
    least one pair of pooled values (chi1, chi2) lies in the square
    [histmin, histmax] x [histmin, histmax]: with no such pair the
    function raises instead of returning a flat surface. *)
Theorem rotamer_surface_needs_sample (data_lines : list (list Qc))
    (chi1_cols chi2_cols : list Z) (kBT max_eng histmin histmax : Qc)
    (histbins : Z) (surface : list (list Qc)) (xedges yedges : list Qc) :
  (histmin < histmax)%Qc →
  compute_rotamer_rotamer_histogram log data_lines chi1_cols chi2_cols
    kBT max_eng histmin histmax histbins = inr (surface, xedges, yedges) →
  ∃ x y u v,
    pooled data_lines chi1_cols = inr x
    ∧ pooled data_lines chi2_cols = inr y
    ∧ (u, v) ∈ zip x y
    ∧ (histmin ≤ u ∧ u ≤ histmax)%Qc
    ∧ (histmin ≤ v ∧ v ≤ histmax)%Qc.
Proof.
  intros Hlt Hrun. apply surface_inv in Hrun
    as (x & y & histo & m & Hx & Hy & Hh & _).
  apply histogram2d_grid in Hh
    as (lo & hi & Hrange & _ & _ & _ & _ & _ & u & v & Hin & Hu & Hv).
  rewrite bin_range_id in Hrange by done. injection Hrange as <- <-.
  by exists x, y, u, v.
Qed.

(** X22.  In a returned surface the least value over the cells of
    non-zero probability is [m - abs m], where [m] is the least of
    [-kBT * log p] over these cells: it is 0 when [m] is not negative,
    and [2m] when [m] is negative (the shift by [abs m] then lowers the
    minimum further instead of bringing it to 0). *)
Theorem rotamer_surface_minimum (data_lines : list (list Qc))
    (chi1_cols chi2_cols : list Z) (kBT max_eng histmin histmax : Qc)
    (histbins : Z) (surface : list (list Qc)) (xedges yedges : list Qc) :
  compute_rotamer_rotamer_histogram log data_lines chi1_cols chi2_cols
    kBT max_eng histmin histmax histbins = inr (surface, xedges, yedges) →
  ∃ x y histo m,
    pooled data_lines chi1_cols = inr x
    ∧ pooled data_lines chi2_cols = inr y
    ∧ histogram2d x y histmin histmax histbins = inr (Grid histo, xedges, yedges)
    ∧ min ((λ p, - kBT * log p)%Qc <$> nonzero_cells histo) = inr m
    ∧ (∃ i j p, cell histo i j = Some p ∧ p ≠ 0%Qc
         ∧ cell surface i j = Some (if decide (m < 0)%Qc then m + m else 0)%Qc)
    ∧ ∀ i j p e, cell histo i j = Some p → p ≠ 0%Qc →
        cell surface i j = Some e →
        ((if decide (m < 0)%Qc then m + m else 0) ≤ e)%Qc.
Proof.
  intros Hrun. apply surface_inv in Hrun
    as (x & y & histo & m & Hx & Hy & Hh & Hnonneg & Hmin & ->).
  exists x, y, histo, m. do 4 (split; [done|]).
  assert (Hshift : (m - abs m = if decide (m < 0)%Qc then m + m else 0)%Qc).
  { unfold abs. destruct (Qclt_le_dec m 0) as [Hlt|Hge].
    - rewrite decide_True by done. ring.
    - rewrite decide_False by (by apply Qcle_not_lt). ring. }
  rewrite <- Hshift.
  assert (Hpos : ∀ i j p, cell histo i j = Some p → p ≠ 0%Qc → (0 < p)%Qc).
  { intros i j p Hc Hne.
    destruct (Qcle_lt_or_eq _ _ (Hnonneg i j p Hc)) as [?|?]; [done|congruence]. }
  apply min_spec in Hmin as [Hin Hle]. split.
  - apply list_elem_of_fmap in Hin as (p & -> & Hp).
    apply list_elem_of_filter in Hp as [Hne Hp].
    apply elem_of_cells in Hp as (i & j & Hc).
    exists i, j, p. split; [done|]. split; [done|].
    rewrite cell_map2, Hc. simpl.
    by rewrite bool_decide_eq_true_2 by by eapply Hpos.
  - intros i j p e Hc Hne. rewrite cell_map2, Hc. simpl.
    rewrite bool_decide_eq_true_2 by by eapply Hpos.
    intros [= <-]. unfold Qcminus. apply Qcplus_le_mono_r. apply Hle.
    apply list_elem_of_fmap. exists p. split; [done|].
    apply list_elem_of_filter. split; [done|].
    apply elem_of_cells. by exists i, j.
Qed.

End Surface.

Lemma rotamer_surface_shape_witness :
  ∃ surface xedges yedges,
    compute_rotamer_rotamer_histogram log_approx rows_angles [0] [1]
      (Q2Qc (1 # 2)) (of_int 7) (of_int 0) (of_int 4) 2
    = inr (surface, xedges, yedges)
    ∧ 1 ≤ 2
    ∧ length surface = Z.to_nat 2
    ∧ Forall (λ r, length r = Z.to_nat 2) surface
    ∧ yedges = xedges
    ∧ length xedges = S (Z.to_nat 2)
    ∧ ((of_int 0 < of_int 4)%Qc →
       ∀ i : nat, (i ≤ Z.to_nat 2)%nat →
         xedges !! i
         = Some (of_int 0 + of_int (Z.of_nat i) * ((of_int 4 - of_int 0) / of_int 2))%Qc).
Proof.
  eexists _, _, _. split; [vm_compute; reflexivity|].
  apply (rotamer_surface_shape log_approx rows_angles [0] [1]
           (Q2Qc (1 # 2)) (of_int 7) (of_int 0) (of_int 4) 2).
  vm_compute. reflexivity.
Defined.

Lemma rotamer_surface_needs_sample_witness :
  ∃ x y u v,
    pooled rows_angles [0] = inr x
    ∧ pooled rows_angles [1] = inr y
    ∧ (u, v) ∈ zip x y
    ∧ (of_int 0 ≤ u ∧ u ≤ of_int 4)%Qc
    ∧ (of_int 0 ≤ v ∧ v ≤ of_int 4)%Qc.
Proof.
  eapply (rotamer_surface_needs_sample log_approx rows_angles [0] [1]
            (Q2Qc (1 # 2)) (of_int 7) (of_int 0) (of_int 4) 2).
  - reflexivity.
  - vm_compute. reflexivity.
Defined.

Lemma rotamer_surface_minimum_witness :
  ∃ surface xedges yedges,
    compute_rotamer_rotamer_histogram log_approx rows_angles [0] [1]
      (Q2Qc (1 # 2)) (of_int 7) (of_int 0) (of_int 4) 2
    = inr (surface, xedges, yedges)
    ∧ ∃ x y histo m,
        pooled rows_angles [0] = inr x
        ∧ pooled rows_angles [1] = inr y
        ∧ histogram2d x y (of_int 0) (of_int 4) 2 = inr (Grid histo, xedges, yedges)
        ∧ min ((λ p, - Q2Qc (1 # 2) * log_approx p)%Qc <$> nonzero_cells histo) = inr m
        ∧ (∃ i j p, cell histo i j = Some p ∧ p ≠ 0%Qc
             ∧ cell surface i j = Some (if decide (m < 0)%Qc then m + m else 0)%Qc)
        ∧ ∀ i j p e, cell histo i j = Some p → p ≠ 0%Qc →
            cell surface i j = Some e →
            ((if decide (m < 0)%Qc then m + m else 0) ≤ e)%Qc.
Proof.
  eexists _, _, _. split; [vm_compute; reflexivity|].
  apply (rotamer_surface_minimum log_approx rows_angles [0] [1]
           (Q2Qc (1 # 2)) (of_int 7) (of_int 0) (of_int 4) 2).
  vm_compute. reflexivity.
Defined.

End SurfaceMore.

(** ** The files written when a prefix is given *)

Module OutputFacts.
Import Py PyFacts Numpy NumpyFacts Histograms SurfaceFacts HistogramMore SurfaceMore.

Lemma lookup_zip_fmap {A B C} (f : A * B → C) (l : list A) (k : list B)
    (i : nat) (a : A) (b : B) :
  l !! i = Some a → k !! i = Some b → (f <$> zip l k) !! i = Some (f (a, b)).
Proof.
  intros Ha Hb. rewrite list_lookup_fmap.
  assert (zip l k !! i = Some (a, b)) as ->; [|done].
  apply lookup_zip_with_Some. by exists a, b.
Qed.

Section Output.

Variable log : Qc → Qc.
Variable str_float : Qc → string.
Variable str_int : Z → string.
Variable str_row : list Qc → string.

(** X25.  Called with a prefix, [compute_rotamer_histogram] returns
    what it returns without one and writes the file [prefix_dihedrals]
    in [histbins] writes, the [i]-th being the left edge of bin [i], a
    space, the count of bin [i] and a newline; the last of the
    [histbins+1] edges is not written.  Without a prefix nothing is
    written. *)
Theorem dihedrals_file (prefix : option string) (data_lines : list (list Qc))
    (dihedral_cols : list Z) (histmin histmax : Qc) (histbins : Z)
    (histo : list Z) (edges : list Qc) (out : option file) :
  compute_rotamer_histogram_prefix str_float str_int prefix data_lines
    dihedral_cols histmin histmax histbins = inr (histo, edges, out) →
  compute_rotamer_histogram data_lines dihedral_cols histmin histmax histbins
    = inr (histo, edges)
  ∧ match prefix with
    | None => out = None
    | Some p =>
        ∃ f, out = Some f
          ∧ file_name f = p +:+ "_dihedrals"
          ∧ length (file_writes f) = Z.to_nat histbins
          ∧ length edges = S (Z.to_nat histbins)
          ∧ ∀ i e c, edges !! i = Some e → histo !! i = Some c →
              file_writes f !! i
              = Some (str_float e +:+ " " +:+ str_int c +:+ newline)
    end.
Proof.
  unfold compute_rotamer_histogram_prefix.
  destruct (compute_rotamer_histogram _ _ _ _ _) as [e|[h es]] eqn:Hrun; [done|].
  simpl. intros [= <- <- <-]. split; [done|].
  destruct prefix as [p|]; [|done].
  unfold compute_rotamer_histogram in Hrun.
  destruct (pooled data_lines dihedral_cols) as [e|vals]; [done|]. simpl in Hrun.
  pose proof (histogram_length _ _ _ _ _ _ Hrun) as Hlen.
  apply histogram_edges_length in Hrun as [Hbins Hedges].
  eexists. split; [reflexivity|]. simpl. split; [done|]. split; [|split; [done|]].
  - rewrite length_fmap, length_zip_with. lia.
  - intros i e c He Hc.
    by rewrite (lookup_zip_fmap _ es h i e c He Hc).
Qed.

(** X26.  Called with a prefix, [compute_rotamer_rotamer_histogram]
    returns what it returns without one and writes the file
    [prefix_rotamer] in [histbins] calls of [write]: the [i]-th writes
    [str] of edge [i], a space, [str] of edge [i] again (once from
    [xedges], once from [yedges]), a space, [str] of the whole row [i]
    of the surface, and a newline.  How many lines of text [str] of a
    row takes is not stated: [str_row] is a parameter. *)
Theorem rotamer_file (prefix : string) (data_lines : list (list Qc))
    (chi1_cols chi2_cols : list Z) (kBT max_eng histmin histmax : Qc)
    (histbins : Z) (surface : list (list Qc)) (xedges yedges : list Qc)
    (out : option file) :
  compute_rotamer_rotamer_histogram_prefix log str_float str_row (Some prefix)
    data_lines chi1_cols chi2_cols kBT max_eng histmin histmax histbins
    = inr (surface, xedges, yedges, out) →
  compute_rotamer_rotamer_histogram log data_lines chi1_cols chi2_cols
    kBT max_eng histmin histmax histbins = inr (surface, xedges, yedges)
  ∧ ∃ f, out = Some f
      ∧ file_name f = prefix +:+ "_rotamer"
      ∧ length (file_writes f) = Z.to_nat histbins
      ∧ ∀ i e r, xedges !! i = Some e → surface !! i = Some r →
          file_writes f !! i
          = Some (str_float e +:+ " " +:+ str_float e +:+ " "
                    +:+ str_row r +:+ newline).
Proof.
  unfold compute_rotamer_rotamer_histogram_prefix.
  destruct (compute_rotamer_rotamer_histogram _ _ _ _ _ _ _ _ _)
    as [e|[[h xe] ye]] eqn:Hrun; [done|].
  simpl. intros [= <- <- <- <-]. split; [done|].
  apply surface_inv in Hrun as (x & y & histo & m & _ & _ & Hh & _ & _ & ->).
  apply histogram2d_grid in Hh
    as (lo & hi & _ & Hbins & -> & -> & Hlen & _ & _).
  eexists. split; [reflexivity|]. simpl. split; [done|]. split.
  - rewrite length_fmap, !length_zip_with. unfold map2.
    rewrite length_fmap, length_linspace. lia.
  - intros i e r He Hr.
    assert (Hz : zip (linspace lo hi histbins) (linspace lo hi histbins) !! i
                 = Some (e, e)).
    { apply lookup_zip_with_Some. by exists e, e. }
    by rewrite (lookup_zip_fmap _ _ _ i (e, e) r Hz Hr).
Qed.

End Output.

Lemma dihedrals_file_witness :
  ∃ histo edges out,
    compute_rotamer_histogram_prefix (λ _, "x"%string) (λ _, "n"%string)
      (Some "run"%string) rows_angles [0; 1] (of_int 0) (of_int 10) 5
    = inr (histo, edges, out)
    ∧ compute_rotamer_histogram rows_angles [0; 1] (of_int 0) (of_int 10) 5
      = inr (histo, edges)
    ∧ ∃ f, out = Some f
        ∧ file_name f = ("run" +:+ "_dihedrals")%string
        ∧ length (file_writes f) = Z.to_nat 5
        ∧ length edges = S (Z.to_nat 5)
        ∧ ∀ i e c, edges !! i = Some e → histo !! i = Some c →
            file_writes f !! i = Some ("x" +:+ " " +:+ "n" +:+ newline)%string.
Proof.
  eexists _, _, _. split; [vm_compute; reflexivity|].
  apply (dihedrals_file (λ _, "x"%string) (λ _, "n"%string) (Some "run"%string)
           rows_angles [0; 1] (of_int 0) (of_int 10) 5).
  vm_compute. reflexivity.
Defined.

Lemma rotamer_file_witness :
  ∃ surface xedges yedges out,
    compute_rotamer_rotamer_histogram_prefix log_approx (λ _, "x"%string)
      (λ _, "r"%string) (Some "run"%string) rows_angles [0] [1]
      (Q2Qc (1 # 2)) (of_int 7) (of_int 0) (of_int 4) 2
    = inr (surface, xedges, yedges, out)
    ∧ compute_rotamer_rotamer_histogram log_approx rows_angles [0] [1]
        (Q2Qc (1 # 2)) (of_int 7) (of_int 0) (of_int 4) 2
      = inr (surface, xedges, yedges)
    ∧ ∃ f, out = Some f
        ∧ file_name f = ("run" +:+ "_rotamer")%string
        ∧ length (file_writes f) = Z.to_nat 2
        ∧ ∀ i e r, xedges !! i = Some e → surface !! i = Some r →
            file_writes f !! i
            = Some ("x" +:+ " " +:+ "x" +:+ " " +:+ "r" +:+ newline)%string.
Proof.
  eexists _, _, _, _. split; [vm_compute; reflexivity|].
  apply (rotamer_file log_approx (λ _, "x"%string) (λ _, "r"%string) "run"%string
           rows_angles [0] [1] (Q2Qc (1 # 2)) (of_int 7) (of_int 0) (of_int 4) 2).
  vm_compute. reflexivity.
Defined.

End OutputFacts.
